(** * dotenv-parser-serializer: the grammar interpreter, the parser and the
      serializer of [src/parse.js] and [src/serialize.js]

    A JavaScript string is a sequence of UTF-16 code units; it is modelled
    as a list of code units ([N]).  The grammar table [TOKENS], the rule
    interpreter [extract], the generator [lex], the assembler of [parse],
    [parseString], [serialize] and [serializeString] follow the source
    statement by statement.  [extract] is recursive over the grammar, so
    the model carries a recursion budget; [lex_total] and [parse_well_typed]
    show that the budget [parse] hands out is never exhausted. *)

From Stdlib Require Import String Ascii List NArith Arith Lia Bool.
Import ListNotations.

(** ** JavaScript strings *)

Definition jstring := list N.

(** An ASCII literal as a JavaScript string. *)
Definition js (s : string) : jstring := map N_of_ascii (list_ascii_of_string s).

Definition c_bs : N := 8.      (* \b *)
Definition c_tab : N := 9.     (* \t *)
Definition c_nl : N := 10.     (* \n *)
Definition c_ff : N := 12.     (* \f *)
Definition c_cr : N := 13.     (* \r *)
Definition c_dq : N := 34.     (* double quote *)
Definition c_hash : N := 35.   (* # *)
Definition c_sq : N := 39.     (* apostrophe *)
Definition c_eq : N := 61.     (* = *)
Definition c_bsl : N := 92.    (* backslash *)

Definition jstring_eqb (a b : jstring) : bool :=
  if list_eq_dec N.eq_dec a b then true else false.

(** [s.substr(start, len)] and [s.charAt(i)]; [charAt] is the empty string
    past the end. *)
Definition substr (s : jstring) (start len : nat) : jstring :=
  firstn len (skipn start s).

Definition charAt (s : jstring) (i : nat) : jstring := substr s i 1.

(** [s.includes(c)] for a one-character needle. *)
Definition includes (s : jstring) (c : N) : bool := existsb (N.eqb c) s.

(** The characters [\s] matches and [trim] strips: WhiteSpace and
    LineTerminator of ECMA-262. *)
Definition is_space (c : N) : bool :=
  ((9 <=? c) && (c <=? 13) || (c =? 32) || (c =? 160) || (c =? 5760)
   || (8192 <=? c) && (c <=? 8202) || (c =? 8232) || (c =? 8233)
   || (c =? 8239) || (c =? 8287) || (c =? 12288) || (c =? 65279))%N.

Fixpoint trimStart (s : jstring) : jstring :=
  match s with
  | c :: rest => if is_space c then trimStart rest else s
  | [] => []
  end.

Definition trim (s : jstring) : jstring := rev (trimStart (rev (trimStart s))).

(** [s.split('\n')]: always at least one piece. *)
Fixpoint split_nl (s : jstring) : list jstring :=
  match s with
  | [] => [[]]
  | c :: rest =>
      if (c =? c_nl)%N then [] :: split_nl rest
      else match split_nl rest with
           | line :: lines => (c :: line) :: lines
           | [] => [[c]]
           end
  end.

(** [pieces.join('\n')]. *)
Fixpoint join_nl (pieces : list jstring) : jstring :=
  match pieces with
  | [] => []
  | [p] => p
  | p :: rest => p ++ c_nl :: join_nl rest
  end.

(** ** The grammar table *)

Inductive TokenName :=
| Whitespace | Comment | CommentChars | CommentChar | keyedEntry | Key
| AlphaNumUChars | AlphaUChar | AlphaNumUChar | String | UnquotedString
| SafeChar | UnquotedStringChars | EmptyString | QuotedString
| QuotedStringChars | QuotedStringChar | SingleQuotedString
| SingleQuotedStringChars | SingleQuotedStringChar
| UnescapedQuotedStringChar | UnescapedSingleQuotedStringChar | EscapedChars.

Definition TokenName_eq_dec (a b : TokenName) : {a = b} + {a <> b}.
Proof. decide equality. Defined.

(** The regular expressions of the table are single character classes. *)
Inductive ClassItem :=
| Ch (c : N)                 (* one character *)
| Range (lo hi : N)          (* lo-hi *)
| Space.                     (* \s *)

Record RegExp := { negated : bool; items : list ClassItem }.

Definition item_matches (c : N) (i : ClassItem) : bool :=
  match i with
  | Ch d => (c =? d)%N
  | Range lo hi => ((lo <=? c) && (c <=? hi))%N
  | Space => is_space c
  end.

Definition class_matches (r : RegExp) (c : N) : bool :=
  xorb (negated r) (existsb (item_matches c) (items r)).

(** [r.test(s)]: the expression is not anchored, it matches when some
    code unit of [s] is in the class; never on the empty string. *)
Definition test (r : RegExp) (s : jstring) : bool := existsb (class_matches r) s.

Definition ClassItem_eq_dec (a b : ClassItem) : {a = b} + {a <> b}.
Proof. decide equality; apply N.eq_dec. Defined.

Definition RegExp_eq_dec (a b : RegExp) : {a = b} + {a <> b}.
Proof. decide equality; [apply (list_eq_dec ClassItem_eq_dec) | apply bool_dec]. Defined.

(** One element of a token array: a literal, a regular expression or a
    reference [{ type, optional, flatten }]. *)
Inductive TokenPart :=
| Lit (s : jstring)
| Re (r : RegExp)
| Ref (type : TokenName) (optional flatten : bool).

Definition TokenPart_eq_dec (a b : TokenPart) : {a = b} + {a <> b}.
Proof.
  decide equality; try apply bool_dec.
  - apply (list_eq_dec N.eq_dec).
  - apply RegExp_eq_dec.
  - apply TokenName_eq_dec.
Defined.

(** What extraction returns: [{ value, token }], each element of [value]
    being a string or a nested token. *)
#[warnings="-register-all"]
Inductive Token := mkToken (value : list (jstring + Token)) (token : option TokenName).

Definition Elem := (jstring + Token)%type.

Definition value (t : Token) : list Elem := let (v, _) := t in v.
Definition token (t : Token) : option TokenName := let (_, n) := t in n.

(** A table entry: an array of parts, [{ $or: [...] }], or
    [{ replacer, token: [...] }]. *)
Inductive TokenDef :=
| Seq (parts : list TokenPart)
| Or (alts : list TokenName)
| Replaced (replacer : list Elem -> list Elem) (parts : list TokenPart).

Definition ch (s : string) : N :=
  match list_ascii_of_string s with a :: _ => N_of_ascii a | [] => 0%N end.

Abbreviation ref type := (Ref type false false).           (* { type } *)
Abbreviation flat type := (Ref type false true).           (* { type, flatten: true } *)
Abbreviation opt type := (Ref type true false).            (* { type, optional: true } *)
Abbreviation opt_flat type := (Ref type true true).        (* { type, optional: true, flatten: true } *)

(** The [replacer] of [EscapedChars]: a [switch] on [val[0]] that
    overwrites it. *)
Definition EscapedChars_replacer (val : list Elem) : list Elem :=
  match val with
  | inl s :: rest =>
      (if jstring_eqb s [c_bsl; c_bsl] then inl [c_bsl]
       else if jstring_eqb s [c_bsl; ch "n"] then inl [c_nl]
       else if jstring_eqb s [c_bsl; ch "t"] then inl [c_tab]
       else if jstring_eqb s [c_bsl; ch "b"] then inl [c_bs]
       else if jstring_eqb s [c_bsl; ch "f"] then inl [c_ff]
       else if jstring_eqb s [c_bsl; ch "r"] then inl [c_cr]
       else if jstring_eqb s [c_bsl; c_dq] then inl [c_dq]
       else inl s) :: rest
  | _ => val
  end.

Definition re_space := {| negated := false; items := [Space] |}.            (* /\s/ *)
Definition re_not_nl := {| negated := true; items := [Ch c_nl] |}.           (* /[^\n]/ *)
Definition re_alphaU :=                                                      (* /[a-zA-Z_]/ *)
  {| negated := false; items := [Range (ch "a") (ch "z"); Range (ch "A") (ch "Z"); Ch (ch "_")] |}.
Definition re_alphaNumU :=                                                   (* /[a-zA-Z0-9_]/ *)
  {| negated := false;
     items := [Range (ch "a") (ch "z"); Range (ch "A") (ch "Z"); Range (ch "0") (ch "9"); Ch (ch "_")] |}.
Definition re_safe := {| negated := true; items := [Ch c_nl; Ch c_dq; Ch c_sq] |}.   (* newline, both quotes excluded *)
Definition re_unquoted := {| negated := true; items := [Ch c_bsl; Ch c_nl] |}.       (* /[^\\\n]/ *)
Definition re_unescaped_dq := {| negated := true; items := [Ch c_bsl; Ch c_dq] |}.   (* backslash, double quote excluded *)
Definition re_unescaped_sq := {| negated := true; items := [Ch c_sq] |}.             (* apostrophe excluded *)
Definition re_escape :=                                                      (* n t b f r, double quote, backslash *)
  {| negated := false;
     items := [Ch (ch "n"); Ch (ch "t"); Ch (ch "b"); Ch (ch "f"); Ch (ch "r"); Ch c_dq; Ch c_bsl] |}.

Definition TOKENS (name : TokenName) : TokenDef :=
  match name with
  | Whitespace => Seq [Re re_space; opt_flat Whitespace]
  | Comment => Seq [Lit [c_hash]; opt CommentChars]
  | CommentChars => Seq [flat CommentChar; opt_flat CommentChars]
  | CommentChar => Seq [Re re_not_nl]
  | keyedEntry => Seq [ref Key; Lit [c_eq]; opt String]
  | Key => Seq [flat AlphaUChar; opt_flat AlphaNumUChars]
  | AlphaNumUChars => Seq [flat AlphaNumUChar; opt_flat AlphaNumUChars]
  | AlphaUChar => Seq [Re re_alphaU]
  | AlphaNumUChar => Seq [Re re_alphaNumU]
  | String => Or [UnquotedString; EmptyString; QuotedString; SingleQuotedString]
  | UnquotedString => Seq [flat SafeChar; opt_flat UnquotedStringChars]
  | SafeChar => Seq [Re re_safe]
  | UnquotedStringChars => Seq [Re re_unquoted; opt_flat UnquotedStringChars]
  | EmptyString => Seq [Lit [c_dq; c_dq]]
  | QuotedString => Seq [Lit [c_dq]; opt QuotedStringChars; Lit [c_dq]]
  | QuotedStringChars => Seq [flat QuotedStringChar; opt_flat QuotedStringChars]
  | QuotedStringChar => Or [UnescapedQuotedStringChar; EscapedChars]
  | SingleQuotedString => Seq [Lit [c_sq]; opt SingleQuotedStringChars; Lit [c_sq]]
  | SingleQuotedStringChars => Seq [flat SingleQuotedStringChar; opt_flat SingleQuotedStringChars]
  | SingleQuotedStringChar => Or [UnescapedSingleQuotedStringChar]
  | UnescapedQuotedStringChar => Seq [Re re_unescaped_dq]
  | UnescapedSingleQuotedStringChar => Seq [Re re_unescaped_sq]
  | EscapedChars => Replaced EscapedChars_replacer [Lit [c_bsl]; Re re_escape]
  end.

(** The keys of [TOKENS] in declaration order ([Object.entries]). *)
Definition token_names : list TokenName :=
  [Whitespace; Comment; CommentChars; CommentChar; keyedEntry; Key;
   AlphaNumUChars; AlphaUChar; AlphaNumUChar; String; UnquotedString;
   SafeChar; UnquotedStringChars; EmptyString; QuotedString;
   QuotedStringChars; QuotedStringChar; SingleQuotedString;
   SingleQuotedStringChars; SingleQuotedStringChar;
   UnescapedQuotedStringChar; UnescapedSingleQuotedStringChar; EscapedChars].

Definition MAIN_TOKENS : list TokenDef :=
  [TOKENS Whitespace; TOKENS Comment; TOKENS keyedEntry].

(** [getTokenName] looks the table up by object identity.  [extract] only
    calls it with an array (for [{ replacer, token }] with the inner array,
    which is no entry of the table, whence [null]); no two arrays of the
    table have the same contents, so identity is equality of contents. *)
Definition getTokenName (token : list TokenPart) : option TokenName :=
  find (fun key =>
          match TOKENS key with
          | Seq val => if list_eq_dec TokenPart_eq_dec val token then true else false
          | _ => false
          end) token_names.

Arguments getTokenName : simpl never.

(** ** The rule interpreter *)

Record State := mkState { source : jstring; index : nat }.

(** The loop that coalesces consecutive strings of [extractedValue]. *)
Definition push_sanitized (sanitized : list Elem) (val : Elem) : list Elem :=
  match val, last (map Some sanitized) None with
  | inl s, Some (inl prev) => removelast sanitized ++ [inl (prev ++ s)]
  | _, _ => sanitized ++ [val]
  end.

Definition sanitize (extractedValue : list Elem) : list Elem :=
  fold_left push_sanitized extractedValue [].

Section ExtractBody.

(** The recursive call; [None] is an exhausted recursion budget. *)
Variable extract : TokenDef -> State -> option (option Token * State).

(** The [for (const orToken of token.$or)] loop, on the caller's state. *)
Fixpoint extract_or (alts : list TokenName) (state : State)
  : option (option Token * State) :=
  match alts with
  | [] => Some (None, state)
  | orToken :: rest =>
      match extract (TOKENS orToken) state with
      | None => None
      | Some (Some val, state') => Some (Some val, state')
      | Some (None, state') => extract_or rest state'
      end
  end.

(** The [for (const tokenPart of token)] loop: [Some None] is
    [return null], [Some (Some (currentIndex, extractedValue))] is the
    loop left normally or by [break]. *)
Fixpoint extract_parts (parts : list TokenPart) (source : jstring)
    (currentIndex : nat) (extractedValue : list Elem)
  : option (option (nat * list Elem)) :=
  match parts with
  | [] => Some (Some (currentIndex, extractedValue))
  | Lit tokenPart :: rest =>
      let currentToken := substr source currentIndex (length tokenPart) in
      if jstring_eqb tokenPart currentToken
      then extract_parts rest source (currentIndex + length currentToken)
             (extractedValue ++ [inl currentToken])
      else Some None
  | Re tokenPart :: rest =>
      let char := charAt source currentIndex in
      if test tokenPart char
      then extract_parts rest source (currentIndex + 1) (extractedValue ++ [inl char])
      else Some None
  | Ref type optional flatten :: rest =>
      let subState := mkState source currentIndex in
      match extract (TOKENS type) subState with
      | None => None
      | Some (None, _) =>
          if optional then Some (Some (currentIndex, extractedValue)) else Some None
      | Some (Some val, subState) =>
          extract_parts rest source (index subState)
            (if flatten then extractedValue ++ value val
             else extractedValue ++ [inr val])
      end
  end.

End ExtractBody.

Fixpoint extract (fuel : nat) (token : TokenDef) (state : State)
  : option (option Token * State) :=
  match fuel with
  | O => None
  | S fuel =>
      match token with
      | Or alts => extract_or (extract fuel) alts state
      | Seq parts | Replaced _ parts =>
          let replacer := match token with Replaced r _ => Some r | _ => None end in
          match extract_parts (extract fuel) parts (source state) (index state) [] with
          | None => None
          | Some None => Some (None, state)
          | Some (Some (currentIndex, extractedValue)) =>
              let state := mkState (source state) currentIndex in
              let sanitizedExtractedValue := sanitize extractedValue in
              let sanitizedExtractedValue :=
                match replacer with
                | Some r => r sanitizedExtractedValue
                | None => sanitizedExtractedValue
                end in
              Some (Some (mkToken sanitizedExtractedValue (getTokenName parts)), state)
          end
      end
  end.

(** ** The lexer *)

Inductive Exn :=
| Error (message : jstring)     (* [throw new Error(message)] *)
| TypeError.                    (* a property read on [undefined], a call of a non-function *)

Fixpoint uint_digits (d : Decimal.uint) : jstring :=
  match d with
  | Decimal.Nil => []
  | Decimal.D0 d => 48%N :: uint_digits d
  | Decimal.D1 d => 49%N :: uint_digits d
  | Decimal.D2 d => 50%N :: uint_digits d
  | Decimal.D3 d => 51%N :: uint_digits d
  | Decimal.D4 d => 52%N :: uint_digits d
  | Decimal.D5 d => 53%N :: uint_digits d
  | Decimal.D6 d => 54%N :: uint_digits d
  | Decimal.D7 d => 55%N :: uint_digits d
  | Decimal.D8 d => 56%N :: uint_digits d
  | Decimal.D9 d => 57%N :: uint_digits d
  end.

(** A number inside a template string. *)
Definition number_toString (n : nat) : jstring := uint_digits (Nat.to_uint n).

(** [source.substr(index, 25).split('\n')[0]] *)
Definition line_preview (source : jstring) (index : nat) : jstring :=
  hd [] (split_nl (substr source index 25)).

Definition unexpected_token (source : jstring) (lastIndex index : nat) : jstring :=
  js "Unexpected token " ++ charAt source lastIndex ++ js ", at char "
    ++ number_toString lastIndex ++ js " (line: " ++ line_preview source index ++ js ")".

(** The [for (const token of MAIN_TOKENS)] loop of one iteration: the
    tokens it yields, in order, and the state it leaves. *)
Fixpoint lex_tokens (fuel : nat) (tokens : list TokenDef) (state : State)
  : option (list Token * State) :=
  match tokens with
  | [] => Some ([], state)
  | token :: rest =>
      match extract fuel token state with
      | None => None
      | Some (None, state) => lex_tokens fuel rest state
      | Some (Some val, state) =>
          match lex_tokens fuel rest state with
          | None => None
          | Some (vals, state) => Some (val :: vals, state)
          end
      end
  end.

(** The generator [lex] run to completion: the tokens it yields and how it
    ends, normally ([None]) or by throwing.  [iterations] bounds the
    [while] loop and [fuel] the recursion of [extract]. *)
Fixpoint lex_loop (iterations fuel : nat) (state : State)
  : option (list Token * option Exn) :=
  if index state <? length (source state) then
    match iterations with
    | O => None
    | S iterations =>
        let lastIndex := index state in
        match lex_tokens fuel MAIN_TOKENS state with
        | None => None
        | Some (vals, state) =>
            if lastIndex =? index state
            then Some (vals, Some (Error (unexpected_token (source state) lastIndex (index state))))
            else match lex_loop iterations fuel state with
                 | None => None
                 | Some (more, completion) => Some (vals ++ more, completion)
                 end
        end
    end
  else Some ([], None).

(** Every iteration that does not throw consumes a character and the
    recursion of [extract] is no deeper than the input is long plus the
    depth of the table. *)
Definition extract_fuel (source : jstring) : nat := length source + 8.

Definition lex (source : jstring) : option (list Token * option Exn) :=
  lex_loop (length source) (extract_fuel source) (mkState source 0).

(** ** The assembler *)

(** The values the expressions of [parse] and [parseString] range over. *)
Inductive JSValue :=
| undefined
| JSString (s : jstring)
| JSObject (t : Token).

(** [value[i]] *)
Definition elem_at (value : list Elem) (i : nat) : JSValue :=
  match nth_error value i with
  | None => undefined
  | Some (inl s) => JSString s
  | Some (inr t) => JSObject t
  end.

(** [v.value[0]]: [v.value] is [undefined] on a string and reading a
    property of [undefined] throws. *)
Definition value_0 (v : JSValue) : Exn + JSValue :=
  match v with
  | JSObject t => inr (elem_at (value t) 0)
  | _ => inl TypeError
  end.

(** [v.trim()] *)
Definition js_trim (v : JSValue) : Exn + jstring :=
  match v with
  | JSString s => inr (trim s)
  | _ => inl TypeError
  end.

(** A value used as a property key. *)
Definition toPropertyKey (v : JSValue) : jstring :=
  match v with
  | undefined => js "undefined"
  | JSString s => s
  | JSObject _ => js "[object Object]"
  end.

Definition parseString (val : JSValue) : Exn + JSValue :=
  match val with
  | JSObject t =>
      match token t with
      | Some UnquotedString => inr (elem_at (value t) 0)
      | _ =>
          if negb (length (value t) =? 3) then inr (JSString [])
          else value_0 (elem_at (value t) 1)
      end
  | _ => inl TypeError            (* [val.value.length] on a string or [undefined] *)
  end.

(** An entry of the result: a plain string or [{ description, value }]. *)
Inductive Entry :=
| Plain (val : jstring)
| Described (description : option jstring) (val : jstring).

(** The own enumerable properties of the result object, in the order
    [Object.entries] lists them.  [parse] never writes an array-index key,
    so that is the order of first assignment. *)
Definition DotEnvObj := list (jstring * Entry).

Fixpoint obj_assign (map : DotEnvObj) (key : jstring) (val : Entry) : DotEnvObj :=
  match map with
  | [] => [(key, val)]
  | (k, v) :: rest =>
      if jstring_eqb k key then (k, val) :: rest
      else (k, v) :: obj_assign rest key val
  end.

(** [map[key] = val] on an object created by [{}]: the key [__proto__] is
    the inherited accessor of [Object.prototype], the assignment creates no
    own property. *)
Definition obj_set (map : DotEnvObj) (key : jstring) (val : Entry) : DotEnvObj :=
  if jstring_eqb key (js "__proto__") then map else obj_assign map key val.

(** How [parse] ends: it returns the object, it throws, or the value it
    would store is not a string, which the return type [DotEnvObj] of the
    source excludes ([parse_well_typed] shows it does not happen). *)
Inductive Outcome :=
| Return (map : DotEnvObj)
| Throw (e : Exn)
| NotAString.

Definition truthy (s : jstring) : bool := negb (length s =? 0).

(** The body of [for (const entry of lex(source))], folded over the tokens
    in the order [lex] yields them. *)
Fixpoint assemble (extractDescriptions : bool) (entries : list Token)
    (lastDescription : jstring) (map : DotEnvObj) : Outcome :=
  match entries with
  | [] => Return map
  | entry :: rest =>
      match token entry with
      | Some Comment =>
          let lastDescription :=
            if truthy lastDescription then lastDescription ++ [c_nl] else lastDescription in
          match value_0 (elem_at (value entry) 1) with
          | inl e => Throw e
          | inr v =>
              match js_trim v with
              | inl e => Throw e
              | inr line => assemble extractDescriptions rest (lastDescription ++ line) map
              end
          end
      | Some keyedEntry =>
          match value_0 (elem_at (value entry) 0) with
          | inl e => Throw e
          | inr key =>
              let val :=
                match elem_at (value entry) 2 with
                | undefined => inr (JSString [])
                | v => parseString v
                end in
              match val with
              | inl e => Throw e
              | inr (JSString val) =>
                  let map :=
                    if extractDescriptions
                    then obj_set map (toPropertyKey key)
                           (Described (if truthy lastDescription then Some lastDescription else None) val)
                    else obj_set map (toPropertyKey key) (Plain val) in
                  assemble extractDescriptions rest [] map
              | inr _ => NotAString
              end
          end
      | _ => assemble extractDescriptions rest lastDescription map
      end
  end.

(** [parse]: the loop body runs on each token before the generator is
    resumed, so an exception of the body comes before a later one of the
    lexer. *)
Definition parse (source : jstring) (extractDescriptions : bool) : option Outcome :=
  match lex source with
  | None => None
  | Some (entries, completion) =>
      Some (match assemble extractDescriptions entries [] [] with
            | Return map =>
                match completion with
                | Some e => Throw e
                | None => Return map
                end
            | ended => ended
            end)
  end.

(** ** The serializer *)

Definition hex_digit (n : N) : N := (if n <? 10 then 48 + n else 87 + n)%N.

(** [\uXXXX], four lower-case hexadecimal digits. *)
Definition unicode_escape (c : N) : jstring :=
  [c_bsl; ch "u"; hex_digit ((c / 4096) mod 16); hex_digit ((c / 256) mod 16);
   hex_digit ((c / 16) mod 16); hex_digit (c mod 16)]%N.

Definition is_lead (c : N) : bool := ((55296 <=? c) && (c <=? 56319))%N.
Definition is_trail (c : N) : bool := ((56320 <=? c) && (c <=? 57343))%N.

(** One code unit that is not part of a surrogate pair, as
    [QuoteJSONString] of ECMA-262 writes it. *)
Definition quote_unit (c : N) : jstring :=
  if (c =? c_bs)%N then [c_bsl; ch "b"]
  else if (c =? c_tab)%N then [c_bsl; ch "t"]
  else if (c =? c_nl)%N then [c_bsl; ch "n"]
  else if (c =? c_ff)%N then [c_bsl; ch "f"]
  else if (c =? c_cr)%N then [c_bsl; ch "r"]
  else if (c =? c_dq)%N then [c_bsl; c_dq]
  else if (c =? c_bsl)%N then [c_bsl; c_bsl]
  else if (c <? 32)%N || is_lead c || is_trail c then unicode_escape c
  else [c].

(** The code points of the string in turn: a lead surrogate followed by a
    trail surrogate is one code point and is copied. *)
Fixpoint quote_body (s : jstring) : jstring :=
  match s with
  | [] => []
  | c :: rest =>
      if is_lead c then
        match rest with
        | d :: rest' =>
            if is_trail d then c :: d :: quote_body rest'
            else quote_unit c ++ quote_body rest
        | [] => quote_unit c
        end
      else quote_unit c ++ quote_body rest
  end.

(** [JSON.stringify] of a string. *)
Definition JSON_stringify (val : jstring) : jstring :=
  c_dq :: quote_body val ++ [c_dq].

Definition serializeString (val : jstring) : jstring :=
  if includes val c_nl && negb (includes val c_sq)
  then c_sq :: val ++ [c_sq]
  else JSON_stringify val.

Definition serialize_entry (kv : jstring * Entry) : jstring :=
  let (key, entry) := kv in
  let description := match entry with Described d _ => d | Plain _ => None end in
  let value := match entry with Described _ v => v | Plain v => v end in
  let serializedEntry :=
    match description with
    | Some description =>
        if truthy description
        then concat (map (fun line => js "# " ++ line ++ [c_nl]) (split_nl description))
        else []
    | None => []
    end in
  serializedEntry ++ key ++ [c_eq] ++ serializeString value.

Definition serialize (obj : DotEnvObj) : jstring :=
  join_nl (map serialize_entry obj).

(** ** The vocabulary of the statements *)

(** What [extract] does once the loop over the parts is over. *)
Definition finish (replacer : option (list Elem -> list Elem)) (parts : list TokenPart)
    (state : State) (r : option (option (nat * list Elem)))
  : option (option Token * State) :=
  match r with
  | None => None
  | Some None => Some (None, state)
  | Some (Some (currentIndex, extractedValue)) =>
      Some (Some (mkToken
                    (match replacer with
                     | Some f => f (sanitize extractedValue)
                     | None => sanitize extractedValue
                     end)
                    (getTokenName parts)),
            mkState (source state) currentIndex)
  end.

(** One step of a rule on the text at the cursor: the string it
    contributes and the number of code units it consumes. *)
Definition Item := jstring -> option (jstring * nat).

Definition char_item (p : N -> bool) : Item :=
  fun l => match l with
           | c :: _ => if p c then Some ([c], 1) else None
           | [] => None
           end.

(** The character an escape letter stands for. *)
Definition unescape (e : N) : N :=
  if (e =? ch "n")%N then c_nl
  else if (e =? ch "t")%N then c_tab
  else if (e =? ch "b")%N then c_bs
  else if (e =? ch "f")%N then c_ff
  else if (e =? ch "r")%N then c_cr
  else e.

(** One [QuotedStringChar]: a character other than backslash and double
    quote, or a backslash and an escape letter. *)
Definition dq_item : Item :=
  fun l => match l with
           | c :: rest =>
               if class_matches re_unescaped_dq c then Some ([c], 1)
               else if (c =? c_bsl)%N then
                 match rest with
                 | e :: _ => if class_matches re_escape e then Some ([unescape e], 2) else None
                 | [] => None
                 end
               else None
           | [] => None
           end.

(** A maximal run of items: the concatenated contributions and the total
    length consumed. *)
Inductive runs (it : Item) : jstring -> jstring -> nat -> Prop :=
| runs_last l s k :
    it l = Some (s, k) -> it (skipn k l) = None -> runs it l s k
| runs_more l s k s' k' :
    it l = Some (s, k) -> runs it (skipn k l) s' k' -> runs it l (s ++ s') (k + k').

(** A first item followed by an optional run of other items. *)
Inductive head_runs (it1 it2 : Item) (l : jstring) : jstring -> nat -> Prop :=
| head_alone s k :
    it1 l = Some (s, k) -> it2 (skipn k l) = None -> head_runs it1 it2 l s k
| head_more s k s' k' :
    it1 l = Some (s, k) -> runs it2 (skipn k l) s' k' ->
    head_runs it1 it2 l (s ++ s') (k + k').

(** A part of a token array behaves as an item, given a budget of [c]. *)
Definition implements (first : TokenPart) (it : Item) (c : nat) : Prop :=
  forall f rest src i acc, c <= f ->
    extract_parts (extract f) (first :: rest) src i acc
    = match it (skipn i src) with
      | None => Some None
      | Some (s, k) => extract_parts (extract f) rest src (i + k) (acc ++ [inl s])
      end.

(** A rule fails where its first item does, and otherwise returns the run
    of its items as one string, given a budget of [c] and the length of the
    run. *)
Definition rule_fails (X : TokenName) (it : Item) (c : nat) : Prop :=
  forall f src i, it (skipn i src) = None -> c <= f ->
    extract f (TOKENS X) (mkState src i) = Some (None, mkState src i).

Definition rule_runs (X : TokenName) (it : Item) (c : nat) : Prop :=
  forall f src i s k, runs it (skipn i src) s k -> k + c <= f ->
    extract f (TOKENS X) (mkState src i)
    = Some (Some (mkToken [inl s] (Some X)), mkState src (i + k)).

(** An item consumes at least one code unit, and no more than there are. *)
Definition positive (it : Item) : Prop :=
  forall l s k, it l = Some (s, k) -> 1 <= k <= length l.

(** The items of the character classes of the table. *)
Definition it_space : Item := char_item (class_matches re_space).

Definition it_not_nl : Item := char_item (class_matches re_not_nl).

Definition it_alphaU : Item := char_item (class_matches re_alphaU).

Definition it_alphaNumU : Item := char_item (class_matches re_alphaNumU).

Definition it_safe : Item := char_item (class_matches re_safe).

Definition it_unquoted : Item := char_item (class_matches re_unquoted).

Definition it_sq : Item := char_item (class_matches re_unescaped_sq).

Definition it_lit (q : N) : Item := char_item (N.eqb q).

(** The text at the cursor starts with the character [q]. *)
Definition starts_with (q : N) (l : jstring) : bool :=
  match l with
  | c :: _ => (q =? c)%N
  | [] => false
  end.

(** A key: [[A-Za-z_][A-Za-z0-9_]*]. *)
Definition valid_key (K : jstring) : bool :=
  match K with
  | c :: r => class_matches re_alphaU c && forallb (class_matches re_alphaNumU) r
  | [] => false
  end.

(** The captures the [String] alternation can return. *)
Inductive String_token : Token -> Prop :=
| unquoted_token s :
    String_token (mkToken [inl s] (Some UnquotedString))
| empty_token :
    String_token (mkToken [inl [c_dq; c_dq]] (Some EmptyString))
| open_quoted_token :
    String_token (mkToken [inl [c_dq]] (Some QuotedString))
| quoted_token s :
    String_token (mkToken [inl [c_dq]; inr (mkToken [inl s] (Some QuotedStringChars)); inl [c_dq]]
                    (Some QuotedString))
| open_single_quoted_token :
    String_token (mkToken [inl [c_sq]] (Some SingleQuotedString))
| single_quoted_token s :
    String_token (mkToken [inl [c_sq]; inr (mkToken [inl s] (Some SingleQuotedStringChars)); inl [c_sq]]
                    (Some SingleQuotedString)).

(** The tokens the lexer can yield. *)
Inductive lexed_token : Token -> Prop :=
| whitespace_token s :
    lexed_token (mkToken [inl s] (Some Whitespace))
| bare_comment_token :
    lexed_token (mkToken [inl [c_hash]] (Some Comment))
| comment_token s :
    lexed_token (mkToken [inl [c_hash]; inr (mkToken [inl s] (Some CommentChars))] (Some Comment))
| key_token K :
    valid_key K = true ->
    lexed_token (mkToken [inr (mkToken [inl K] (Some Key)); inl [c_eq]] (Some keyedEntry))
| entry_token K val :
    valid_key K = true -> String_token val ->
    lexed_token (mkToken [inr (mkToken [inl K] (Some Key)); inl [c_eq]; inr val] (Some keyedEntry)).

(** A top-level rule, given the budget, returns, and what it returns is a
    token the assembler knows. *)
Definition top_level (tok : TokenDef) : Prop :=
  forall f src i, length src - i + 6 <= f ->
    exists r, extract f tok (mkState src i) = Some r
              /\ forall t, fst r = Some t -> lexed_token t.

(** A run that may be empty. *)
Definition runs0 (it : Item) (l s : jstring) (k : nat) : Prop :=
  (s = [] /\ k = 0 /\ it l = None) \/ runs it l s k.

(** The strings [JSON.stringify] writes with escapes [EscapedChars] reads:
    no unpaired surrogate, and below U+0020 only backspace, tab, newline,
    form feed and carriage return. *)
Definition json_unit_safe (c : N) : bool :=
  negb (is_lead c) && negb (is_trail c)
  && ((32 <=? c) || (c =? c_bs) || (c =? c_tab) || (c =? c_nl) || (c =? c_ff) || (c =? c_cr))%N.

Fixpoint json_safe (s : jstring) : bool :=
  match s with
  | [] => true
  | c :: rest =>
      if is_lead c then
        match rest with
        | d :: rest' => is_trail d && json_safe rest'
        | [] => false
        end
      else json_unit_safe c && json_safe rest
  end.

(** The values that survive [serialize] then [parse]. *)
Definition roundtrips (V : jstring) : bool :=
  includes V c_nl && negb (includes V c_sq) || json_safe V.

(** [String], at the text [Q] followed by [rest], consumes [Q] and the
    decoder returns [V]. *)
Definition string_reads (Q rest V : jstring) : Prop :=
  forall f src i, skipn i src = Q ++ rest -> length src - i + 5 <= f ->
    exists t, extract f (TOKENS String) (mkState src i)
              = Some (Some t, mkState src (i + length Q))
              /\ parseString (JSObject t) = inr (JSString V).

(** The tokens of a source made of entries without descriptions. *)
Inductive reads : list Token -> DotEnvObj -> Prop :=
| reads_nil : reads [] []
| reads_whitespace s toks doc :
    reads toks doc -> reads (mkToken [inl s] (Some Whitespace) :: toks) doc
| reads_entry K V t toks doc :
    parseString (JSObject t) = inr (JSString V) -> reads toks doc ->
    reads (mkToken [inr (mkToken [inl K] (Some Key)); inl [c_eq]; inr t] (Some keyedEntry) :: toks)
          ((K, Plain V) :: doc).

(** What the assembler stores for a key and a value. *)
Definition assign (extractDescriptions : bool) (map : DotEnvObj) (kv : jstring * Entry) : DotEnvObj :=
  obj_set map (fst kv)
    (if extractDescriptions
     then Described None (match snd kv with Plain v | Described _ v => v end)
     else snd kv).

(** An entry without description whose key and value can be read back. *)
Definition plain_entry (kv : jstring * Entry) : Prop :=
  valid_key (fst kv) = true /\ exists V, snd kv = Plain V /\ roundtrips V = true.

(** The entries after the first, each behind the newline [join] puts in. *)
Definition following (doc : DotEnvObj) : jstring :=
  concat (map (fun kv => c_nl :: serialize_entry kv) doc).

(** The one key an assignment on an object literal does not create. *)
Definition proto : jstring := js "__proto__".

(** What [parse] returns without descriptions: distinct keys, each a key
    of the grammar and none of them [__proto__], and plain values. *)
Definition parsed_entry (kv : jstring * Entry) : Prop :=
  valid_key (fst kv) = true /\ fst kv <> proto /\ exists V, snd kv = Plain V.

Definition parsed_doc (m : DotEnvObj) : Prop :=
  NoDup (map fst m) /\ Forall parsed_entry m.

(** The C0 controls: the code units below U+0020. *)
Definition is_control (c : N) : bool := (c <? 32)%N.

(** No surrogate code unit outside a lead-trail pair. *)
Fixpoint no_lone_surrogate (s : jstring) : bool :=
  match s with
  | [] => true
  | c :: rest =>
      if is_lead c then
        match rest with
        | d :: rest' => is_trail d && no_lone_surrogate rest'
        | [] => false
        end
      else negb (is_trail c) && no_lone_surrogate rest
  end.

(** [typeof entry === 'object' ? entry.value : entry] *)
Definition entry_value (e : Entry) : jstring :=
  match e with Plain v | Described _ v => v end.

(** Every backslash starts a two-character escape, and outside escapes
    there is no double quote and no character below U+0020. *)
Fixpoint well_escaped (l : jstring) : bool :=
  match l with
  | [] => true
  | c :: rest =>
      if (c =? c_bsl)%N then
        match rest with
        | _ :: rest' => well_escaped rest'
        | [] => false
        end
      else negb (c =? c_dq)%N && negb (c <? 32)%N && well_escaped rest
  end.

(** The value of a hexadecimal digit. *)
Definition hex_value (h : N) : option N :=
  (if (48 <=? h) && (h <=? 57) then Some (h - 48)
   else if (97 <=? h) && (h <=? 102) then Some (h - 87)
   else if (65 <=? h) && (h <=? 70) then Some (h - 55)
   else None)%N.

(** The character a two-character escape of a JSON string stands for. *)
Definition json_escape (e : N) : option N :=
  if (e =? c_dq)%N then Some c_dq
  else if (e =? c_bsl)%N then Some c_bsl
  else if (e =? ch "/")%N then Some (ch "/")
  else if (e =? ch "b")%N then Some c_bs
  else if (e =? ch "f")%N then Some c_ff
  else if (e =? ch "n")%N then Some c_nl
  else if (e =? ch "r")%N then Some c_cr
  else if (e =? ch "t")%N then Some c_tab
  else None.

(** The string that the text between the quotes of a JSON string literal
    stands for (ECMA-404, as [JSON.parse] reads it): a backslash starts a
    two-character escape or [\uXXXX], a double quote or a character below
    U+0020 outside an escape is an error, any other character stands for
    itself. *)
Fixpoint json_unquote (l : jstring) : option jstring :=
  match l with
  | [] => Some []
  | c :: rest =>
      if (c =? c_bsl)%N then
        match rest with
        | e :: rest' =>
            if (e =? ch "u")%N then
              match rest' with
              | h1 :: h2 :: h3 :: h4 :: rest'' =>
                  match hex_value h1, hex_value h2, hex_value h3, hex_value h4 with
                  | Some d1, Some d2, Some d3, Some d4 =>
                      option_map (cons (((d1 * 16 + d2) * 16 + d3) * 16 + d4)%N)
                                 (json_unquote rest'')
                  | _, _, _, _ => None
                  end
              | _ => None
              end
            else
              match json_escape e with
              | Some x => option_map (cons x) (json_unquote rest')
              | None => None
              end
        | [] => None
        end
      else if (c =? c_dq)%N || (c <? 32)%N then None
      else option_map (cons c) (json_unquote rest)
  end.

(** A character [JSON.stringify] copies: not a double quote, a backslash,
    a character below U+0020 or a surrogate. *)
Definition plain_unit (c : N) : bool :=
  (32 <=? c)%N && negb (c =? c_dq)%N && negb (c =? c_bsl)%N
  && negb (is_lead c) && negb (is_trail c).

(** The path condition of [return ''] in [parseString]: the token is not
    [UnquotedString] and its [value] does not have three elements. *)
Definition takes_fallback (val : JSValue) : bool :=
  match val with
  | JSObject t =>
      match token t with
      | Some UnquotedString => false
      | _ => negb (length (value t) =? 3)
      end
  | _ => false
  end.

(** Some entry of the source reaches that branch. *)
Definition fallback_taken (source : jstring) : bool :=
  match lex source with
  | Some (entries, _) =>
      existsb (fun entry =>
                 match token entry with
                 | Some keyedEntry =>
                     match elem_at (value entry) 2 with
                     | undefined => false
                     | v => takes_fallback v
                     end
                 | _ => false
                 end) entries
  | None => false
  end.

(** The escape letters and the characters they stand for. *)
Definition escape_table : list (N * N) :=
  [(c_bsl, c_bsl); (ch "n", c_nl); (ch "t", c_tab); (ch "b", c_bs);
   (ch "f", c_ff); (ch "r", c_cr); (c_dq, c_dq)].

(** *** Lines, lookups and descriptions *)

(** The name [getTokenName] finds for the token a rule returns: the rule's
    own key for an array, the key of the alternative that matched for
    [$or], and [null] for [EscapedChars], whose array is no entry of the
    table. *)
Definition names_of (X : TokenName) : list (option TokenName) :=
  match X with
  | String => [Some UnquotedString; Some EmptyString; Some QuotedString; Some SingleQuotedString]
  | QuotedStringChar => [Some UnescapedQuotedStringChar; None]
  | SingleQuotedStringChar => [Some UnescapedSingleQuotedStringChar]
  | EscapedChars => [None]
  | _ => [Some X]
  end.

(** The ways the grammar lets a value be written after [=]. *)
Inductive written : jstring -> jstring -> Prop :=
| written_absent : written [] []
| written_unquoted c r :
    class_matches re_safe c = true -> forallb (class_matches re_unquoted) r = true ->
    written (c :: r) (c :: r)
| written_empty : written [c_dq; c_dq] []
| written_double V :
    V <> [] -> json_safe V = true -> written (c_dq :: quote_body V ++ [c_dq]) V
| written_single V :
    V <> [] -> includes V c_sq = false -> written (c_sq :: V ++ [c_sq]) V.

(** A line of a source: a comment [#text] or an entry [K=Q] whose value is
    [V]. *)
Inductive Line :=
| CommentLine (text : jstring)
| EntryLine (K Q V : jstring).

Definition line_text (l : Line) : jstring :=
  match l with
  | CommentLine text => c_hash :: text
  | EntryLine K Q _ => K ++ c_eq :: Q
  end.

Definition well_formed_line (l : Line) : Prop :=
  match l with
  | CommentLine text => text <> [] /\ includes text c_nl = false
  | EntryLine K Q V => valid_key K = true /\ written Q V
  end.

(** What the body of the loop of [parse] does with a line: the pending
    description and the object before and after. *)
Definition assemble_line (extractDescriptions : bool) (acc : jstring * DotEnvObj) (l : Line)
  : jstring * DotEnvObj :=
  let (lastDescription, map) := acc in
  match l with
  | CommentLine text =>
      ((if truthy lastDescription then lastDescription ++ [c_nl] else lastDescription)
         ++ trim text, map)
  | EntryLine K _ V =>
      ([], obj_set map K
             (if extractDescriptions
              then Described (if truthy lastDescription then Some lastDescription else None) V
              else Plain V))
  end.

(** What follows a line: nothing, or a newline. *)
Definition line_rest (rest : jstring) : Prop := rest = [] \/ exists r, rest = c_nl :: r.

(** The tokens of a list of lines. *)
Inductive lexes : list Token -> list Line -> Prop :=
| lexes_nil : lexes [] []
| lexes_whitespace s toks lines :
    lexes toks lines -> lexes (mkToken [inl s] (Some Whitespace) :: toks) lines
| lexes_comment text toks lines :
    lexes toks lines ->
    lexes (mkToken [inl [c_hash]; inr (mkToken [inl text] (Some CommentChars))] (Some Comment)
             :: toks)
          (CommentLine text :: lines)
| lexes_key K Q toks lines :
    lexes toks lines ->
    lexes (mkToken [inr (mkToken [inl K] (Some Key)); inl [c_eq]] (Some keyedEntry) :: toks)
          (EntryLine K Q [] :: lines)
| lexes_entry K Q V t toks lines :
    parseString (JSObject t) = inr (JSString V) -> lexes toks lines ->
    lexes (mkToken [inr (mkToken [inl K] (Some Key)); inl [c_eq]; inr t] (Some keyedEntry) :: toks)
          (EntryLine K Q V :: lines).

Definition following_lines (lines : list Line) : jstring :=
  concat (map (fun l => c_nl :: line_text l) lines).

(** [map[key]], for an own property. *)
Fixpoint lookup (map : DotEnvObj) (key : jstring) : option Entry :=
  match map with
  | [] => None
  | (k, v) :: rest => if jstring_eqb k key then Some v else lookup rest key
  end.

(** The value of the last entry line with the key. *)
Fixpoint last_value (lines : list Line) (key : jstring) : option jstring :=
  match lines with
  | [] => None
  | EntryLine K _ V :: rest =>
      match last_value rest key with
      | Some v => Some v
      | None => if jstring_eqb K key then Some V else None
      end
  | CommentLine _ :: rest => last_value rest key
  end.

Definition description (e : Entry) : option jstring :=
  match e with
  | Plain _ => None
  | Described d _ => d
  end.

(** The lines [serialize] writes for the description of an entry. *)
Definition description_lines (e : Entry) : list jstring :=
  match description e with
  | Some d => if truthy d then split_nl d else []
  | None => []
  end.

(** The lines [serialize] writes for an entry. *)
Definition lines_of (kv : jstring * Entry) : list Line :=
  map (fun line => CommentLine (32%N :: line)) (description_lines (snd kv))
  ++ [EntryLine (fst kv) (serializeString (entry_value (snd kv))) (entry_value (snd kv))].

(** The entry [parse] returns for an entry written by [serialize]: with
    descriptions an object whose description is [null] unless it was a
    non-empty string, without them the value alone. *)
Definition read_back (extractDescriptions : bool) (e : Entry) : Entry :=
  if extractDescriptions
  then Described (match description e with
                  | Some d => if truthy d then Some d else None
                  | None => None
                  end) (entry_value e)
  else Plain (entry_value e).

(** A description the comment lines give back: no line starts or ends
    with white space, and the first line is not empty. *)
Definition clean_description (d : jstring) : Prop :=
  hd [] (split_nl d) <> [] /\ Forall (fun line => trim line = line) (split_nl d).

(** The pending description after comment lines [# line]. *)
Definition accumulate (lastDescription : jstring) (lines : list jstring) : jstring :=
  fold_left (fun d line => (if truthy d then d ++ [c_nl] else d) ++ trim (32%N :: line))
            lines lastDescription.

(** The entries [serialize] can write and [parse] reads back: keys of the
    grammar, distinct and other than [__proto__], values that survive, and
    when descriptions are extracted descriptions the comment lines give
    back. *)
Definition readable (extractDescriptions : bool) (kv : jstring * Entry) : Prop :=
  valid_key (fst kv) = true /\ fst kv <> proto
  /\ roundtrips (entry_value (snd kv)) = true
  /\ (extractDescriptions = true ->
      forall d, description (snd kv) = Some d -> truthy d = true -> clean_description d).

(** An entry as [parse] writes it: a plain string without descriptions,
    and with them an object whose description is never the empty string. *)
Definition returned_entry (extractDescriptions : bool) (kv : jstring * Entry) : Prop :=
  valid_key (fst kv) = true /\ fst kv <> proto
  /\ match snd kv with
     | Plain _ => extractDescriptions = false
     | Described d _ => extractDescriptions = true /\ d <> Some []
     end.

Definition is_string (e : Elem) : bool :=
  match e with inl _ => true | inr _ => false end.

(** No two neighbours are strings. *)
Fixpoint no_adjacent_strings (l : list Elem) : bool :=
  match l with
  | [] => true
  | e :: rest =>
      match rest with
      | e' :: _ => negb (is_string e && is_string e')
      | [] => true
      end && no_adjacent_strings rest
  end.

(** The characters and the tokens of a capture, in order. *)
Definition flatten (l : list Elem) : list (N + Token) :=
  flat_map (fun e => match e with
                     | inl s => map inl s
                     | inr t => [inr t]
                     end) l.

(** The text a quote opens, when the quote is never closed. *)
Definition unclosed (q : N) (body : jstring) : Prop :=
  body <> []
  /\ ((q = c_dq /\ forallb (class_matches re_unescaped_dq) body = true)
      \/ (q = c_sq /\ forallb (class_matches re_unescaped_sq) body = true)).

(** ** The interpreter: general facts *)

Lemma jstring_eqb_refl (s : jstring) : jstring_eqb s s = true.
Proof. unfold jstring_eqb. destruct (list_eq_dec N.eq_dec s s); congruence. Qed.

Lemma jstring_eqb_eq (a b : jstring) : jstring_eqb a b = true <-> a = b.
Proof. unfold jstring_eqb. destruct (list_eq_dec N.eq_dec a b); split; congruence. Qed.

Lemma jstring_eqb_neq (a b : jstring) : a <> b -> jstring_eqb a b = false.
Proof. unfold jstring_eqb. destruct (list_eq_dec N.eq_dec a b); congruence. Qed.

Lemma extract_Seq (fuel : nat) (parts : list TokenPart) (state : State) :
  extract (S fuel) (Seq parts) state
  = finish None parts state
      (extract_parts (extract fuel) parts (source state) (index state) []).
Proof. reflexivity. Qed.

Lemma extract_Replaced (fuel : nat) r (parts : list TokenPart) (state : State) :
  extract (S fuel) (Replaced r parts) state
  = finish (Some r) parts state
      (extract_parts (extract fuel) parts (source state) (index state) []).
Proof. reflexivity. Qed.

Lemma extract_Or (fuel : nat) (alts : list TokenName) (state : State) :
  extract (S fuel) (Or alts) state = extract_or (extract fuel) alts state.
Proof. reflexivity. Qed.

Section Monotone.

Variables ex ex' : TokenDef -> State -> option (option Token * State).
Hypothesis ex_le : forall t st r, ex t st = Some r -> ex' t st = Some r.

Lemma extract_or_mono alts st r :
  extract_or ex alts st = Some r -> extract_or ex' alts st = Some r.
Proof.
  revert st. induction alts as [|a alts IH]; intros st; simpl; [easy|].
  destruct (ex (TOKENS a) st) as [[[v|] st']|] eqn:E; [| |discriminate].
  - rewrite (ex_le _ _ _ E). easy.
  - rewrite (ex_le _ _ _ E). apply IH.
Qed.

Lemma extract_parts_mono parts src i acc r :
  extract_parts ex parts src i acc = Some r ->
  extract_parts ex' parts src i acc = Some r.
Proof.
  revert i acc. induction parts as [|p parts IH]; intros i acc; simpl; [easy|].
  destruct p as [s|re|type optional flatten].
  - destruct (jstring_eqb _ _); [apply IH|easy].
  - destruct (test _ _); [apply IH|easy].
  - destruct (ex (TOKENS type) (mkState src i)) as [[[v|] st']|] eqn:E; [| |discriminate];
      rewrite (ex_le _ _ _ E); [apply IH|easy].
Qed.

End Monotone.

(** More budget never changes a result. *)
Lemma extract_S fuel : forall token state r,
  extract fuel token state = Some r -> extract (S fuel) token state = Some r.
Proof.
  induction fuel as [|fuel IH]; intros tk st r; [discriminate|].
  destruct tk as [parts|alts|rp parts].
  - rewrite !extract_Seq.
    destruct (extract_parts (extract fuel) parts (source st) (index st) []) eqn:E; [|discriminate].
    now rewrite (extract_parts_mono _ _ IH _ _ _ _ _ E).
  - rewrite !extract_Or. apply extract_or_mono, IH.
  - rewrite !extract_Replaced.
    destruct (extract_parts (extract fuel) parts (source st) (index st) []) eqn:E; [|discriminate].
    now rewrite (extract_parts_mono _ _ IH _ _ _ _ _ E).
Qed.

Lemma extract_le fuel fuel' token state r :
  fuel <= fuel' -> extract fuel token state = Some r -> extract fuel' token state = Some r.
Proof. intros Hle. induction Hle as [|m Hle IH]; intros E; [easy|]. now apply extract_S, IH. Qed.

(** A failed or successful extraction keeps the source, and a successful
    one never moves the cursor backwards. *)
Lemma extract_parts_index (ex : TokenDef -> State -> option (option Token * State)) :
  (forall t st v st', ex t st = Some (Some v, st') ->
                      source st' = source st /\ index st <= index st') ->
  forall parts src i acc j ev,
    extract_parts ex parts src i acc = Some (Some (j, ev)) -> i <= j.
Proof.
  intros Hex parts src. induction parts as [|p parts IH]; intros i acc j ev; simpl.
  - intros [= <- _]. lia.
  - destruct p as [s|re|type optional flatten].
    + destruct (jstring_eqb _ _); [|discriminate]. intros H%IH. lia.
    + destruct (test _ _); [|discriminate]. intros H%IH. lia.
    + destruct (ex (TOKENS type) (mkState src i)) as [[[v|] st']|] eqn:E; [| |discriminate].
      * intros H%IH. apply Hex in E. simpl in E. lia.
      * destruct optional; [|discriminate]. intros [= <- _]. lia.
Qed.

Lemma extract_or_failure (ex : TokenDef -> State -> option (option Token * State)) :
  (forall t st st', ex t st = Some (None, st') -> st' = st) ->
  forall alts st st', extract_or ex alts st = Some (None, st') -> st' = st.
Proof.
  intros Hex alts. induction alts as [|a alts IH]; intros st st'; simpl.
  - now intros [= <-].
  - destruct (ex (TOKENS a) st) as [[[v|] st1]|] eqn:E; try discriminate.
    intros H%IH. apply Hex in E. congruence.
Qed.

Lemma extract_or_success (ex : TokenDef -> State -> option (option Token * State)) :
  (forall t st st', ex t st = Some (None, st') -> st' = st) ->
  (forall t st v st', ex t st = Some (Some v, st') ->
                      source st' = source st /\ index st <= index st') ->
  forall alts st v st', extract_or ex alts st = Some (Some v, st') ->
                        source st' = source st /\ index st <= index st'.
Proof.
  intros Hf Hs alts. induction alts as [|a alts IH]; intros st v st'; simpl; [discriminate|].
  destruct (ex (TOKENS a) st) as [[[w|] st1]|] eqn:E; try discriminate.
  - intros [= <- <-]. eauto.
  - intros H. apply Hf in E. subst st1. eauto.
Qed.

Lemma finish_failure rp parts st r st' :
  finish rp parts st r = Some (None, st') -> st' = st.
Proof. destruct r as [[[j ev]|]|]; simpl; congruence. Qed.

Lemma extract_failure_state fuel : forall token state state',
  extract fuel token state = Some (None, state') -> state' = state.
Proof.
  induction fuel as [|fuel IH]; intros tk st st'; [discriminate|].
  destruct tk as [parts|alts|rp parts].
  - rewrite extract_Seq. apply finish_failure.
  - rewrite extract_Or. now apply extract_or_failure.
  - rewrite extract_Replaced. apply finish_failure.
Qed.

Lemma extract_success_state fuel : forall token state v state',
  extract fuel token state = Some (Some v, state') ->
  source state' = source state /\ index state <= index state'.
Proof.
  induction fuel as [|fuel IH]; intros tk st v st'; [discriminate|].
  assert (Hfin : forall rp parts,
             finish rp parts st (extract_parts (extract fuel) parts (source st) (index st) [])
             = Some (Some v, st') ->
             source st' = source st /\ index st <= index st').
  { intros rp parts.
    destruct (extract_parts _ _ _ _ _) as [[[j ev]|]|] eqn:E; simpl; try discriminate.
    intros [= _ <-]. simpl. split; [easy|].
    eapply extract_parts_index; [apply IH|apply E]. }
  destruct tk as [parts|alts|rp parts].
  - rewrite extract_Seq. apply Hfin.
  - rewrite extract_Or. apply extract_or_success; [apply extract_failure_state|apply IH].
  - rewrite extract_Replaced. apply Hfin.
Qed.

(** ** What the rules of the table recognise *)

Lemma skipn_add {A} (i k : nat) (l : list A) : skipn (i + k) l = skipn k (skipn i l).
Proof. now rewrite skipn_skipn, Nat.add_comm. Qed.

Lemma implements_Re (re : RegExp) : implements (Re re) (char_item (class_matches re)) 0.
Proof.
  intros f rest src i acc _. simpl. unfold charAt, substr, char_item.
  destruct (skipn i src) as [|c l]; simpl; [easy|].
  rewrite orb_false_r. now destruct (class_matches re c).
Qed.

Lemma implements_flat_char (C : TokenName) (re : RegExp) :
  TOKENS C = Seq [Re re] -> implements (flat C) (char_item (class_matches re)) 1.
Proof.
  intros HC f rest src i acc Hf. destruct f as [|f]; [lia|].
  cbn [extract_parts]. rewrite HC, extract_Seq. cbn [source index].
  rewrite (implements_Re re f [] src i [] (Nat.le_0_l f)).
  destruct (char_item _ _) as [[s k]|]; simpl; reflexivity.
Qed.

Lemma char_item_positive p : positive (char_item p).
Proof.
  intros [|c l] s k; simpl; [discriminate|].
  destruct (p c); [|discriminate]. intros [= <- <-]. lia.
Qed.

Section HeadTail.

Variables (Y X : TokenName) (first : TokenPart) (it : Item) (c : nat).
Hypothesis table : TOKENS Y = Seq [first; opt_flat X].
Hypothesis name : getTokenName [first; opt_flat X] = Some Y.
Hypothesis first_item : implements first it c.

Lemma head_fails : rule_fails Y it (c + 1).
Proof.
  intros f src i Hit Hf. destruct f as [|f]; [lia|].
  rewrite table, extract_Seq. cbn [source index].
  rewrite first_item by lia. now rewrite Hit.
Qed.

Lemma head_step f src i s k :
  c <= f -> it (skipn i src) = Some (s, k) ->
  extract (S f) (TOKENS Y) (mkState src i)
  = match extract f (TOKENS X) (mkState src (i + k)) with
    | None => None
    | Some (None, _) => Some (Some (mkToken [inl s] (Some Y)), mkState src (i + k))
    | Some (Some val, subState) =>
        Some (Some (mkToken (sanitize ([inl s] ++ value val)) (Some Y)),
              mkState src (index subState))
    end.
Proof.
  intros Hf Hit. rewrite table, extract_Seq. cbn [source index].
  rewrite first_item by lia. rewrite Hit. cbn [extract_parts app].
  destruct (extract f (TOKENS X) (mkState src (i + k))) as [[[val|] st']|]; simpl;
    now rewrite ?name.
Qed.

End HeadTail.

Section RunRule.

Variables (X : TokenName) (first : TokenPart) (it : Item) (c : nat).
Hypothesis table : TOKENS X = Seq [first; opt_flat X].
Hypothesis name : getTokenName [first; opt_flat X] = Some X.
Hypothesis first_item : implements first it c.
Hypothesis it_positive : positive it.

Lemma run_fails : rule_fails X it (c + 1).
Proof. exact (head_fails X X first it c table first_item). Qed.

Lemma run_runs : rule_runs X it (c + 1).
Proof.
  intros f src i s k Hr. remember (skipn i src) as l eqn:El.
  revert f i El. induction Hr as [l s k H1 H2|l s k s' k' H1 Hr IH]; intros f i -> Hf.
  - pose proof (it_positive _ _ _ H1).
    destruct f as [|f]; [lia|].
    rewrite (head_step X X first it c table name first_item f src i s k) by (lia || easy).
    rewrite <- skipn_add in H2. now rewrite (run_fails f src (i + k) H2) by lia.
  - pose proof (it_positive _ _ _ H1).
    destruct f as [|f]; [lia|].
    rewrite (head_step X X first it c table name first_item f src i s k) by (lia || easy).
    rewrite (IH f (i + k)) by (now rewrite ?skipn_add || lia).
    cbn [value index]. now rewrite Nat.add_assoc.
Qed.

End RunRule.

Section HeadRule.

Variables (Y X : TokenName) (first : TokenPart) (it1 it2 : Item) (c1 c2 : nat).
Hypothesis table : TOKENS Y = Seq [first; opt_flat X].
Hypothesis name : getTokenName [first; opt_flat X] = Some Y.
Hypothesis first_item : implements first it1 c1.
Hypothesis tail_fails : rule_fails X it2 c2.
Hypothesis tail_runs : rule_runs X it2 c2.

Lemma head_rule f src i s k :
  head_runs it1 it2 (skipn i src) s k -> k + c1 + c2 + 1 <= f ->
  extract f (TOKENS Y) (mkState src i)
  = Some (Some (mkToken [inl s] (Some Y)), mkState src (i + k)).
Proof.
  intros [s1 k1 H1 H2|s1 k1 s2 k2 H1 H2] Hf; (destruct f as [|f]; [lia|]);
    rewrite (head_step Y X first it1 c1 table name first_item f src i s1 k1) by (lia || easy).
  - rewrite <- skipn_add in H2. now rewrite (tail_fails f src (i + k1) H2) by lia.
  - rewrite <- skipn_add in H2. rewrite (tail_runs f src (i + k1) s2 k2 H2) by lia.
    cbn [value index]. now rewrite Nat.add_assoc.
Qed.

End HeadRule.

(** *** The items of the table *)

Lemma char_item_Some p l s k :
  char_item p l = Some (s, k) -> exists c l', l = c :: l' /\ p c = true /\ s = [c] /\ k = 1.
Proof.
  destruct l as [|c l']; simpl; [discriminate|].
  destruct (p c) eqn:E; [|discriminate]. intros [= <- <-]. now exists c, l'.
Qed.

Lemma implements_Lit (q : N) : implements (Lit [q]) (it_lit q) 0.
Proof.
  intros f rest src i acc _. simpl. unfold substr, it_lit, char_item.
  destruct (skipn i src) as [|c l]; simpl.
  - reflexivity.
  - destruct (N.eqb_spec q c) as [->|Hne].
    + now rewrite jstring_eqb_refl.
    + rewrite jstring_eqb_neq; congruence.
Qed.

Lemma escape_letter (e : N) :
  class_matches re_escape e = true ->
  EscapedChars_replacer [inl [c_bsl; e]] = [inl [unescape e]].
Proof.
  unfold class_matches, re_escape, item_matches; simpl. intros H.
  repeat (apply orb_true_iff in H; destruct H as [H|H]); try discriminate;
    apply N.eqb_eq in H; subst e; reflexivity.
Qed.

(** [EscapedChars] on a backslash and an escape letter; the token carries
    no name, [getTokenName] receives the inner array. *)
Lemma EscapedChars_spec f src i :
  extract (S f) (TOKENS EscapedChars) (mkState src i)
  = Some (match skipn i src with
          | c :: e :: _ =>
              if (c =? c_bsl)%N && class_matches re_escape e
              then (Some (mkToken [inl [unescape e]] None), mkState src (i + 2))
              else (None, mkState src i)
          | _ => (None, mkState src i)
          end).
Proof.
  cbn [TOKENS]. rewrite extract_Replaced. cbn [source index].
  rewrite (implements_Lit c_bsl f _ src i [] (Nat.le_0_l f)).
  unfold it_lit, char_item.
  destruct (skipn i src) as [|c l] eqn:El; [easy|].
  rewrite (N.eqb_sym c_bsl c). destruct (c =? c_bsl)%N eqn:Ec; [|now destruct l].
  apply N.eqb_eq in Ec. subst c.
  rewrite (implements_Re re_escape f [] src (i + 1) _ (Nat.le_0_l f)).
  rewrite skipn_add, El. cbn [skipn char_item].
  destruct l as [|e l']; [easy|]. unfold char_item.
  destruct (class_matches re_escape e) eqn:Ee; [|easy].
  cbn -[EscapedChars_replacer unescape]. rewrite escape_letter by easy. now replace (i + 1 + 1) with (i + 2) by lia.
Qed.

Lemma char_token_spec (C : TokenName) (re : RegExp) f src i :
  TOKENS C = Seq [Re re] -> getTokenName [Re re] = Some C ->
  extract (S f) (TOKENS C) (mkState src i)
  = Some (match skipn i src with
          | c :: _ =>
              if class_matches re c
              then (Some (mkToken [inl [c]] (Some C)), mkState src (i + 1))
              else (None, mkState src i)
          | [] => (None, mkState src i)
          end).
Proof.
  intros HC Hn. rewrite HC, extract_Seq. cbn [source index].
  rewrite (implements_Re re f [] src i [] (Nat.le_0_l f)). unfold char_item.
  destruct (skipn i src) as [|c l]; [easy|].
  destruct (class_matches re c); [|easy]. cbn. now rewrite Hn.
Qed.

Lemma implements_SingleQuotedStringChar : implements (flat SingleQuotedStringChar) it_sq 2.
Proof.
  intros f rest src i acc Hf. destruct f as [|[|f]]; try lia.
  cbn [extract_parts]. change (TOKENS SingleQuotedStringChar) with (Or [UnescapedSingleQuotedStringChar]).
  rewrite extract_Or. cbn [extract_or].
  rewrite (char_token_spec UnescapedSingleQuotedStringChar re_unescaped_sq) by reflexivity.
  unfold it_sq, char_item. destruct (skipn i src) as [|c l]; [easy|].
  now destruct (class_matches re_unescaped_sq c).
Qed.

Lemma implements_QuotedStringChar : implements (flat QuotedStringChar) dq_item 2.
Proof.
  intros f rest src i acc Hf. destruct f as [|[|f]]; try lia.
  cbn [extract_parts].
  change (TOKENS QuotedStringChar) with (Or [UnescapedQuotedStringChar; EscapedChars]).
  rewrite extract_Or. cbn [extract_or].
  rewrite (char_token_spec UnescapedQuotedStringChar re_unescaped_dq) by reflexivity.
  unfold dq_item. destruct (skipn i src) as [|c l] eqn:El.
  - now rewrite EscapedChars_spec, El.
  - destruct (class_matches re_unescaped_dq c); [easy|].
    rewrite EscapedChars_spec, El.
    destruct l as [|e l']; [now destruct (c =? c_bsl)%N|].
    destruct (c =? c_bsl)%N; [|easy]. now destruct (class_matches re_escape e).
Qed.

Lemma dq_item_positive : positive dq_item.
Proof.
  intros [|c l] s k; simpl; [discriminate|].
  destruct (class_matches re_unescaped_dq c); [intros [= <- <-]; lia|].
  destruct (c =? c_bsl)%N; [|discriminate].
  destruct l as [|e l']; [discriminate|].
  destruct (class_matches re_escape e); [|discriminate]. intros [= <- <-]. simpl. lia.
Qed.

(** *** The rules that collect a run of characters *)

Lemma Whitespace_fails : rule_fails Whitespace it_space 1.
Proof. exact (run_fails Whitespace _ _ 0 eq_refl (implements_Re re_space)). Qed.

Lemma Whitespace_runs : rule_runs Whitespace it_space 1.
Proof.
  exact (run_runs Whitespace _ _ 0 eq_refl eq_refl (implements_Re re_space)
           (char_item_positive _)).
Qed.

Lemma CommentChars_fails : rule_fails CommentChars it_not_nl 2.
Proof.
  exact (run_fails CommentChars _ _ 1 eq_refl (implements_flat_char CommentChar re_not_nl eq_refl)).
Qed.

Lemma CommentChars_runs : rule_runs CommentChars it_not_nl 2.
Proof.
  exact (run_runs CommentChars _ _ 1 eq_refl eq_refl
           (implements_flat_char CommentChar re_not_nl eq_refl) (char_item_positive _)).
Qed.

Lemma AlphaNumUChars_fails : rule_fails AlphaNumUChars it_alphaNumU 2.
Proof.
  exact (run_fails AlphaNumUChars _ _ 1 eq_refl
           (implements_flat_char AlphaNumUChar re_alphaNumU eq_refl)).
Qed.

Lemma AlphaNumUChars_runs : rule_runs AlphaNumUChars it_alphaNumU 2.
Proof.
  exact (run_runs AlphaNumUChars _ _ 1 eq_refl eq_refl
           (implements_flat_char AlphaNumUChar re_alphaNumU eq_refl) (char_item_positive _)).
Qed.

Lemma UnquotedStringChars_fails : rule_fails UnquotedStringChars it_unquoted 1.
Proof. exact (run_fails UnquotedStringChars _ _ 0 eq_refl (implements_Re re_unquoted)). Qed.

Lemma UnquotedStringChars_runs : rule_runs UnquotedStringChars it_unquoted 1.
Proof.
  exact (run_runs UnquotedStringChars _ _ 0 eq_refl eq_refl (implements_Re re_unquoted)
           (char_item_positive _)).
Qed.

Lemma SingleQuotedStringChars_fails : rule_fails SingleQuotedStringChars it_sq 3.
Proof.
  exact (run_fails SingleQuotedStringChars _ _ 2 eq_refl implements_SingleQuotedStringChar).
Qed.

Lemma SingleQuotedStringChars_runs : rule_runs SingleQuotedStringChars it_sq 3.
Proof.
  exact (run_runs SingleQuotedStringChars _ _ 2 eq_refl eq_refl
           implements_SingleQuotedStringChar (char_item_positive _)).
Qed.

Lemma QuotedStringChars_fails : rule_fails QuotedStringChars dq_item 3.
Proof. exact (run_fails QuotedStringChars _ _ 2 eq_refl implements_QuotedStringChar). Qed.

Lemma QuotedStringChars_runs : rule_runs QuotedStringChars dq_item 3.
Proof.
  exact (run_runs QuotedStringChars _ _ 2 eq_refl eq_refl implements_QuotedStringChar
           dq_item_positive).
Qed.

Lemma Key_fails : rule_fails Key it_alphaU 2.
Proof.
  exact (head_fails Key _ _ _ 1 eq_refl (implements_flat_char AlphaUChar re_alphaU eq_refl)).
Qed.

Lemma Key_runs f src i s k :
  head_runs it_alphaU it_alphaNumU (skipn i src) s k -> k + 4 <= f ->
  extract f (TOKENS Key) (mkState src i)
  = Some (Some (mkToken [inl s] (Some Key)), mkState src (i + k)).
Proof.
  intros H Hf.
  apply (head_rule Key AlphaNumUChars _ it_alphaU it_alphaNumU 1 2 eq_refl eq_refl
           (implements_flat_char AlphaUChar re_alphaU eq_refl)
           AlphaNumUChars_fails AlphaNumUChars_runs f src i s k H). lia.
Qed.

Lemma UnquotedString_fails : rule_fails UnquotedString it_safe 2.
Proof.
  exact (head_fails UnquotedString _ _ _ 1 eq_refl (implements_flat_char SafeChar re_safe eq_refl)).
Qed.

Lemma UnquotedString_runs f src i s k :
  head_runs it_safe it_unquoted (skipn i src) s k -> k + 3 <= f ->
  extract f (TOKENS UnquotedString) (mkState src i)
  = Some (Some (mkToken [inl s] (Some UnquotedString)), mkState src (i + k)).
Proof.
  intros H Hf.
  apply (head_rule UnquotedString UnquotedStringChars _ it_safe it_unquoted 1 1 eq_refl eq_refl
           (implements_flat_char SafeChar re_safe eq_refl)
           UnquotedStringChars_fails UnquotedStringChars_runs f src i s k H). lia.
Qed.

(** *** Runs of characters *)

Lemma runs_total (it : Item) : positive it ->
  forall l, it l = None \/ exists s k, runs it l s k /\ k <= length l.
Proof.
  intros Hpos l. remember (length l) as n eqn:En.
  revert l En. induction n as [n IH] using lt_wf_ind. intros l ->.
  destruct (it l) as [[s k]|] eqn:E; [right|now left].
  pose proof (Hpos _ _ _ E) as Hk.
  destruct (IH (length (skipn k l))) with (l := skipn k l) as [H|(s' & k' & H & Hle)];
    try (rewrite length_skipn; lia); try reflexivity.
  - exists s, k. split; [now apply runs_last|lia].
  - exists (s ++ s'), (k + k'). split; [now apply runs_more|].
    rewrite length_skipn in Hle. lia.
Qed.

Lemma head_runs_total (it1 it2 : Item) : positive it1 -> positive it2 ->
  forall l, it1 l = None \/ exists s k, head_runs it1 it2 l s k /\ k <= length l.
Proof.
  intros H1 H2 l. destruct (it1 l) as [[s k]|] eqn:E; [right|now left].
  pose proof (H1 _ _ _ E) as Hk.
  destruct (runs_total it2 H2 (skipn k l)) as [H|(s' & k' & H & Hle)].
  - exists s, k. split; [now apply head_alone|lia].
  - exists (s ++ s'), (k + k'). split; [now apply head_more|].
    rewrite length_skipn in Hle. lia.
Qed.

(** A run of a character class is the longest prefix in the class. *)
Lemma runs_char_inv p l s k :
  runs (char_item p) l s k ->
  l = s ++ skipn k l /\ length s = k /\ forallb p s = true /\ s <> []
  /\ char_item p (skipn k l) = None.
Proof.
  induction 1 as [l s k H1 H2|l s k s' k' H1 Hr (IH1 & IH2 & IH3 & IH4 & IH5)];
    apply char_item_Some in H1 as (c & l' & -> & Hc & -> & ->).
  - simpl in *. now rewrite Hc.
  - simpl in *. rewrite Hc. repeat split; try easy; congruence.
Qed.

Lemma runs_char_intro p s rest :
  s <> [] -> forallb p s = true -> char_item p rest = None ->
  runs (char_item p) (s ++ rest) s (length s).
Proof.
  induction s as [|c s IH]; [easy|]. intros _ Hp Hrest. simpl in Hp.
  apply andb_true_iff in Hp as [Hc Hs].
  destruct s as [|d s'].
  - apply runs_last; simpl; now rewrite ?Hc.
  - apply (runs_more (char_item p) (c :: (d :: s') ++ rest) [c] 1); [simpl; now rewrite Hc|].
    exact (IH ltac:(easy) Hs Hrest).
Qed.

Lemma head_runs_char_inv p1 p2 l s k :
  head_runs (char_item p1) (char_item p2) l s k ->
  exists c r, s = c :: r /\ p1 c = true /\ forallb p2 r = true
              /\ l = s ++ skipn k l /\ length s = k
              /\ char_item p2 (skipn k l) = None.
Proof.
  intros [s1 k1 H1 H2|s1 k1 s2 k2 H1 H2];
    apply char_item_Some in H1 as (c & l' & -> & Hc & -> & ->).
  - exists c, []. simpl in *. easy.
  - apply runs_char_inv in H2 as (E1 & E2 & E3 & E4 & E5). simpl in *.
    exists c, s2. repeat split; try easy; congruence.
Qed.

Lemma head_runs_char_intro p1 p2 c r rest :
  p1 c = true -> forallb p2 r = true -> char_item p2 rest = None ->
  head_runs (char_item p1) (char_item p2) ((c :: r) ++ rest) (c :: r) (length (c :: r)).
Proof.
  intros Hc Hr Hrest. destruct r as [|d r'].
  - apply head_alone; simpl; now rewrite ?Hc.
  - apply (head_more (char_item p1) (char_item p2) _ [c] 1); [simpl; now rewrite Hc|].
    exact (runs_char_intro p2 (d :: r') rest ltac:(easy) Hr Hrest).
Qed.

(** *** The composite rules, one step of the interpreter *)

(** Replace one rule of the table by its definition. *)
Ltac table X :=
  let d := eval cbv beta iota delta [TOKENS] in (TOKENS X) in
  change (TOKENS X) with d.

Lemma parts_Ref ex type optional flatten rest src i acc :
  extract_parts ex (Ref type optional flatten :: rest) src i acc
  = match ex (TOKENS type) (mkState src i) with
    | None => None
    | Some (None, _) =>
        if optional then Some (Some (i, acc)) else Some None
    | Some (Some val, subState) =>
        extract_parts ex rest src (index subState)
          (if flatten then acc ++ value val else acc ++ [inr val])
    end.
Proof. reflexivity. Qed.

Lemma it_lit_starts q l :
  it_lit q l = if starts_with q l then Some ([q], 1) else None.
Proof.
  destruct l as [|c l]; simpl; [easy|].
  destruct (N.eqb_spec q c); now subst.
Qed.

Lemma extract_or_cons f a alts st :
  extract_or (extract f) (a :: alts) st
  = match extract f (TOKENS a) st with
    | None => None
    | Some (Some val, st') => Some (Some val, st')
    | Some (None, _) => extract_or (extract f) alts st
    end.
Proof.
  simpl. destruct (extract f (TOKENS a) st) as [[[v|] st']|] eqn:E; try easy.
  now apply extract_failure_state in E as ->.
Qed.

Lemma Comment_step f src i :
  extract (S f) (TOKENS Comment) (mkState src i)
  = if starts_with c_hash (skipn i src) then
      match extract f (TOKENS CommentChars) (mkState src (i + 1)) with
      | None => None
      | Some (None, _) =>
          Some (Some (mkToken [inl [c_hash]] (Some Comment)), mkState src (i + 1))
      | Some (Some val, st') =>
          Some (Some (mkToken [inl [c_hash]; inr val] (Some Comment)), mkState src (index st'))
      end
    else Some (None, mkState src i).
Proof.
  table Comment. rewrite extract_Seq. cbn [source index].
  rewrite (implements_Lit c_hash f _ src i [] (Nat.le_0_l f)), it_lit_starts.
  destruct (starts_with c_hash (skipn i src)); [|easy]. cbn [extract_parts].
  now destruct (extract f (TOKENS CommentChars) (mkState src (i + 1))) as [[[v|] st']|].
Qed.

Lemma EmptyString_step f src i :
  extract (S f) (TOKENS EmptyString) (mkState src i)
  = Some (if jstring_eqb [c_dq; c_dq] (substr src i 2)
          then (Some (mkToken [inl [c_dq; c_dq]] (Some EmptyString)), mkState src (i + 2))
          else (None, mkState src i)).
Proof.
  table EmptyString. rewrite extract_Seq. cbn [source index extract_parts length].
  destruct (jstring_eqb [c_dq; c_dq] (substr src i 2)) eqn:E; [|easy].
  apply jstring_eqb_eq in E. now rewrite <- E.
Qed.

Section Quoted.

Variables (Y X : TokenName) (q : N).
Hypothesis table : TOKENS Y = Seq [Lit [q]; opt X; Lit [q]].
Hypothesis name : getTokenName [Lit [q]; opt X; Lit [q]] = Some Y.

Lemma quoted_step f src i :
  extract (S f) (TOKENS Y) (mkState src i)
  = if starts_with q (skipn i src) then
      match extract f (TOKENS X) (mkState src (i + 1)) with
      | None => None
      | Some (None, _) => Some (Some (mkToken [inl [q]] (Some Y)), mkState src (i + 1))
      | Some (Some val, st') =>
          if starts_with q (skipn (index st') src)
          then Some (Some (mkToken [inl [q]; inr val; inl [q]] (Some Y)),
                     mkState src (index st' + 1))
          else Some (None, mkState src i)
      end
    else Some (None, mkState src i).
Proof.
  rewrite table, extract_Seq. cbn [source index].
  rewrite (implements_Lit q f _ src i [] (Nat.le_0_l f)), it_lit_starts.
  destruct (starts_with q (skipn i src)); [|easy]. rewrite parts_Ref.
  destruct (extract f (TOKENS X) (mkState src (i + 1))) as [[[v|] st']|]; try easy.
  - rewrite (implements_Lit q f _ src (index st') _ (Nat.le_0_l f)), it_lit_starts.
    destruct (starts_with q (skipn (index st') src)); [|easy]. simpl. now rewrite name.
  - simpl. now rewrite name.
Qed.

End Quoted.

Lemma keyedEntry_step f src i :
  extract (S f) (TOKENS keyedEntry) (mkState src i)
  = match extract f (TOKENS Key) (mkState src i) with
    | None => None
    | Some (None, _) => Some (None, mkState src i)
    | Some (Some key, st1) =>
        if starts_with c_eq (skipn (index st1) src) then
          match extract f (TOKENS String) (mkState src (index st1 + 1)) with
          | None => None
          | Some (None, _) =>
              Some (Some (mkToken [inr key; inl [c_eq]] (Some keyedEntry)),
                    mkState src (index st1 + 1))
          | Some (Some val, st2) =>
              Some (Some (mkToken [inr key; inl [c_eq]; inr val] (Some keyedEntry)),
                    mkState src (index st2))
          end
        else Some (None, mkState src i)
    end.
Proof.
  table keyedEntry. rewrite extract_Seq. cbn [source index]. rewrite parts_Ref.
  destruct (extract f (TOKENS Key) (mkState src i)) as [[[key|] st1]|]; try easy.
  rewrite (implements_Lit c_eq f _ src (index st1) _ (Nat.le_0_l f)), it_lit_starts.
  destruct (starts_with c_eq (skipn (index st1) src)); [|easy]. cbn [extract_parts].
  now destruct (extract f (TOKENS String) (mkState src (index st1 + 1))) as [[[v|] st2]|].
Qed.

Lemma String_step f st :
  extract (S f) (TOKENS String) st
  = match extract f (TOKENS UnquotedString) st with
    | None => None
    | Some (Some val, st') => Some (Some val, st')
    | Some (None, _) =>
        match extract f (TOKENS EmptyString) st with
        | None => None
        | Some (Some val, st') => Some (Some val, st')
        | Some (None, _) =>
            match extract f (TOKENS QuotedString) st with
            | None => None
            | Some (Some val, st') => Some (Some val, st')
            | Some (None, _) =>
                match extract f (TOKENS SingleQuotedString) st with
                | None => None
                | Some (Some val, st') => Some (Some val, st')
                | Some (None, _) => Some (None, st)
                end
            end
        end
    end.
Proof.
  change (TOKENS String) with (Or [UnquotedString; EmptyString; QuotedString; SingleQuotedString]).
  rewrite extract_Or, !extract_or_cons. reflexivity.
Qed.

(** *** The shapes of the tokens *)

(** A rule for a run, given enough budget for what is left of the source,
    fails or returns the run as one string. *)
Lemma run_cases X it c :
  rule_fails X it c -> rule_runs X it c -> positive it ->
  forall f src i, length src - i + c <= f ->
    extract f (TOKENS X) (mkState src i) = Some (None, mkState src i)
    \/ exists s k, runs it (skipn i src) s k
                   /\ extract f (TOKENS X) (mkState src i)
                      = Some (Some (mkToken [inl s] (Some X)), mkState src (i + k)).
Proof.
  intros Hf Hr Hpos f src i Hfuel.
  destruct (runs_total it Hpos (skipn i src)) as [H|(s & k & H & Hle)].
  - left. apply Hf; [easy|lia].
  - right. exists s, k. split; [easy|]. apply Hr; [easy|].
    rewrite length_skipn in Hle. lia.
Qed.

Lemma Key_cases f src i : length src - i + 4 <= f ->
  extract f (TOKENS Key) (mkState src i) = Some (None, mkState src i)
  \/ exists K k, head_runs it_alphaU it_alphaNumU (skipn i src) K k
                 /\ extract f (TOKENS Key) (mkState src i)
                    = Some (Some (mkToken [inl K] (Some Key)), mkState src (i + k)).
Proof.
  intros Hfuel.
  destruct (head_runs_total it_alphaU it_alphaNumU (char_item_positive _) (char_item_positive _)
              (skipn i src)) as [H|(s & k & H & Hle)].
  - left. apply Key_fails; [easy|lia].
  - right. exists s, k. split; [easy|]. apply Key_runs; [easy|].
    rewrite length_skipn in Hle. lia.
Qed.

Lemma head_runs_valid_key l K k :
  head_runs it_alphaU it_alphaNumU l K k -> valid_key K = true.
Proof.
  intros (c & r & -> & Hc & Hr & _)%head_runs_char_inv. simpl. now rewrite Hc, Hr.
Qed.

Lemma UnquotedString_cases f src i : length src - i + 3 <= f ->
  extract f (TOKENS UnquotedString) (mkState src i) = Some (None, mkState src i)
  \/ exists s k, head_runs it_safe it_unquoted (skipn i src) s k
                 /\ extract f (TOKENS UnquotedString) (mkState src i)
                    = Some (Some (mkToken [inl s] (Some UnquotedString)), mkState src (i + k)).
Proof.
  intros Hfuel.
  destruct (head_runs_total it_safe it_unquoted (char_item_positive _) (char_item_positive _)
              (skipn i src)) as [H|(s & k & H & Hle)].
  - left. apply UnquotedString_fails; [easy|lia].
  - right. exists s, k. split; [easy|]. apply UnquotedString_runs; [easy|].
    rewrite length_skipn in Hle. lia.
Qed.

Lemma QuotedString_cases f src i : length src - i + 4 <= f ->
  exists r, extract f (TOKENS QuotedString) (mkState src i) = Some r
            /\ forall t, fst r = Some t -> String_token t.
Proof.
  intros Hfuel. destruct f as [|f]; [lia|].
  rewrite (quoted_step QuotedString QuotedStringChars c_dq eq_refl eq_refl).
  destruct (starts_with c_dq (skipn i src)); [|eexists; split; [reflexivity|easy]].
  destruct (run_cases QuotedStringChars dq_item 3 QuotedStringChars_fails QuotedStringChars_runs
              dq_item_positive f src (i + 1)) as [H|(s & k & _ & H)]; [lia| |]; rewrite H.
  - eexists; split; [reflexivity|]. intros t [= <-]. constructor.
  - cbn [index]. destruct (starts_with c_dq _); (eexists; split; [reflexivity|]); [|easy].
    intros t [= <-]. constructor.
Qed.

Lemma SingleQuotedString_cases f src i : length src - i + 4 <= f ->
  exists r, extract f (TOKENS SingleQuotedString) (mkState src i) = Some r
            /\ forall t, fst r = Some t -> String_token t.
Proof.
  intros Hfuel. destruct f as [|f]; [lia|].
  rewrite (quoted_step SingleQuotedString SingleQuotedStringChars c_sq eq_refl eq_refl).
  destruct (starts_with c_sq (skipn i src)); [|eexists; split; [reflexivity|easy]].
  destruct (run_cases SingleQuotedStringChars it_sq 3 SingleQuotedStringChars_fails
              SingleQuotedStringChars_runs (char_item_positive _) f src (i + 1))
    as [H|(s & k & _ & H)]; [lia| |]; rewrite H.
  - eexists; split; [reflexivity|]. intros t [= <-]. constructor.
  - cbn [index]. destruct (starts_with c_sq _); (eexists; split; [reflexivity|]); [|easy].
    intros t [= <-]. constructor.
Qed.

Lemma String_cases f src i : length src - i + 5 <= f ->
  exists r, extract f (TOKENS String) (mkState src i) = Some r
            /\ forall t, fst r = Some t -> String_token t.
Proof.
  intros Hfuel. destruct f as [|f]; [lia|]. rewrite String_step.
  destruct (UnquotedString_cases f src i) as [H|(s & k & _ & H)]; [lia| |]; rewrite H.
  2:{ eexists; split; [reflexivity|]. intros t [= <-]. constructor. }
  destruct f as [|f]; [lia|]. rewrite EmptyString_step.
  destruct (jstring_eqb _ _).
  { eexists; split; [reflexivity|]. intros t [= <-]. constructor. }
  destruct (QuotedString_cases (S f) src i) as ([[t|] st'] & H1 & H2); [lia| |]; rewrite H1.
  { eexists; split; [reflexivity|]. exact H2. }
  destruct (SingleQuotedString_cases (S f) src i) as ([[t|] st'2] & H3 & H4); [lia| |]; rewrite H3.
  { eexists; split; [reflexivity|]. exact H4. }
  eexists; split; [reflexivity|easy].
Qed.

(** Whatever the budget, a capture of [String] has one of the six shapes. *)
Lemma String_capture_shape f src i t st' :
  extract f (TOKENS String) (mkState src i) = Some (Some t, st') -> String_token t.
Proof.
  intros H.
  destruct (String_cases (f + (length src - i + 5)) src i) as (r & E & Hr); [lia|].
  rewrite (extract_le f _ _ _ _ (Nat.le_add_r _ _) H) in E. injection E as <-.
  now apply Hr.
Qed.

Lemma keyedEntry_cases f src i : length src - i + 6 <= f ->
  exists r, extract f (TOKENS keyedEntry) (mkState src i) = Some r
            /\ forall t, fst r = Some t -> lexed_token t.
Proof.
  intros Hfuel. destruct f as [|f]; [lia|]. rewrite keyedEntry_step.
  destruct (Key_cases f src i) as [H|(K & k & HK & H)]; [lia| |]; rewrite H.
  { eexists; split; [reflexivity|easy]. }
  apply head_runs_valid_key in HK. cbn [index].
  destruct (starts_with c_eq _); [|eexists; split; [reflexivity|easy]].
  destruct (String_cases f src (i + k + 1)) as ([[t|] st'] & H1 & H2); [lia| |]; rewrite H1.
  - eexists; split; [reflexivity|]. intros t' [= <-]. constructor; [easy|]. now apply H2.
  - eexists; split; [reflexivity|]. intros t' [= <-]. now constructor.
Qed.

Lemma Comment_cases f src i : length src - i + 3 <= f ->
  exists r, extract f (TOKENS Comment) (mkState src i) = Some r
            /\ forall t, fst r = Some t -> lexed_token t.
Proof.
  intros Hfuel. destruct f as [|f]; [lia|]. rewrite Comment_step.
  destruct (starts_with c_hash _); [|eexists; split; [reflexivity|easy]].
  destruct (run_cases CommentChars it_not_nl 2 CommentChars_fails CommentChars_runs
              (char_item_positive _) f src (i + 1)) as [H|(s & k & _ & H)]; [lia| |]; rewrite H.
  - eexists; split; [reflexivity|]. intros t [= <-]. constructor.
  - eexists; split; [reflexivity|]. intros t [= <-]. constructor.
Qed.

Lemma Whitespace_cases f src i : length src - i + 1 <= f ->
  exists r, extract f (TOKENS Whitespace) (mkState src i) = Some r
            /\ forall t, fst r = Some t -> lexed_token t.
Proof.
  intros Hfuel.
  destruct (run_cases Whitespace it_space 1 Whitespace_fails Whitespace_runs
              (char_item_positive _) f src i) as [H|(s & k & _ & H)]; [lia| |]; rewrite H.
  - eexists; split; [reflexivity|easy].
  - eexists; split; [reflexivity|]. intros t [= <-]. constructor.
Qed.

(** ** The lexer terminates and yields well-formed tokens *)

Lemma MAIN_TOKENS_top_level : Forall top_level MAIN_TOKENS.
Proof.
  repeat constructor; intros f src i Hf.
  - apply Whitespace_cases. lia.
  - apply Comment_cases. lia.
  - apply keyedEntry_cases. lia.
Qed.

Lemma lex_tokens_cases tokens : Forall top_level tokens ->
  forall f src i, length src - i + 6 <= f ->
    exists vals j, lex_tokens f tokens (mkState src i) = Some (vals, mkState src j)
                   /\ Forall lexed_token vals /\ i <= j.
Proof.
  induction 1 as [|tok tokens Htok _ IH]; intros f src i Hf; simpl.
  - exists [], i. auto.
  - destruct (Htok f src i Hf) as ([[t|] st1] & E & Ht); rewrite E.
    + apply extract_success_state in E as E'. destruct st1 as [src1 i1]. simpl in E'.
      destruct E' as [-> Hi].
      destruct (IH f src i1) as (vals & j & E2 & Hv & Hj); [lia|]. rewrite E2.
      exists (t :: vals), j. repeat split; [|lia]. constructor; [now apply Ht|easy].
    + apply extract_failure_state in E as ->.
      destruct (IH f src i Hf) as (vals & j & E2 & Hv & Hj). rewrite E2.
      exists vals, j. auto.
Qed.

Lemma lex_loop_S n f src i :
  lex_loop (S n) f (mkState src i)
  = if i <? length src then
      match lex_tokens f MAIN_TOKENS (mkState src i) with
      | None => None
      | Some (vals, state) =>
          if i =? index state
          then Some (vals, Some (Error (unexpected_token (source state) i (index state))))
          else match lex_loop n f state with
               | None => None
               | Some (more, completion) => Some (vals ++ more, completion)
               end
      end
    else Some ([], None).
Proof. reflexivity. Qed.

Lemma lex_loop_cases n : forall f src i,
  length src - i <= n -> length src - i + 6 <= f ->
  exists vals completion,
    lex_loop n f (mkState src i) = Some (vals, completion) /\ Forall lexed_token vals.
Proof.
  induction n as [|n IH]; intros f src i Hn Hf.
  - exists [], None. simpl. destruct (Nat.ltb_spec i (length src)); [lia|auto].
  - rewrite lex_loop_S. destruct (Nat.ltb_spec i (length src)); [|exists [], None; auto].
    destruct (lex_tokens_cases MAIN_TOKENS MAIN_TOKENS_top_level f src i Hf)
      as (vals & j & E & Hv & Hj).
    rewrite E. cbn [index source]. destruct (Nat.eqb_spec i j) as [->|Hne].
    + eexists _, _. split; [reflexivity|easy].
    + destruct (IH f src j) as (more & c & E2 & Hm); [lia|lia|]. rewrite E2.
      exists (vals ++ more), c. split; [easy|]. now apply Forall_app.
Qed.

Lemma lex_total (source : jstring) :
  exists vals completion, lex source = Some (vals, completion) /\ Forall lexed_token vals.
Proof. apply lex_loop_cases; unfold extract_fuel; lia. Qed.

Lemma parseString_String_token val :
  String_token val -> exists s, parseString (JSObject val) = inr (JSString s).
Proof. destruct 1; cbv -[c_dq c_sq]; eauto. Qed.

Lemma assemble_lexed extractDescriptions entries :
  Forall lexed_token entries ->
  forall lastDescription map,
    assemble extractDescriptions entries lastDescription map <> NotAString.
Proof.
  induction 1 as [|entry entries He _ IH]; intros d m; [easy|].
  destruct He as [s| |s|K HK|K val HK Hval]; cbn -[trim]; try apply IH; try easy.
  destruct (parseString_String_token val Hval) as (s & E).
  cbn [parseString] in E. rewrite E. apply IH.
Qed.

(** [parse] always ends, and with an object of strings when it returns. *)
Lemma parse_well_typed (source : jstring) (extractDescriptions : bool) :
  exists outcome, parse source extractDescriptions = Some outcome /\ outcome <> NotAString.
Proof.
  unfold parse. destruct (lex_total source) as (vals & c & -> & Hv).
  eexists. split; [reflexivity|].
  pose proof (assemble_lexed extractDescriptions vals Hv [] []) as H.
  destruct (assemble extractDescriptions vals [] []); try easy. now destruct c.
Qed.

(** ** Reading back what the serializer writes *)

Lemma runs0_cons it l s k s' k' :
  it l = Some (s, k) -> runs0 it (skipn k l) s' k' -> runs it l (s ++ s') (k + k').
Proof.
  intros H [(-> & -> & H')|H'].
  - rewrite app_nil_r, Nat.add_0_r. now apply runs_last.
  - now apply runs_more.
Qed.

Lemma runs0_nonempty it l s k : s <> [] -> runs0 it l s k -> runs it l s k.
Proof. now intros Hs [(-> & _)|H]. Qed.

Lemma skipn_prefix {A} (i : nat) (src p l : list A) :
  skipn i src = p ++ l -> skipn (i + length p) src = l.
Proof. intros H. now rewrite skipn_add, H, skipn_app, skipn_all, Nat.sub_diag. Qed.

Lemma skipn_length_eq {A} (i : nat) (src l : list A) :
  skipn i src = l -> length src - i = length l.
Proof. intros <-. now rewrite length_skipn. Qed.

Lemma dq_item_quote_unit c l :
  json_unit_safe c = true ->
  dq_item (quote_unit c ++ l) = Some ([c], length (quote_unit c)).
Proof.
  unfold json_unit_safe, quote_unit. intros H.
  apply andb_true_iff in H as [H Hc]. apply andb_true_iff in H as [Hl Ht].
  apply negb_true_iff in Hl, Ht. rewrite Hl, Ht.
  destruct (N.eqb_spec c c_bs) as [->|?]; [reflexivity|].
  destruct (N.eqb_spec c c_tab) as [->|?]; [reflexivity|].
  destruct (N.eqb_spec c c_nl) as [->|?]; [reflexivity|].
  destruct (N.eqb_spec c c_ff) as [->|?]; [reflexivity|].
  destruct (N.eqb_spec c c_cr) as [->|?]; [reflexivity|].
  destruct (N.eqb_spec c c_dq) as [->|?]; [reflexivity|].
  destruct (N.eqb_spec c c_bsl) as [->|?]; [reflexivity|].
  rewrite !orb_false_r in Hc.
  apply N.leb_le in Hc. destruct (N.ltb_spec c 32); [lia|]. simpl.
  unfold class_matches. simpl.
  destruct (N.eqb_spec c c_bsl); [congruence|]. destruct (N.eqb_spec c c_dq); [congruence|].
  reflexivity.
Qed.

Lemma surrogate_unescaped c :
  (55296 <= c)%N -> class_matches re_unescaped_dq c = true.
Proof.
  intros H. unfold class_matches. simpl.
  destruct (N.eqb_spec c c_bsl) as [->|?]; [unfold c_bsl in H; lia|].
  destruct (N.eqb_spec c c_dq) as [->|?]; [unfold c_dq in H; lia|]. reflexivity.
Qed.

Lemma quote_body_runs rest n : forall V, length V <= n -> json_safe V = true ->
  runs0 dq_item (quote_body V ++ c_dq :: rest) V (length (quote_body V)).
Proof.
  induction n as [|n IH]; intros V Hn HV.
  { destruct V; [|simpl in Hn; lia]. left. auto. }
  destruct V as [|c V]; [left; auto|]. right. simpl in HV, Hn |- *.
  destruct (is_lead c) eqn:Hl.
  - destruct V as [|d V']; [discriminate|]. apply andb_true_iff in HV as [Hd HV].
    rewrite Hd. simpl in Hn.
    apply (runs0_cons dq_item _ [c] 1 (d :: V') (S (length (quote_body V')))).
    { unfold is_lead in Hl. apply andb_true_iff in Hl as [Hl _]. apply N.leb_le in Hl.
      simpl. now rewrite surrogate_unescaped. }
    right. simpl.
    apply (runs0_cons dq_item _ [d] 1 V' (length (quote_body V'))).
    { unfold is_trail in Hd. apply andb_true_iff in Hd as [Hd _]. apply N.leb_le in Hd.
      simpl. rewrite surrogate_unescaped; [easy|lia]. }
    apply IH; [lia|easy].
  - apply andb_true_iff in HV as [Hc HV]. rewrite <- app_assoc, length_app.
    apply (runs0_cons dq_item _ [c] _ V); [now apply dq_item_quote_unit|].
    rewrite skipn_app, skipn_all, Nat.sub_diag. simpl. apply IH; [lia|easy].
Qed.

Lemma quote_body_head V :
  V <> [] -> json_safe V = true ->
  exists b l, quote_body V = b :: l /\ b <> c_dq.
Proof.
  destruct V as [|c V]; [easy|]. intros _ HV. simpl in *.
  destruct (is_lead c) eqn:Hl.
  - destruct V as [|d V']; [discriminate|]. apply andb_true_iff in HV as [Hd _]. rewrite Hd.
    exists c, (d :: quote_body V'). split; [easy|]. intros ->. discriminate.
  - apply andb_true_iff in HV as [Hc _].
    pose proof (dq_item_quote_unit c [] Hc) as H. rewrite app_nil_r in H.
    destruct (quote_unit c) as [|b l] eqn:E; [discriminate|].
    exists b, (l ++ quote_body V). split; [easy|]. intros ->. discriminate.
Qed.

Lemma it_sq_class V :
  includes V c_sq = false -> forallb (class_matches re_unescaped_sq) V = true.
Proof.
  unfold includes. induction V as [|c V IH]; [easy|]. cbn [existsb forallb].
  intros [Hc HV]%orb_false_iff. rewrite IH by easy.
  unfold class_matches, re_unescaped_sq. cbn [negated items existsb item_matches].
  now rewrite N.eqb_sym, Hc.
Qed.

Lemma starts_with_cons q c l : starts_with q (c :: l) = (q =? c)%N.
Proof. reflexivity. Qed.

(** Single quotes around a text without apostrophe: the text comes back
    as it is. *)
Lemma String_single_quoted f src i V rest :
  skipn i src = (c_sq :: V ++ [c_sq]) ++ rest -> V <> [] -> includes V c_sq = false ->
  length src - i + 5 <= f ->
  exists t, extract f (TOKENS String) (mkState src i)
            = Some (Some t, mkState src (i + length (c_sq :: V ++ [c_sq])))
            /\ parseString (JSObject t) = inr (JSString V).
Proof.
  intros Hsrc HVne Hsq Hf. pose proof (skipn_length_eq _ _ _ Hsrc) as Hlen.
  rewrite length_app in Hlen.
  destruct f as [|[|f]]; try lia. rewrite String_step.
  assert (E1 : skipn (i + 1) src = V ++ c_sq :: rest).
  { apply (skipn_prefix i src [c_sq]). rewrite Hsrc. simpl. now rewrite <- app_assoc. }
  assert (E2 : skipn (i + 1 + length V) src = c_sq :: rest)
    by apply (skipn_prefix _ _ V), E1.
  cbn [length] in Hlen. rewrite length_app in Hlen. cbn [length] in Hlen.
  rewrite UnquotedString_fails by (rewrite ?Hsrc; easy || lia).
  rewrite EmptyString_step.
  destruct (jstring_eqb _ _) eqn:E.
  { apply jstring_eqb_eq in E. unfold substr in E. rewrite Hsrc in E. discriminate E. }
  rewrite (quoted_step QuotedString QuotedStringChars c_dq eq_refl eq_refl), Hsrc.
  cbn [app]. rewrite starts_with_cons. change (c_dq =? c_sq)%N with false. cbv iota.
  rewrite (quoted_step SingleQuotedString SingleQuotedStringChars c_sq eq_refl eq_refl), Hsrc.
  cbn [app]. rewrite starts_with_cons. change (c_sq =? c_sq)%N with true. cbv iota.
  rewrite (SingleQuotedStringChars_runs f src (i + 1) V (length V)).
  - cbn [index]. rewrite E2, starts_with_cons. change (c_sq =? c_sq)%N with true. cbv iota.
    replace (i + length (c_sq :: V ++ [c_sq])) with (i + 1 + length V + 1)
      by (cbn [length]; rewrite length_app; simpl; lia).
    eexists. split; [reflexivity|]. destruct V; [easy|reflexivity].
  - rewrite E1. apply runs_char_intro; [easy|now apply it_sq_class|reflexivity].
  - lia.
Qed.

(** The quoted form of a value, read back by the [String] alternation. *)
Lemma String_serialized f src i V rest :
  skipn i src = serializeString V ++ rest -> roundtrips V = true ->
  length src - i + 5 <= f ->
  exists t, extract f (TOKENS String) (mkState src i)
            = Some (Some t, mkState src (i + length (serializeString V)))
            /\ parseString (JSObject t) = inr (JSString V).
Proof.
  intros Hsrc HV Hf. unfold roundtrips, serializeString in *.
  destruct (includes V c_nl && negb (includes V c_sq)) eqn:Hq.
  { apply andb_true_iff in Hq as [Hnl Hsq]. apply negb_true_iff in Hsq.
    apply (String_single_quoted f src i V rest Hsrc); [|easy|easy].
    intros ->. discriminate. }
  pose proof (skipn_length_eq _ _ _ Hsrc) as Hlen.
  rewrite length_app in Hlen.
  destruct f as [|[|f]]; try lia. rewrite String_step.
  - (* JSON.stringify *)
    simpl in HV. unfold JSON_stringify in *.
    assert (E1 : skipn (i + 1) src = quote_body V ++ c_dq :: rest).
    { apply (skipn_prefix i src [c_dq]). rewrite Hsrc. simpl. now rewrite <- app_assoc. }
    assert (E2 : skipn (i + 1 + length (quote_body V)) src = c_dq :: rest)
      by apply (skipn_prefix _ _ (quote_body V)), E1.
    cbn [length] in Hlen. rewrite length_app in Hlen. cbn [length] in Hlen.
    rewrite UnquotedString_fails by (rewrite ?Hsrc; easy || lia).
    rewrite EmptyString_step.
    destruct V as [|v V'].
    { unfold substr. rewrite Hsrc. cbn. eexists. split; reflexivity. }
    destruct (jstring_eqb _ _) eqn:E.
    { exfalso. apply jstring_eqb_eq in E. unfold substr in E. rewrite Hsrc in E.
      destruct (quote_body_head (v :: V')) as (b & l & Eb & Hb); [easy|easy|].
      rewrite Eb in E. cbn in E. congruence. }
    rewrite (quoted_step QuotedString QuotedStringChars c_dq eq_refl eq_refl), Hsrc.
    cbn [app]. rewrite starts_with_cons. change (c_dq =? c_dq)%N with true. cbv iota.
    pose proof (quote_body_runs rest (length (v :: V')) (v :: V') (le_n _) HV) as Hr.
    apply runs0_nonempty in Hr; [|easy].
    rewrite (QuotedStringChars_runs f src (i + 1) (v :: V') (length (quote_body (v :: V')))).
    + cbn [index]. rewrite E2, starts_with_cons. change (c_dq =? c_dq)%N with true. cbv iota.
      replace (i + length (c_dq :: quote_body (v :: V') ++ [c_dq]))
        with (i + 1 + length (quote_body (v :: V')) + 1)
        by (cbn [length]; rewrite length_app; simpl; lia).
      eexists. split; reflexivity.
    + now rewrite E1.
    + lia.
Qed.

Lemma alphaU_range c :
  class_matches re_alphaU c = true ->
  (97 <= c <= 122 \/ 65 <= c <= 90 \/ c = 95)%N.
Proof.
  unfold class_matches, re_alphaU. cbn [negated items existsb item_matches xorb].
  change (ch "a") with 97%N. change (ch "z") with 122%N. change (ch "A") with 65%N.
  change (ch "Z") with 90%N. change (ch "_") with 95%N.
  rewrite orb_false_r, !orb_true_iff, !andb_true_iff, !N.leb_le, N.eqb_eq. tauto.
Qed.

Lemma alphaU_not_space c : class_matches re_alphaU c = true -> class_matches re_space c = false.
Proof.
  intros H%alphaU_range. unfold class_matches, re_space.
  cbn [negated items existsb item_matches xorb]. rewrite orb_false_r. unfold is_space.
  repeat match goal with
         | |- context [(?a <=? ?b)%N] =>
             first [ replace (a <=? b)%N with true by (symmetry; apply N.leb_le; lia)
                   | replace (a <=? b)%N with false by (symmetry; apply N.leb_gt; lia) ]
         | |- context [(?a =? ?b)%N] =>
             replace (a =? b)%N with false by (symmetry; apply N.eqb_neq; lia)
         end; reflexivity.
Qed.

Lemma alphaU_not_hash c : class_matches re_alphaU c = true -> (c_hash =? c)%N = false.
Proof. intros H%alphaU_range. apply N.eqb_neq. unfold c_hash. lia. Qed.

Lemma valid_key_inv K :
  valid_key K = true ->
  exists c r, K = c :: r /\ class_matches re_alphaU c = true
              /\ forallb (class_matches re_alphaNumU) r = true.
Proof.
  destruct K as [|c r]; [discriminate|]. simpl. intros [Hc Hr]%andb_true_iff. eauto.
Qed.

Lemma Key_serialized f src i K rest :
  skipn i src = K ++ c_eq :: rest -> valid_key K = true -> length K + 4 <= f ->
  extract f (TOKENS Key) (mkState src i)
  = Some (Some (mkToken [inl K] (Some Key)), mkState src (i + length K)).
Proof.
  intros Hsrc (c & r & -> & Hc & Hr)%valid_key_inv Hf.
  apply Key_runs; [|easy]. rewrite Hsrc.
  now apply head_runs_char_intro.
Qed.

Lemma serialized_reads V rest :
  roundtrips V = true -> string_reads (serializeString V) rest V.
Proof. intros HV f src i Hsrc Hf. now apply (String_serialized f src i V rest). Qed.

(** An entry [K=Q], read by [keyedEntry]. *)
Lemma keyedEntry_reads f src i K Q V rest :
  skipn i src = K ++ c_eq :: Q ++ rest ->
  valid_key K = true -> string_reads Q rest V -> length src - i + 6 <= f ->
  exists t, extract f (TOKENS keyedEntry) (mkState src i)
            = Some (Some (mkToken [inr (mkToken [inl K] (Some Key)); inl [c_eq]; inr t]
                            (Some keyedEntry)),
                    mkState src (i + length (K ++ c_eq :: Q)))
            /\ parseString (JSObject t) = inr (JSString V).
Proof.
  intros Hsrc HK HQ Hf. pose proof (skipn_length_eq _ _ _ Hsrc) as Hlen.
  rewrite length_app in Hlen. cbn [length] in Hlen. rewrite length_app in Hlen.
  assert (E1 : skipn (i + length K) src = c_eq :: Q ++ rest)
    by apply (skipn_prefix _ _ K), Hsrc.
  assert (E2 : skipn (i + length K + 1) src = Q ++ rest)
    by apply (skipn_prefix _ _ [c_eq]), E1.
  destruct f as [|f]; [lia|]. rewrite keyedEntry_step.
  rewrite (Key_serialized f src i K _ Hsrc HK) by lia. cbn [index].
  rewrite E1, starts_with_cons. change (c_eq =? c_eq)%N with true. cbv iota.
  destruct (HQ f src (i + length K + 1) E2) as (t & E & Ht); [lia|].
  rewrite E. exists t. split; [|easy]. repeat f_equal.
  rewrite length_app. simpl. lia.
Qed.

Lemma assemble_reads toks doc : reads toks doc ->
  forall extractDescriptions map,
    assemble extractDescriptions toks [] map
    = Return (fold_left (assign extractDescriptions) doc map).
Proof.
  induction 1 as [|s toks doc _ IH|K V t toks doc Ht _ IH]; intros b m.
  - reflexivity.
  - apply IH.
  - cbn [assemble token value elem_at nth_error value_0 toPropertyKey fold_left].
    rewrite Ht, IH. now destruct b.
Qed.

Lemma Comment_fails_on_key f src i K rest :
  skipn i src = K ++ rest -> valid_key K = true ->
  extract (S f) (TOKENS Comment) (mkState src i) = Some (None, mkState src i).
Proof.
  intros Hsrc (c & r & -> & Hc & _)%valid_key_inv. rewrite Comment_step, Hsrc.
  cbn [app]. now rewrite starts_with_cons, alphaU_not_hash.
Qed.

Lemma Whitespace_fails_on_key f src i K rest :
  skipn i src = K ++ rest -> valid_key K = true ->
  extract (S f) (TOKENS Whitespace) (mkState src i) = Some (None, mkState src i).
Proof.
  intros Hsrc (c & r & -> & Hc & _)%valid_key_inv.
  apply Whitespace_fails; [|lia]. rewrite Hsrc. unfold it_space. simpl.
  now rewrite alphaU_not_space.
Qed.

(** One iteration of the lexer at the start of an entry [K=Q]. *)
Lemma lex_tokens_entry f src i K Q V rest :
  skipn i src = K ++ c_eq :: Q ++ rest ->
  valid_key K = true -> string_reads Q rest V -> length src - i + 6 <= f ->
  forall tokens, tokens = [TOKENS Comment; TOKENS keyedEntry] \/ tokens = MAIN_TOKENS ->
  exists toks, lex_tokens f tokens (mkState src i)
               = Some (toks, mkState src (i + length (K ++ c_eq :: Q)))
               /\ reads toks [(K, Plain V)].
Proof.
  intros Hsrc HK HV Hf tokens Htokens.
  destruct (keyedEntry_reads f src i K Q V rest Hsrc HK HV Hf) as (t & E & Ht).
  destruct f as [|f]; [lia|].
  exists [mkToken [inr (mkToken [inl K] (Some Key)); inl [c_eq]; inr t] (Some keyedEntry)].
  split; [|repeat constructor; easy].
  destruct Htokens as [->| ->]; unfold MAIN_TOKENS; cbn [lex_tokens].
  - rewrite (Comment_fails_on_key f src i K _ Hsrc HK). now rewrite E.
  - rewrite (Whitespace_fails_on_key f src i K _ Hsrc HK).
    rewrite (Comment_fails_on_key f src i K _ Hsrc HK). now rewrite E.
Qed.

Lemma reads_app a b d1 d2 : reads a d1 -> reads b d2 -> reads (a ++ b) (d1 ++ d2).
Proof. induction 1; simpl; intros; try constructor; auto. Qed.

Lemma lex_tokens_cons f tok rest st :
  lex_tokens f (tok :: rest) st
  = match extract f tok st with
    | None => None
    | Some (None, st) => lex_tokens f rest st
    | Some (Some val, st) =>
        match lex_tokens f rest st with
        | None => None
        | Some (vals, st) => Some (val :: vals, st)
        end
    end.
Proof. reflexivity. Qed.

Lemma lex_loop_end n f src i : length src <= i ->
  lex_loop n f (mkState src i) = Some ([], None).
Proof.
  intros H. destruct n; simpl; destruct (Nat.ltb_spec i (length src)); (lia || reflexivity).
Qed.

(** [parse] on a source that is one entry [K=Q]. *)
Lemma parse_single_entry K Q V extractDescriptions :
  valid_key K = true -> string_reads Q [] V ->
  parse (K ++ c_eq :: Q) extractDescriptions
  = Some (Return (assign extractDescriptions [] (K, Plain V))).
Proof.
  intros HK HQ. unfold parse, lex, extract_fuel.
  set (src := K ++ c_eq :: Q).
  assert (Hsrc : skipn 0 src = K ++ c_eq :: Q ++ []) by (now rewrite app_nil_r).
  assert (Hlen : 0 < length src).
  { unfold src. destruct (valid_key_inv K HK) as (c & r & -> & _). simpl. lia. }
  destruct (length src) as [|n] eqn:En; [lia|]. rewrite lex_loop_S, En.
  cbn [Nat.ltb Nat.leb].
  destruct (lex_tokens_entry (S n + 8) src 0 K Q V [] Hsrc HK HQ) with
    (tokens := MAIN_TOKENS) as (toks & E & Hr); [lia|now right|].
  rewrite E. cbn [index source]. fold src. rewrite En. cbn [Nat.eqb].
  rewrite lex_loop_end by (cbn; lia). rewrite app_nil_r. cbn [Nat.add].
  now rewrite (assemble_reads toks _ Hr).
Qed.

Lemma join_nl_cons p ps : join_nl (p :: ps) = p ++ concat (map (cons c_nl) ps).
Proof.
  revert p. induction ps as [|q ps IH]; intros p.
  - simpl. now rewrite app_nil_r.
  - change (join_nl (p :: q :: ps)) with (p ++ c_nl :: join_nl (q :: ps)).
    now rewrite IH.
Qed.

Lemma join_nl_following kv doc :
  serialize (kv :: doc) = serialize_entry kv ++ following doc.
Proof.
  unfold serialize, following. cbn [map]. now rewrite join_nl_cons, map_map.
Qed.

Lemma lex_following doc : Forall plain_entry doc ->
  forall n f src i,
    skipn i src = following doc -> length src - i <= n -> length src - i + 6 <= f ->
    exists toks, lex_loop n f (mkState src i) = Some (toks, None) /\ reads toks doc.
Proof.
  induction 1 as [|[K e] doc [HK (V & EV & HV)] _ IH]; intros n f src i Hsrc Hn Hf;
    pose proof (skipn_length_eq _ _ _ Hsrc) as Hlen; [|simpl in EV; subst e].
  - exists []. split; [|constructor]. simpl in Hlen. apply lex_loop_end. lia.
  - unfold following in Hsrc, Hlen. cbn [map concat serialize_entry fst snd] in Hsrc, Hlen.
    cbn [app] in Hsrc, Hlen. fold (following doc) in Hsrc, Hlen. simpl in HK.
    cbn [length] in Hlen.
    assert (E1 : skipn (i + 1) src = K ++ c_eq :: serializeString V ++ following doc).
    { apply (skipn_prefix i src [c_nl]). rewrite Hsrc. cbn [app].
      now rewrite <- !app_assoc. }
    destruct n as [|n]; [lia|]. rewrite lex_loop_S.
    destruct (Nat.ltb_spec i (length src)); [|lia].
    unfold MAIN_TOKENS. rewrite lex_tokens_cons.
    rewrite (Whitespace_runs f src i [c_nl] 1); [|rewrite Hsrc|lia].
    2:{ apply runs_last; [reflexivity|]. rewrite <- Hsrc, <- skipn_add, E1.
        destruct (valid_key_inv K HK) as (c & r & -> & Hc & _).
        unfold it_space. simpl. now rewrite alphaU_not_space. }
    destruct (lex_tokens_entry f src (i + 1) K (serializeString V) V (following doc) E1 HK
                (serialized_reads V _ HV)) with
      (tokens := [TOKENS Comment; TOKENS keyedEntry]) as (toks & E & Hr); [lia|now left|].
    rewrite E. cbn [index source].
    destruct (Nat.eqb_spec i (i + 1 + length (K ++ c_eq :: serializeString V))); [lia|].
    destruct (IH n f src (i + 1 + length (K ++ c_eq :: serializeString V)))
      as (more & E2 & Hm).
    + now apply (skipn_prefix _ _ (K ++ c_eq :: serializeString V)); rewrite E1, <- app_assoc.
    + lia.
    + lia.
    + rewrite E2. eexists. split; [reflexivity|].
      apply (reads_whitespace [c_nl]). now apply (reads_app toks more [(K, Plain V)] doc).
Qed.

(** The lexer on what [serialize] writes for entries without descriptions. *)
Lemma lex_serialize doc : Forall plain_entry doc ->
  exists toks, lex (serialize doc) = Some (toks, None) /\ reads toks doc.
Proof.
  intros Hdoc. destruct doc as [|[K e] doc].
  { exists []. split; [reflexivity|constructor]. }
  apply Forall_cons_iff in Hdoc as [[HK (V & E & HV)] Hdoc]. simpl in HK, E. subst e.
  unfold lex, extract_fuel. rewrite join_nl_following.
  set (src := serialize_entry (K, Plain V) ++ following doc).
  assert (Hsrc : skipn 0 src = K ++ c_eq :: serializeString V ++ following doc).
  { unfold src. cbn [serialize_entry skipn app]. now rewrite <- !app_assoc. }
  assert (Hlen : 0 < length src).
  { unfold src. destruct (valid_key_inv K HK) as (c & r & -> & _). simpl. lia. }
  destruct (length src) as [|n] eqn:En; [lia|]. rewrite lex_loop_S, En.
  cbn [Nat.ltb Nat.leb].
  destruct (lex_tokens_entry (S n + 8) src 0 K (serializeString V) V (following doc) Hsrc HK
              (serialized_reads V _ HV)) with
    (tokens := MAIN_TOKENS) as (toks & E & Hr); [lia|now right|].
  rewrite E. cbn [index source].
  pose proof (skipn_length_eq _ _ _ Hsrc) as Hl.
  destruct (valid_key_inv K HK) as (c & r & EK & _).
  destruct (Nat.eqb_spec 0 (0 + length (K ++ c_eq :: serializeString V)));
    [subst K; simpl in *; lia|].
  destruct (lex_following doc Hdoc n (S n + 8) src (0 + length (K ++ c_eq :: serializeString V)))
    as (more & E2 & Hm).
  - apply (skipn_prefix _ _ (K ++ c_eq :: serializeString V)). now rewrite Hsrc, <- app_assoc.
  - subst K. rewrite En. simpl. lia.
  - lia.
  - rewrite E2. eexists. split; [reflexivity|].
    now apply (reads_app toks more [(K, Plain V)] doc).
Qed.

(** ** The object [parse] builds *)

Lemma obj_assign_cases (m : DotEnvObj) k v :
  (In k (map fst m) /\ map fst (obj_assign m k v) = map fst m)
  \/ (~ In k (map fst m) /\ obj_assign m k v = m ++ [(k, v)]).
Proof.
  induction m as [|[k' v'] m IH]; simpl; [right; tauto|].
  destruct (jstring_eqb k' k) eqn:E.
  - apply jstring_eqb_eq in E. subst k'. left. simpl. tauto.
  - assert (k' <> k) by (intros ->; now rewrite jstring_eqb_refl in E).
    destruct IH as [[H1 H2]|[H1 H2]].
    + left. simpl. split; [tauto|congruence].
    + right. split; [tauto|congruence].
Qed.

Lemma obj_assign_Forall (P : jstring * Entry -> Prop) m k v :
  Forall P m -> P (k, v) -> Forall P (obj_assign m k v).
Proof.
  intros Hm Hkv. induction Hm as [|[k' v'] m Hx Hm IH]; simpl; [repeat constructor; easy|].
  destruct (jstring_eqb k' k) eqn:E.
  - apply jstring_eqb_eq in E. subst k'. now constructor.
  - now constructor.
Qed.

Lemma obj_set_fresh m k v :
  k <> proto -> ~ In k (map fst m) -> obj_set m k v = m ++ [(k, v)].
Proof.
  intros Hk Hin. unfold obj_set. fold proto. rewrite jstring_eqb_neq by easy.
  destruct (obj_assign_cases m k v) as [[H _]|[_ H]]; [contradiction|easy].
Qed.

Lemma obj_set_parsed m K V :
  parsed_doc m -> valid_key K = true -> parsed_doc (obj_set m K (Plain V)).
Proof.
  intros [Hnd Hall] HK. unfold obj_set. fold proto.
  destruct (jstring_eqb K proto) eqn:E; [now split|].
  assert (K <> proto) by (intros ->; now rewrite jstring_eqb_refl in E).
  split.
  - destruct (obj_assign_cases m K (Plain V)) as [[_ ->]|[Hin ->]]; [easy|].
    rewrite map_app. simpl. apply NoDup_app; [easy|repeat constructor; easy|].
    intros k Hk [<-|[]]. contradiction.
  - apply obj_assign_Forall; [easy|]. repeat split; try easy. now exists V.
Qed.

Lemma assemble_parsed entries : Forall lexed_token entries ->
  forall lastDescription map map',
    parsed_doc map -> assemble false entries lastDescription map = Return map' ->
    parsed_doc map'.
Proof.
  induction 1 as [|entry entries He _ IH]; intros d m m' Hm; [now intros [= <-]|].
  destruct He as [s| |s|K HK|K val HK Hval]; cbn -[trim]; try (now apply IH); try easy.
  - apply IH. now apply obj_set_parsed.
  - destruct (parseString_String_token val Hval) as (s & E).
    cbn [parseString] in E. rewrite E. apply IH. now apply obj_set_parsed.
Qed.

Lemma parse_parsed_doc source doc :
  parse source false = Some (Return doc) -> parsed_doc doc.
Proof.
  unfold parse. destruct (lex_total source) as (vals & c & -> & Hv).
  destruct (assemble false vals [] []) as [m| |] eqn:E; try discriminate.
  destruct c; [discriminate|]. intros [= <-].
  apply (assemble_parsed vals Hv [] [] m); [|easy]. split; constructor.
Qed.

Lemma fold_assign_fresh doc : forall m,
  NoDup (map fst (m ++ doc)) -> Forall (fun kv => fst kv <> proto) doc ->
  fold_left (assign false) doc m = m ++ doc.
Proof.
  induction doc as [|[k v] doc IH]; intros m Hnd Hp; simpl.
  - now rewrite app_nil_r.
  - apply Forall_cons_iff in Hp as [Hk Hp]. simpl in Hk.
    unfold assign at 2. cbn [fst snd].
    rewrite obj_set_fresh; [|easy|].
    + rewrite IH; [now rewrite <- app_assoc| now rewrite <- app_assoc|easy].
    + rewrite map_app in Hnd. simpl in Hnd. apply NoDup_remove_2 in Hnd.
      intros Hin. apply Hnd, in_or_app. now left.
Qed.

(** ** Values without control characters *)

Lemma json_safe_intro n : forall V, length V <= n ->
  existsb is_control V = false -> no_lone_surrogate V = true -> json_safe V = true.
Proof.
  induction n as [|n IH]; intros V Hn Hc Hs.
  { now destruct V; [|simpl in Hn; lia]. }
  destruct V as [|c V]; [easy|]. simpl in *.
  apply orb_false_iff in Hc as [Hc HcV].
  destruct (is_lead c) eqn:Hl.
  - destruct V as [|d V']; [discriminate|]. apply andb_true_iff in Hs as [Hd Hs].
    rewrite Hd. simpl in *. apply orb_false_iff in HcV as [_ HcV]. apply IH; [lia|easy|easy].
  - apply andb_true_iff in Hs as [Ht Hs]. rewrite IH by (lia || easy).
    unfold json_unit_safe. rewrite Hl, Ht. unfold is_control in Hc.
    apply N.ltb_ge in Hc. apply N.leb_le in Hc. now rewrite Hc.
Qed.

(** ** The escaped form [JSON.stringify] writes *)

Lemma well_escaped_plain c l :
  (32 <= c)%N -> c <> c_dq -> c <> c_bsl -> well_escaped (c :: l) = well_escaped l.
Proof.
  intros H1 H2 H3. simpl.
  destruct (N.eqb_spec c c_bsl); [easy|]. destruct (N.eqb_spec c c_dq); [easy|].
  destruct (N.ltb_spec c 32); [lia|]. reflexivity.
Qed.

Lemma hex_digit_plain n l : (n < 16)%N -> well_escaped (hex_digit n :: l) = well_escaped l.
Proof.
  intros Hn. unfold hex_digit.
  destruct (N.ltb_spec n 10); apply well_escaped_plain; unfold c_dq, c_bsl; lia.
Qed.

Lemma well_escaped_bsl x l : well_escaped (c_bsl :: x :: l) = well_escaped l.
Proof. reflexivity. Qed.

Lemma well_escaped_quote_unit c l : well_escaped (quote_unit c ++ l) = well_escaped l.
Proof.
  unfold quote_unit.
  destruct (N.eqb_spec c c_bs); [reflexivity|]. destruct (N.eqb_spec c c_tab); [reflexivity|].
  destruct (N.eqb_spec c c_nl); [reflexivity|]. destruct (N.eqb_spec c c_ff); [reflexivity|].
  destruct (N.eqb_spec c c_cr); [reflexivity|]. destruct (N.eqb_spec c c_dq); [reflexivity|].
  destruct (N.eqb_spec c c_bsl); [reflexivity|].
  destruct ((c <? 32)%N || is_lead c || is_trail c) eqn:E.
  - unfold unicode_escape. cbn [app]. rewrite well_escaped_bsl.
    rewrite !hex_digit_plain by (apply N.mod_lt; discriminate). reflexivity.
  - apply orb_false_iff in E as [E _]. apply orb_false_iff in E as [E _].
    apply N.ltb_ge in E. now apply well_escaped_plain.
Qed.

Lemma well_escaped_quote_body n : forall V, length V <= n -> well_escaped (quote_body V) = true.
Proof.
  induction n as [|n IH]; intros V Hn.
  { now destruct V; [|simpl in Hn; lia]. }
  destruct V as [|c V]; [easy|]. simpl in Hn. cbn [quote_body].
  destruct (is_lead c) eqn:Hl.
  - destruct V as [|d V']; [now rewrite <- (app_nil_r (quote_unit c)), well_escaped_quote_unit|].
    destruct (is_trail d) eqn:Hd.
    + unfold is_lead in Hl. unfold is_trail in Hd.
      apply andb_true_iff in Hl as [Hl _]. apply andb_true_iff in Hd as [Hd _].
      apply N.leb_le in Hl, Hd. simpl in Hn.
      rewrite !well_escaped_plain by (unfold c_dq, c_bsl; lia). apply IH. lia.
    + rewrite well_escaped_quote_unit. apply IH. lia.
  - rewrite well_escaped_quote_unit. apply IH. lia.
Qed.

(** *** Reading the escaped form back *)

Lemma hex_value_digit n : (n < 16)%N -> hex_value (hex_digit n) = Some n.
Proof.
  intros Hn. unfold hex_digit, hex_value. destruct (N.ltb_spec n 10).
  - replace ((48 <=? 48 + n) && (48 + n <=? 57))%N with true; [f_equal; lia|].
    symmetry. apply andb_true_iff. split; apply N.leb_le; lia.
  - replace ((48 <=? 87 + n) && (87 + n <=? 57))%N with false.
    + replace ((97 <=? 87 + n) && (87 + n <=? 102))%N with true; [f_equal; lia|].
      symmetry. apply andb_true_iff. split; apply N.leb_le; lia.
    + symmetry. apply andb_false_iff. right. apply N.leb_gt. lia.
Qed.

Lemma hex_digits_value c : (c < 65536)%N ->
  ((((c / 4096) mod 16 * 16 + (c / 256) mod 16) * 16 + (c / 16) mod 16) * 16 + c mod 16 = c)%N.
Proof.
  intros Hc.
  pose proof (N.div_mod c 16 ltac:(lia)) as E0.
  pose proof (N.div_mod (c / 16) 16 ltac:(lia)) as E1.
  pose proof (N.div_mod (c / 16 / 16) 16 ltac:(lia)) as E2.
  rewrite N.Div0.div_div in E1, E2. rewrite N.Div0.div_div in E2.
  change (16 * 16)%N with 256%N in *. change (256 * 16)%N with 4096%N in *.
  assert (H3 : (c / 4096 < 16)%N) by (apply N.Div0.div_lt_upper_bound; lia).
  rewrite (N.mod_small (c / 4096) 16 H3). lia.
Qed.

Lemma json_unquote_unicode_escape c l : (c < 65536)%N ->
  json_unquote (unicode_escape c ++ l) = option_map (cons c) (json_unquote l).
Proof.
  intros Hc. unfold unicode_escape. cbn [app json_unquote].
  change (c_bsl =? c_bsl)%N with true. change (ch "u" =? ch "u")%N with true. cbv iota.
  rewrite !hex_value_digit by (apply N.mod_lt; lia).
  now rewrite hex_digits_value.
Qed.

Lemma json_unquote_plain c l :
  (32 <=? c)%N = true -> (c =? c_dq)%N = false -> (c =? c_bsl)%N = false ->
  json_unquote (c :: l) = option_map (cons c) (json_unquote l).
Proof.
  intros H1 H2 H3. cbn [json_unquote]. rewrite H2, H3.
  apply N.leb_le in H1. now destruct (N.ltb_spec c 32); [lia|].
Qed.

Lemma json_unquote_quote_unit c l :
  json_unquote (quote_unit c ++ l) = option_map (cons c) (json_unquote l).
Proof.
  unfold quote_unit.
  destruct (N.eqb_spec c c_bs) as [->|?]; [reflexivity|].
  destruct (N.eqb_spec c c_tab) as [->|?]; [reflexivity|].
  destruct (N.eqb_spec c c_nl) as [->|?]; [reflexivity|].
  destruct (N.eqb_spec c c_ff) as [->|?]; [reflexivity|].
  destruct (N.eqb_spec c c_cr) as [->|?]; [reflexivity|].
  destruct (N.eqb_spec c c_dq) as [->|?]; [reflexivity|].
  destruct (N.eqb_spec c c_bsl) as [->|?]; [reflexivity|].
  destruct ((c <? 32)%N || is_lead c || is_trail c) eqn:E.
  - apply json_unquote_unicode_escape.
    apply orb_true_iff in E as [E|E]; [apply orb_true_iff in E as [E|E]|].
    + apply N.ltb_lt in E. lia.
    + unfold is_lead in E. apply andb_true_iff in E as [_ E]. apply N.leb_le in E. lia.
    + unfold is_trail in E. apply andb_true_iff in E as [_ E]. apply N.leb_le in E. lia.
  - apply orb_false_iff in E as [E _]. apply orb_false_iff in E as [E _].
    apply N.ltb_ge in E. apply json_unquote_plain.
    + now apply N.leb_le.
    + now apply N.eqb_neq.
    + now apply N.eqb_neq.
Qed.

Lemma json_unquote_quote_body n : forall V, length V <= n ->
  json_unquote (quote_body V) = Some V.
Proof.
  induction n as [|n IH]; intros V Hn.
  { now destruct V; [|simpl in Hn; lia]. }
  destruct V as [|c V]; [easy|]. simpl in Hn. cbn [quote_body].
  destruct (is_lead c) eqn:Hl.
  - destruct V as [|d V'].
    { now rewrite <- (app_nil_r (quote_unit c)), json_unquote_quote_unit. }
    destruct (is_trail d) eqn:Hd.
    + unfold is_lead in Hl. unfold is_trail in Hd.
      apply andb_true_iff in Hl as [Hl _]. apply andb_true_iff in Hd as [Hd _].
      apply N.leb_le in Hl, Hd. simpl in Hn.
      rewrite !json_unquote_plain;
        try (apply N.leb_le; lia); try (apply N.eqb_neq; unfold c_dq, c_bsl; lia).
      rewrite IH by lia. reflexivity.
    + rewrite json_unquote_quote_unit, IH by lia. reflexivity.
  - rewrite json_unquote_quote_unit, IH by lia. reflexivity.
Qed.

Lemma quote_body_plain V : forallb plain_unit V = true -> quote_body V = V.
Proof.
  induction V as [|c V IH]; [reflexivity|]. cbn [forallb quote_body].
  intros [Hc HV]%andb_true_iff. unfold plain_unit in Hc.
  apply andb_true_iff in Hc as [Hc Ht]. apply andb_true_iff in Hc as [Hc Hl].
  apply andb_true_iff in Hc as [Hc Hb]. apply andb_true_iff in Hc as [Hc Hq].
  apply negb_true_iff in Ht, Hl, Hb, Hq. apply N.leb_le in Hc.
  rewrite Hl, IH by easy. unfold quote_unit. rewrite Hq, Hb, Hl, Ht.
  destruct (N.eqb_spec c c_bs) as [->|?]; [unfold c_bs in Hc; lia|].
  destruct (N.eqb_spec c c_tab) as [->|?]; [unfold c_tab in Hc; lia|].
  destruct (N.eqb_spec c c_nl) as [->|?]; [unfold c_nl in Hc; lia|].
  destruct (N.eqb_spec c c_ff) as [->|?]; [unfold c_ff in Hc; lia|].
  destruct (N.eqb_spec c c_cr) as [->|?]; [unfold c_cr in Hc; lia|].
  now destruct (N.ltb_spec c 32); [lia|].
Qed.

(** ** The defensive branch of [parseString] *)

Lemma hd_split_nl l :
  length (hd [] (split_nl l)) <= length l /\ ~ In c_nl (hd [] (split_nl l)).
Proof.
  induction l as [|c l [IH1 IH2]]; simpl; [split; [lia|easy]|].
  destruct (N.eqb_spec c c_nl); simpl; [split; [lia|easy]|].
  destruct (split_nl l) as [|line lines]; simpl in *.
  - split; [lia|]. intros [H|[]]. congruence.
  - split; [lia|]. intros [H|H]; [congruence|easy].
Qed.

Lemma line_preview_short source index :
  length (line_preview source index) <= 25 /\ ~ In c_nl (line_preview source index).
Proof.
  unfold line_preview, substr.
  destruct (hd_split_nl (firstn 25 (skipn index source))) as [H1 H2]. split; [|easy].
  pose proof (firstn_le_length 25 (skipn index source)). lia.
Qed.

(** An opening double quote at the end of the source. *)
Lemma open_quote_reads : string_reads [c_dq] [] [].
Proof.
  intros f src i Hsrc Hf. pose proof (skipn_length_eq _ _ _ Hsrc) as Hlen. simpl in Hlen.
  assert (E1 : skipn (i + 1) src = []) by apply (skipn_prefix i src [c_dq]), Hsrc.
  destruct f as [|[|f]]; try lia. rewrite String_step.
  rewrite UnquotedString_fails by (rewrite ?Hsrc; easy || lia).
  rewrite EmptyString_step. unfold substr. rewrite Hsrc.
  change (jstring_eqb _ _) with false. cbv iota.
  rewrite (quoted_step QuotedString QuotedStringChars c_dq eq_refl eq_refl), Hsrc.
  cbn [app]. rewrite starts_with_cons. change (c_dq =? c_dq)%N with true. cbv iota.
  rewrite QuotedStringChars_fails by (rewrite ?E1; easy || lia).
  eexists. split; reflexivity.
Qed.

Lemma escape_letters e :
  class_matches re_escape e = true <-> In e (map fst escape_table).
Proof.
  unfold class_matches, re_escape. cbn [negated items existsb item_matches xorb map fst escape_table In].
  rewrite !orb_true_iff, !N.eqb_eq. intuition congruence.
Qed.

(** ** The claims of the specification *)

(** C1 (as amended).  A document returned by [parse] without descriptions,
    whose values contain no control character and no unpaired surrogate
    code unit, is read back from what [serialize] writes for it. *)
Theorem parse_serialize_roundtrip (source : jstring) (doc : DotEnvObj) :
  parse source false = Some (Return doc) ->
  (forall K e, In (K, e) doc ->
     existsb is_control (entry_value e) = false
     /\ no_lone_surrogate (entry_value e) = true) ->
  parse (serialize doc) false = Some (Return doc).
Proof.
  intros Hp Hsafe. destruct (parse_parsed_doc _ _ Hp) as [Hnd Hall].
  assert (Hplain : Forall plain_entry doc).
  { apply Forall_forall. intros [K e] Hin.
    pose proof (proj1 (Forall_forall _ _) Hall _ Hin) as (HK & _ & V & EV).
    simpl in HK, EV. subst e. destruct (Hsafe K (Plain V) Hin) as [Hc Hs]. simpl in Hc, Hs.
    split; [easy|]. exists V. split; [easy|]. unfold roundtrips.
    rewrite (json_safe_intro (length V) V (le_n _) Hc Hs). apply orb_true_r. }
  destruct (lex_serialize doc Hplain) as (toks & E & Hr).
  unfold parse. rewrite E, (assemble_reads toks doc Hr false []).
  rewrite fold_assign_fresh; [reflexivity|easy|].
  apply Forall_forall. intros kv Hin.
  now pose proof (proj1 (Forall_forall _ _) Hall _ Hin) as (_ & Hk & _).
Qed.

Lemma parse_serialize_roundtrip_witness :
  parse (serialize [(js "A", Plain (js "it's")); (js "B_2", Plain [c_dq; c_bsl])]) false
  = Some (Return [(js "A", Plain (js "it's")); (js "B_2", Plain [c_dq; c_bsl])]).
Proof.
  apply (parse_serialize_roundtrip
           (js "A=it's" ++ [c_nl] ++ js "B_2='" ++ [c_dq; c_bsl] ++ js "'")).
  - vm_compute. reflexivity.
  - intros K e [[= <- <-]|[[= <- <-]|[]]]; vm_compute; split; reflexivity.
Defined.

(** C1, as stated, fails: the value of [A] below is returned by [parse],
    has no control character, and is a lone surrogate, which
    [JSON.stringify] writes as [\ud800]; the grammar has no such escape. *)
Lemma lone_surrogate_not_read_back :
  parse (js "A=" ++ [55296%N]) false = Some (Return [(js "A", Plain [55296%N])])
  /\ existsb is_control [55296%N] = false
  /\ parse (serialize [(js "A", Plain [55296%N])]) false
     <> Some (Return [(js "A", Plain [55296%N])]).
Proof. repeat split; try (vm_compute; reflexivity). vm_compute. discriminate. Qed.

(** C2 (as amended).  For a key of the grammar other than [__proto__] and a
    value that either contains a newline and no apostrophe, or contains no
    unpaired surrogate and below U+0020 only backspace, tab, newline, form
    feed and carriage return, parsing [serialize({K: V})] yields [{K: V}]. *)
Theorem serialize_parse_value (K V : jstring) :
  valid_key K = true -> K <> proto -> roundtrips V = true ->
  parse (serialize [(K, Plain V)]) false = Some (Return [(K, Plain V)]).
Proof.
  intros HK Hp HV.
  change (serialize [(K, Plain V)]) with (K ++ c_eq :: serializeString V).
  rewrite (parse_single_entry K (serializeString V) V false HK (serialized_reads V [] HV)).
  unfold assign. cbn [fst snd]. now rewrite obj_set_fresh.
Qed.

Lemma serialize_parse_value_witness :
  parse (serialize [(js "KEY_1", Plain (js "it's a " ++ [c_dq; c_nl; c_bsl]))]) false
  = Some (Return [(js "KEY_1", Plain (js "it's a " ++ [c_dq; c_nl; c_bsl]))]).
Proof.
  apply (serialize_parse_value (js "KEY_1") (js "it's a " ++ [c_dq; c_nl; c_bsl])).
  - reflexivity.
  - discriminate.
  - reflexivity.
Defined.

(** C2, as stated, fails: U+0001 is written [\u0001], which the grammar
    does not read. *)
Lemma control_character_not_read_back :
  valid_key (js "A") = true
  /\ parse (serialize [(js "A", Plain [1%N])]) false
     = Some (Throw (Error (js "Unexpected token \, at char 3 (line: \u0001" ++ [c_dq] ++ js ")")))
  /\ parse (serialize [(js "A", Plain [1%N])]) false <> Some (Return [(js "A", Plain [1%N])]).
Proof. repeat split; try (vm_compute; reflexivity). vm_compute. discriminate. Qed.

(** The key [__proto__] is a key of the grammar, and the assignment in
    [parse] stores nothing under it. *)
Lemma proto_key_not_stored :
  valid_key proto = true
  /\ parse (js "__proto__=x") false = Some (Return [])
  /\ parse (serialize [(proto, Plain (js "x"))]) false = Some (Return []).
Proof. repeat split; vm_compute; reflexivity. Qed.

(** C3 (as amended).  In the tokens of any source, the [String] capture of
    a keyed entry takes the defensive branch of [parseString] exactly when
    it is an [EmptyString] token or a [QuotedString] or
    [SingleQuotedString] token made of its opening quote alone; every other
    capture that is not unquoted has three elements. *)
Theorem fallback_captures (source : jstring) entries completion entry val :
  lex source = Some (entries, completion) -> In entry entries ->
  token entry = Some keyedEntry -> elem_at (value entry) 2 = JSObject val ->
  String_token val
  /\ (takes_fallback (JSObject val) = true
      <-> val = mkToken [inl [c_dq; c_dq]] (Some EmptyString)
          \/ val = mkToken [inl [c_dq]] (Some QuotedString)
          \/ val = mkToken [inl [c_sq]] (Some SingleQuotedString)).
Proof.
  intros Hlex Hin Htok Hval.
  destruct (lex_total source) as (vals & c & E & Hv). rewrite Hlex in E. injection E as <- <-.
  pose proof (proj1 (Forall_forall _ _) Hv _ Hin) as He.
  destruct He as [s| |s|K HK|K v HK Hv']; try discriminate.
  injection Hval as <-. split; [easy|].
  destruct Hv'; cbn; (split; [intros H; try discriminate H; auto
                            |intros [H|[H|H]]; (discriminate H || reflexivity)]).
Qed.

Lemma fallback_captures_witness :
  String_token (mkToken [inl [c_dq]] (Some QuotedString))
  /\ (takes_fallback (JSObject (mkToken [inl [c_dq]] (Some QuotedString))) = true
      <-> mkToken [inl [c_dq]] (Some QuotedString) = mkToken [inl [c_dq; c_dq]] (Some EmptyString)
          \/ mkToken [inl [c_dq]] (Some QuotedString) = mkToken [inl [c_dq]] (Some QuotedString)
          \/ mkToken [inl [c_dq]] (Some QuotedString) = mkToken [inl [c_sq]] (Some SingleQuotedString)).
Proof.
  apply (fallback_captures (js "A=" ++ [c_dq])
           [mkToken [inr (mkToken [inl (js "A")] (Some Key)); inl [c_eq];
                     inr (mkToken [inl [c_dq]] (Some QuotedString))] (Some keyedEntry)]
           None
           (mkToken [inr (mkToken [inl (js "A")] (Some Key)); inl [c_eq];
                     inr (mkToken [inl [c_dq]] (Some QuotedString))] (Some keyedEntry))).
  - vm_compute. reflexivity.
  - simpl. left. reflexivity.
  - reflexivity.
  - reflexivity.
Defined.

(** C3, as stated, fails: [A=""] is accepted and its capture, an
    [EmptyString] token of one element, takes the defensive branch. *)
Lemma empty_string_takes_fallback :
  parse (js "A=" ++ [c_dq; c_dq]) false = Some (Return [(js "A", Plain [])])
  /\ fallback_taken (js "A=" ++ [c_dq; c_dq]) = true.
Proof. split; vm_compute; reflexivity. Qed.

(** A source that starts with [#] and then a newline or nothing: the lexer
    yields a [Comment] token without [CommentChars] and the assembler
    throws on it, whatever follows. *)
Lemma bare_comment_line (rest : jstring) (extractDescriptions : bool) :
  it_not_nl rest = None ->
  parse (c_hash :: rest) extractDescriptions = Some (Throw TypeError).
Proof.
  intros Hrest. unfold parse, lex, extract_fuel. set (src := c_hash :: rest).
  change (length src) with (S (length rest)). rewrite lex_loop_S.
  change (length src) with (S (length rest)). cbn [Nat.ltb Nat.leb Nat.add].
  unfold MAIN_TOKENS. rewrite lex_tokens_cons.
  rewrite Whitespace_fails by (reflexivity || lia).
  rewrite lex_tokens_cons, Comment_step. change (starts_with c_hash (skipn 0 src)) with true.
  cbv iota. rewrite CommentChars_fails by (easy || lia).
  destruct (lex_tokens_cases [TOKENS keyedEntry]
              (Forall_inv_tail (Forall_inv_tail MAIN_TOKENS_top_level))
              (S (length rest + 8)) src (0 + 1)) as (vals & j & E & _ & Hj).
  { change (length src) with (S (length rest)). lia. }
  rewrite E. cbn [index source]. destruct (Nat.eqb_spec 0 j); [lia|].
  destruct (lex_loop_cases (length rest) (S (length rest + 8)) src j) as (more & c & E2 & _).
  { change (length src) with (S (length rest)). lia. }
  { change (length src) with (S (length rest)). lia. }
  rewrite E2. reflexivity.
Qed.

(** C4.  Consecutive comments accumulate into one description, yet on a
    comment made of [#] alone [entry.value[1]] is [undefined] and the
    assembler throws a [TypeError], whatever the rest of the source. *)
Theorem bare_comment_throws :
  parse (js "# line one" ++ [c_nl] ++ js "# line two" ++ [c_nl] ++ js "A=x") true
  = Some (Return [(js "A", Described (Some (js "line one" ++ [c_nl] ++ js "line two")) (js "x"))])
  /\ (forall extractDescriptions, parse (js "#") extractDescriptions = Some (Throw TypeError))
  /\ (forall rest extractDescriptions,
        parse (js "#" ++ [c_nl] ++ rest) extractDescriptions = Some (Throw TypeError))
  /\ parse (js "#" ++ [c_nl] ++ js "A=x") true = Some (Throw TypeError).
Proof.
  split; [vm_compute; reflexivity|]. split; [|split].
  - intros b. now apply (bare_comment_line []).
  - intros rest b. now apply (bare_comment_line (c_nl :: rest)).
  - vm_compute. reflexivity.
Qed.

(** C5 (as amended).  [parse("A#B")] throws an error whose message names
    the character and the offset at which the failed iteration of the lexer
    started, [A] at offset 0, with the preview [A#B]; a preview never has
    more than 25 characters nor a newline. *)
Theorem unexpected_token_at_iteration_start :
  parse (js "A#B") false
  = Some (Throw (Error (js "Unexpected token A, at char 0 (line: A#B)")))
  /\ forall source index,
       length (line_preview source index) <= 25 /\ ~ In c_nl (line_preview source index).
Proof. split; [vm_compute; reflexivity|apply line_preview_short]. Qed.

(** C5, as stated, fails: the message does not report offset 1. *)
Lemma unexpected_token_offset_not_1 :
  parse (js "A#B") false = Some (Throw (Error (unexpected_token (js "A#B") 0 0)))
  /\ parse (js "A#B") false <> Some (Throw (Error (unexpected_token (js "A#B") 1 1))).
Proof. split; [vm_compute; reflexivity|vm_compute; discriminate]. Qed.

(** C6.  Whatever the rule and the cursor, a failed extraction leaves the
    state of the caller as it was; the cursor moves, forwards, only when the
    rule succeeds, and the source is never changed. *)
Theorem extract_failure_keeps_cursor (fuel : nat) (rule : TokenDef) (state state' : State) r :
  extract fuel rule state = Some (r, state') ->
  (r = None -> state' = state)
  /\ source state' = source state /\ index state <= index state'.
Proof.
  intros H. destruct r as [v|].
  - apply extract_success_state in H. split; [discriminate|easy].
  - apply extract_failure_state in H. subst. auto.
Qed.

Lemma extract_failure_keeps_cursor_witness :
  (@None Token = None -> mkState (js "A#B") 0 = mkState (js "A#B") 0)
  /\ js "A#B" = js "A#B" /\ 0 <= 0.
Proof.
  apply (extract_failure_keeps_cursor 8 (TOKENS keyedEntry) (mkState (js "A#B") 0)
           (mkState (js "A#B") 0) None).
  vm_compute. reflexivity.
Defined.

(** C7.  [EscapedChars] accepts a backslash followed by one of seven
    letters and nothing else, and the replacer decodes the pair as the
    table says; between single quotes every character other than the
    apostrophe is kept as it is. *)
Theorem escape_decoding :
  (forall e, class_matches re_escape e = true <-> In e (map fst escape_table))
  /\ (forall e d, In (e, d) escape_table ->
        parse (js "A=" ++ [c_dq; c_bsl; e; c_dq]) false = Some (Return [(js "A", Plain [d])]))
  /\ (forall f src i e l d, skipn i src = c_bsl :: e :: l -> In (e, d) escape_table ->
        extract (S f) (TOKENS EscapedChars) (mkState src i)
        = Some (Some (mkToken [inl [d]] None), mkState src (i + 2)))
  /\ (forall f src i e l, skipn i src = c_bsl :: e :: l -> ~ In e (map fst escape_table) ->
        extract (S f) (TOKENS EscapedChars) (mkState src i) = Some (None, mkState src i))
  /\ (forall V, V <> [] -> includes V c_sq = false ->
        parse (js "A='" ++ V ++ js "'") false = Some (Return [(js "A", Plain V)]))
  /\ parse (js "A='a\nb'") false = Some (Return [(js "A", Plain [ch "a"; c_bsl; ch "n"; ch "b"])]).
Proof.
  split; [exact escape_letters|]. split; [|split; [|split; [|split]]].
  - intros e d H. simpl in H.
    repeat (destruct H as [[= <- <-]|H]; [vm_compute; reflexivity|]). easy.
  - intros f src i e l d Hsrc H. rewrite EscapedChars_spec, Hsrc. simpl in H.
    repeat (destruct H as [[= <- <-]|H]; [reflexivity|]). easy.
  - intros f src i e l Hsrc H. rewrite EscapedChars_spec, Hsrc.
    destruct (class_matches re_escape e) eqn:E; [now apply escape_letters in E|].
    now rewrite andb_false_r.
  - intros V HV Hsq.
    change (js "A='" ++ V ++ js "'") with (js "A" ++ c_eq :: (c_sq :: V ++ [c_sq])).
    rewrite (parse_single_entry (js "A") (c_sq :: V ++ [c_sq]) V false eq_refl); [reflexivity|].
    intros f src i Hsrc Hf. now apply (String_single_quoted f src i V []).
  - vm_compute. reflexivity.
Qed.

Lemma escape_decoding_witness :
  parse (js "A='" ++ js "a\tb" ++ js "'") false = Some (Return [(js "A", Plain (js "a\tb"))]).
Proof.
  apply (proj1 (proj2 (proj2 (proj2 (proj2 escape_decoding)))) (js "a\tb")).
  - discriminate.
  - reflexivity.
Defined.

(** C8.  An entry is written as its comment lines, the key, [=] and the
    value: between single quotes and unchanged when the value has a
    newline and no apostrophe, and otherwise between double quotes as an
    escaped text of the value.  In that text every double quote, backslash
    and character below U+0020 is behind a backslash; read as the body of
    a JSON string it stands for the value, whatever the value; and a value
    without double quote, backslash, character below U+0020 and surrogate
    is written as it is. *)
Theorem quoting_policy (K : jstring) (e : Entry) :
  (exists comments, serialize_entry (K, e) = comments ++ K ++ c_eq :: serializeString (entry_value e))
  /\ (includes (entry_value e) c_nl = true -> includes (entry_value e) c_sq = false ->
      serializeString (entry_value e) = c_sq :: entry_value e ++ [c_sq])
  /\ (includes (entry_value e) c_nl = false \/ includes (entry_value e) c_sq = true ->
      exists body,
        serializeString (entry_value e) = c_dq :: body ++ [c_dq]
        /\ well_escaped body = true
        /\ json_unquote body = Some (entry_value e)
        /\ (forallb plain_unit (entry_value e) = true -> body = entry_value e)).
Proof.
  split; [|split].
  - destruct e as [v|d v]; eexists; reflexivity.
  - intros H1 H2. unfold serializeString. now rewrite H1, H2.
  - intros H. exists (quote_body (entry_value e)). split; [|split; [|split]].
    + unfold serializeString. destruct H as [-> | ->]; [reflexivity|].
      now rewrite andb_false_r.
    + now apply (well_escaped_quote_body (length (entry_value e))).
    + now apply (json_unquote_quote_body (length (entry_value e))).
    + apply quote_body_plain.
Qed.

Lemma quoting_policy_witness :
  serializeString (js "a" ++ [c_nl] ++ js "b") = c_sq :: (js "a" ++ [c_nl] ++ js "b") ++ [c_sq]
  /\ (exists body,
       serializeString (js "it's" ++ [c_nl; c_dq; c_bsl; 1%N])
       = c_dq :: body ++ [c_dq]
       /\ well_escaped body = true
       /\ json_unquote body = Some (js "it's" ++ [c_nl; c_dq; c_bsl; 1%N])
       /\ (forallb plain_unit (js "it's" ++ [c_nl; c_dq; c_bsl; 1%N]) = true ->
           body = js "it's" ++ [c_nl; c_dq; c_bsl; 1%N]))
  /\ serializeString (js "plain value") = c_dq :: js "plain value" ++ [c_dq].
Proof.
  split; [|split].
  - apply (proj1 (proj2 (quoting_policy (js "A") (Plain (js "a" ++ [c_nl] ++ js "b")))));
      reflexivity.
  - apply (proj2 (proj2 (quoting_policy (js "A")
                           (Plain (js "it's" ++ [c_nl; c_dq; c_bsl; 1%N]))))).
    right. reflexivity.
  - destruct (proj2 (proj2 (quoting_policy (js "A") (Plain (js "plain value"))))
                (or_introl eq_refl)) as (body & E & _ & _ & Hb).
    etransitivity; [exact E|]. rewrite (Hb eq_refl). reflexivity.
Defined.

(** C9 (as amended).  A key of the grammar other than [__proto__], [=]
    and an opening double quote at the end of the source are accepted: the
    [QuotedString] capture is the quote alone, the decoder returns the
    empty string for it and [parse] returns the object whose one entry is
    the key with the empty string. *)
Theorem unterminated_double_quote (K : jstring) (extractDescriptions : bool) :
  valid_key K = true -> K <> proto ->
  parse (K ++ [c_eq; c_dq]) extractDescriptions
  = Some (Return [(K, if extractDescriptions then Described None [] else Plain [])])
  /\ lex (js "A=" ++ [c_dq])
     = Some ([mkToken [inr (mkToken [inl (js "A")] (Some Key)); inl [c_eq];
                       inr (mkToken [inl [c_dq]] (Some QuotedString))] (Some keyedEntry)],
             None)
  /\ parseString (JSObject (mkToken [inl [c_dq]] (Some QuotedString))) = inr (JSString []).
Proof.
  intros HK Hp. split; [|split; vm_compute; reflexivity].
  rewrite (parse_single_entry K [c_dq] [] extractDescriptions HK open_quote_reads).
  unfold assign. cbn [fst snd]. rewrite obj_set_fresh by easy. reflexivity.
Qed.

Lemma unterminated_double_quote_witness :
  parse (js "A=" ++ [c_dq]) false = Some (Return [(js "A", Plain [])]).
Proof.
  apply (proj1 (unterminated_double_quote (js "A") false eq_refl ltac:(discriminate))).
Defined.

(** C9, as stated, fails for the key [__proto__]: the source is accepted,
    but the assignment stores nothing and the object returned is empty. *)
Lemma proto_key_unterminated_quote :
  valid_key proto = true
  /\ parse (proto ++ [c_eq; c_dq]) false = Some (Return [])
  /\ parse (proto ++ [c_eq; c_dq]) false <> Some (Return [(proto, Plain [])]).
Proof. repeat split; try (vm_compute; reflexivity). vm_compute. discriminate. Qed.

(** C10.  [A=''] is rejected: the [SingleQuotedString] capture is the
    opening apostrophe alone, the entry ends there, and the lexer is stuck
    on the second apostrophe, at offset 3. *)
Theorem empty_single_quotes_rejected :
  (forall extractDescriptions,
     parse (js "A=''") extractDescriptions
     = Some (Throw (Error (js "Unexpected token ', at char 3 (line: ')"))))
  /\ lex (js "A=''")
     = Some ([mkToken [inr (mkToken [inl (js "A")] (Some Key)); inl [c_eq];
                       inr (mkToken [inl [c_sq]] (Some SingleQuotedString))] (Some keyedEntry)],
             Some (Error (unexpected_token (js "A=''") 3 3))).
Proof. split; [intros []|]; vm_compute; reflexivity. Qed.

(** ** More of the interpreter, the lexer and the assembler *)

(** *** The cursor stays inside the source *)

Lemma extract_parts_within (ex : TokenDef -> State -> option (option Token * State)) :
  (forall t st v st', ex t st = Some (Some v, st') ->
     index st <= length (source st) ->
     source st' = source st /\ index st' <= length (source st)) ->
  forall parts src i acc j ev,
    extract_parts ex parts src i acc = Some (Some (j, ev)) ->
    i <= length src -> j <= length src.
Proof.
  intros Hex parts src. induction parts as [|p parts IH]; intros i acc j ev; simpl.
  - now intros [= <- _].
  - destruct p as [s|re|type optional flatten].
    + destruct (jstring_eqb _ _); [|discriminate]. intros H Hi. apply IH in H; [easy|].
      unfold substr. rewrite length_firstn, length_skipn. lia.
    + destruct (test _ _) eqn:E; [|discriminate]. intros H Hi. apply IH in H; [easy|].
      unfold charAt, substr in E. pose proof (length_skipn i src) as Hl.
      destruct (skipn i src); [discriminate|]. simpl in Hl. lia.
    + destruct (ex (TOKENS type) (mkState src i)) as [[[v|] st']|] eqn:E; [| |discriminate].
      * intros H Hi. apply Hex in E; [|easy]. simpl in E. apply IH in H; easy.
      * destruct optional; [|discriminate]. now intros [= <- _].
Qed.

Lemma extract_within fuel : forall rule state v state',
  extract fuel rule state = Some (Some v, state') ->
  index state <= length (source state) ->
  source state' = source state /\ index state' <= length (source state).
Proof.
  induction fuel as [|fuel IH]; intros tk st v st'; [discriminate|].
  assert (Hfin : forall rp parts,
             finish rp parts st (extract_parts (extract fuel) parts (source st) (index st) [])
             = Some (Some v, st') ->
             index st <= length (source st) ->
             source st' = source st /\ index st' <= length (source st)).
  { intros rp parts.
    destruct (extract_parts _ _ _ _ _) as [[[j ev]|]|] eqn:E; simpl; try discriminate.
    intros [= _ <-] Hi. simpl. split; [easy|].
    eapply extract_parts_within; [apply IH|apply E|easy]. }
  destruct tk as [parts|alts|rp parts].
  - rewrite extract_Seq. apply Hfin.
  - rewrite extract_Or. clear Hfin. revert st. induction alts as [|a alts IHa]; intros st; simpl.
    + discriminate.
    + destruct (extract fuel (TOKENS a) st) as [[[w|] st1]|] eqn:E; try discriminate.
      * intros [= <- <-] Hi. now apply IH in E.
      * apply extract_failure_state in E. subst st1. apply IHa.
  - rewrite extract_Replaced. apply Hfin.
Qed.

(** Whatever the rule, a successful extraction started inside the source
    ends inside the source, and the source is the same. *)
Theorem extract_within_source (fuel : nat) (rule : TokenDef) (state state' : State) v :
  extract fuel rule state = Some (Some v, state') ->
  index state <= length (source state) ->
  source state' = source state
  /\ index state <= index state' <= length (source state).
Proof.
  intros H Hi. destruct (extract_within fuel rule state v state' H Hi) as [Hs Hl].
  apply extract_success_state in H. split; [easy|lia].
Qed.

Lemma extract_within_source_witness :
  js "AB=1" = js "AB=1" /\ 0 <= 4 <= length (js "AB=1").
Proof.
  apply (extract_within_source 9 (TOKENS keyedEntry) (mkState (js "AB=1") 0)
           (mkState (js "AB=1") 4)
           (mkToken [inr (mkToken [inl (js "AB")] (Some Key)); inl [c_eq];
                     inr (mkToken [inl (js "1")] (Some UnquotedString))] (Some keyedEntry))).
  - vm_compute. reflexivity.
  - simpl. lia.
Defined.

(** *** The name a token carries *)

Lemma finish_token rp parts st r t st' :
  finish rp parts st r = Some (Some t, st') -> token t = getTokenName parts.
Proof. destruct r as [[[j ev]|]|]; simpl; try discriminate. now intros [= <- _]. Qed.

Lemma extract_array_name f X parts st t st' :
  TOKENS X = Seq parts ->
  extract f (TOKENS X) st = Some (Some t, st') -> token t = getTokenName parts.
Proof.
  intros HX. rewrite HX. destruct f as [|f]; [discriminate|]. rewrite extract_Seq.
  apply finish_token.
Qed.

Lemma extract_token_name (f : nat) (X : TokenName) (state state' : State) t :
  extract f (TOKENS X) state = Some (Some t, state') -> In (token t) (names_of X).
Proof.
  intros H.
  destruct X;
    try (match type of H with
         | extract _ (TOKENS ?X) _ = _ =>
             left; symmetry; exact (extract_array_name f X _ _ _ _ eq_refl H)
         end).
  - (* String *)
    destruct f as [|f]; [discriminate|]. rewrite String_step in H. simpl.
    destruct (extract f (TOKENS UnquotedString) state) as [[[w|] s1]|] eqn:E1; try discriminate.
    { injection H as <- <-. left. symmetry. exact (extract_array_name f UnquotedString _ _ _ _ eq_refl E1). }
    destruct (extract f (TOKENS EmptyString) state) as [[[w|] s2]|] eqn:E2; try discriminate.
    { injection H as <- <-. right. left. symmetry.
      exact (extract_array_name f EmptyString _ _ _ _ eq_refl E2). }
    destruct (extract f (TOKENS QuotedString) state) as [[[w|] s3]|] eqn:E3; try discriminate.
    { injection H as <- <-. right. right. left. symmetry.
      exact (extract_array_name f QuotedString _ _ _ _ eq_refl E3). }
    destruct (extract f (TOKENS SingleQuotedString) state) as [[[w|] s4]|] eqn:E4;
      try discriminate.
    injection H as <- <-. right. right. right. left. symmetry.
    exact (extract_array_name f SingleQuotedString _ _ _ _ eq_refl E4).
  - (* QuotedStringChar *)
    destruct f as [|f]; [discriminate|].
    change (TOKENS QuotedStringChar) with (Or [UnescapedQuotedStringChar; EscapedChars]) in H.
    rewrite extract_Or, !extract_or_cons in H. simpl.
    destruct (extract f (TOKENS UnescapedQuotedStringChar) state) as [[[w|] s1]|] eqn:E1;
      try discriminate.
    { injection H as <- <-. left. symmetry. exact (extract_array_name f UnescapedQuotedStringChar _ _ _ _ eq_refl E1). }
    destruct (extract f (TOKENS EscapedChars) state) as [[[w|] s2]|] eqn:E2; try discriminate.
    injection H as <- <-. right. left.
    destruct f as [|f]; [discriminate|]. change (TOKENS EscapedChars)
      with (Replaced EscapedChars_replacer [Lit [c_bsl]; Re re_escape]) in E2.
    rewrite extract_Replaced in E2. symmetry. exact (finish_token _ _ _ _ _ _ E2).
  - (* SingleQuotedStringChar *)
    destruct f as [|f]; [discriminate|].
    change (TOKENS SingleQuotedStringChar) with (Or [UnescapedSingleQuotedStringChar]) in H.
    rewrite extract_Or, !extract_or_cons in H. simpl.
    destruct (extract f (TOKENS UnescapedSingleQuotedStringChar) state) as [[[w|] s1]|] eqn:E1;
      try discriminate.
    injection H as <- <-. left. symmetry. exact (extract_array_name f UnescapedSingleQuotedStringChar _ _ _ _ eq_refl E1).
  - (* EscapedChars *)
    destruct f as [|f]; [discriminate|]. change (TOKENS EscapedChars)
      with (Replaced EscapedChars_replacer [Lit [c_bsl]; Re re_escape]) in H.
    rewrite extract_Replaced in H. left. symmetry. exact (finish_token _ _ _ _ _ _ H).
Qed.



(** *** A source read line by line *)

Lemma assemble_lexes toks lines : lexes toks lines ->
  forall extractDescriptions lastDescription map,
    assemble extractDescriptions toks lastDescription map
    = Return (snd (fold_left (assemble_line extractDescriptions) lines (lastDescription, map))).
Proof.
  induction 1 as [|s toks lines _ IH|text toks lines _ IH|K Q toks lines _ IH
                 |K Q V t toks lines Ht _ IH]; intros b d m.
  - reflexivity.
  - apply IH.
  - cbn -[trim]. apply IH.
  - cbn [assemble token value elem_at nth_error value_0 toPropertyKey fold_left assemble_line].
    rewrite IH. now destruct b.
  - cbn [assemble token value elem_at nth_error value_0 toPropertyKey fold_left assemble_line].
    rewrite Ht, IH. now destruct b.
Qed.

Lemma lexes_app a b l1 l2 : lexes a l1 -> lexes b l2 -> lexes (a ++ b) (l1 ++ l2).
Proof. induction 1; simpl; intros; try constructor; auto. Qed.

Lemma line_rest_item (p : N -> bool) rest :
  p c_nl = false -> line_rest rest -> char_item p rest = None.
Proof. intros Hp [->|(r & ->)]; simpl; [easy|now rewrite Hp]. Qed.

Lemma not_nl_class text :
  includes text c_nl = false -> forallb (class_matches re_not_nl) text = true.
Proof.
  unfold includes. induction text as [|c text IH]; [easy|]. cbn [existsb forallb].
  intros [Hc HV]%orb_false_iff. rewrite IH by easy.
  unfold class_matches, re_not_nl. cbn [negated items existsb item_matches].
  now rewrite N.eqb_sym, Hc.
Qed.

(** At the end of a line [String] matches nothing. *)
Lemma String_fails_at_line_end f src i rest :
  skipn i src = rest -> line_rest rest -> 3 <= f ->
  extract f (TOKENS String) (mkState src i) = Some (None, mkState src i).
Proof.
  intros Hsrc Hrest Hf. destruct f as [|[|f]]; try lia. rewrite String_step.
  rewrite UnquotedString_fails by (rewrite ?Hsrc; (now apply line_rest_item) || lia).
  rewrite EmptyString_step.
  rewrite (quoted_step QuotedString QuotedStringChars c_dq eq_refl eq_refl).
  rewrite (quoted_step SingleQuotedString SingleQuotedStringChars c_sq eq_refl eq_refl).
  unfold substr. rewrite Hsrc. now destruct Hrest as [->|(r & ->)].
Qed.

(** A text between double quotes, with the escapes of [JSON.stringify]. *)
Lemma String_double_quoted f src i V rest :
  skipn i src = (c_dq :: quote_body V ++ [c_dq]) ++ rest -> V <> [] -> json_safe V = true ->
  length src - i + 5 <= f ->
  exists t, extract f (TOKENS String) (mkState src i)
            = Some (Some t, mkState src (i + length (c_dq :: quote_body V ++ [c_dq])))
            /\ parseString (JSObject t) = inr (JSString V).
Proof.
  intros Hsrc HVne HV Hf. pose proof (skipn_length_eq _ _ _ Hsrc) as Hlen.
  rewrite length_app in Hlen.
  destruct f as [|[|f]]; try lia. rewrite String_step.
  assert (E1 : skipn (i + 1) src = quote_body V ++ c_dq :: rest).
  { apply (skipn_prefix i src [c_dq]). rewrite Hsrc. simpl. now rewrite <- app_assoc. }
  assert (E2 : skipn (i + 1 + length (quote_body V)) src = c_dq :: rest)
    by apply (skipn_prefix _ _ (quote_body V)), E1.
  cbn [length] in Hlen. rewrite length_app in Hlen. cbn [length] in Hlen.
  rewrite UnquotedString_fails by (rewrite ?Hsrc; easy || lia).
  rewrite EmptyString_step.
  destruct (jstring_eqb _ _) eqn:E.
  { exfalso. apply jstring_eqb_eq in E. unfold substr in E. rewrite Hsrc in E.
    destruct (quote_body_head V) as (b & l & Eb & Hb); [easy|easy|].
    rewrite Eb in E. cbn in E. congruence. }
  rewrite (quoted_step QuotedString QuotedStringChars c_dq eq_refl eq_refl), Hsrc.
  cbn [app]. rewrite starts_with_cons. change (c_dq =? c_dq)%N with true. cbv iota.
  pose proof (quote_body_runs rest (length V) V (le_n _) HV) as Hr.
  apply runs0_nonempty in Hr; [|easy].
  rewrite (QuotedStringChars_runs f src (i + 1) V (length (quote_body V))).
  - cbn [index]. rewrite E2, starts_with_cons. change (c_dq =? c_dq)%N with true. cbv iota.
    replace (i + length (c_dq :: quote_body V ++ [c_dq]))
      with (i + 1 + length (quote_body V) + 1)
      by (cbn [length]; rewrite length_app; simpl; lia).
    eexists. split; [reflexivity|]. destruct V; [easy|reflexivity].
  - now rewrite E1.
  - lia.
Qed.

(** A value without quotes runs to the end of the line. *)
Lemma String_unquoted f src i c r rest :
  skipn i src = (c :: r) ++ rest ->
  class_matches re_safe c = true -> forallb (class_matches re_unquoted) r = true ->
  line_rest rest -> length src - i + 5 <= f ->
  extract f (TOKENS String) (mkState src i)
  = Some (Some (mkToken [inl (c :: r)] (Some UnquotedString)), mkState src (i + length (c :: r))).
Proof.
  intros Hsrc Hc Hr Hrest Hf. pose proof (skipn_length_eq _ _ _ Hsrc) as Hlen.
  rewrite length_app in Hlen.
  destruct f as [|f]; [lia|]. rewrite String_step.
  rewrite (UnquotedString_runs f src i (c :: r) (length (c :: r))); [reflexivity| |lia].
  rewrite Hsrc. apply head_runs_char_intro; [easy|easy|].
  now apply line_rest_item.
Qed.

Lemma written_reads Q V rest :
  written Q V -> Q <> [] -> line_rest rest -> string_reads Q rest V.
Proof.
  intros HQ Hne Hrest f src i Hsrc Hf. destruct HQ as [|c r Hc Hr| |V HV HVs|V HV HVs].
  - easy.
  - rewrite (String_unquoted f src i c r rest Hsrc Hc Hr Hrest Hf).
    eexists. split; reflexivity.
  - apply (String_serialized f src i [] rest Hsrc eq_refl Hf).
  - now apply (String_double_quoted f src i V rest).
  - now apply (String_single_quoted f src i V rest).
Qed.

(** An entry without value: [K=] at the end of a line. *)
Lemma keyedEntry_absent f src i K rest :
  skipn i src = K ++ c_eq :: rest -> valid_key K = true -> line_rest rest ->
  length src - i + 6 <= f ->
  extract f (TOKENS keyedEntry) (mkState src i)
  = Some (Some (mkToken [inr (mkToken [inl K] (Some Key)); inl [c_eq]] (Some keyedEntry)),
          mkState src (i + length (K ++ [c_eq]))).
Proof.
  intros Hsrc HK Hrest Hf. pose proof (skipn_length_eq _ _ _ Hsrc) as Hlen.
  rewrite length_app in Hlen. cbn [length] in Hlen.
  assert (E1 : skipn (i + length K) src = c_eq :: rest) by apply (skipn_prefix _ _ K), Hsrc.
  assert (E2 : skipn (i + length K + 1) src = rest) by apply (skipn_prefix _ _ [c_eq]), E1.
  destruct f as [|f]; [lia|]. rewrite keyedEntry_step.
  rewrite (Key_serialized f src i K _ Hsrc HK) by lia. cbn [index].
  rewrite E1, starts_with_cons. change (c_eq =? c_eq)%N with true. cbv iota.
  rewrite (String_fails_at_line_end f src (i + length K + 1) rest E2 Hrest) by lia.
  replace (i + length (K ++ [c_eq])) with (i + length K + 1)
    by (rewrite length_app; simpl; lia).
  reflexivity.
Qed.

Lemma keyedEntry_fails_at_line_end f src i rest :
  skipn i src = rest -> line_rest rest -> 3 <= f ->
  extract f (TOKENS keyedEntry) (mkState src i) = Some (None, mkState src i).
Proof.
  intros Hsrc Hrest Hf. destruct f as [|f]; [lia|]. rewrite keyedEntry_step.
  rewrite Key_fails; [reflexivity| |lia]. rewrite Hsrc. now apply line_rest_item.
Qed.

(** One iteration of the lexer at the start of a line. *)
Lemma lex_tokens_line f src i line rest :
  skipn i src = line_text line ++ rest -> well_formed_line line -> line_rest rest ->
  length src - i + 6 <= f ->
  forall tokens, tokens = [TOKENS Comment; TOKENS keyedEntry] \/ tokens = MAIN_TOKENS ->
  exists toks, lex_tokens f tokens (mkState src i)
               = Some (toks, mkState src (i + length (line_text line)))
               /\ lexes toks [line].
Proof.
  intros Hsrc Hwf Hrest Hf tokens Htokens.
  pose proof (skipn_length_eq _ _ _ Hsrc) as Hlen. rewrite length_app in Hlen.
  destruct line as [text|K Q V]; cbn [line_text well_formed_line] in *.
  - destruct Hwf as [Hne Hnl]. cbn [length] in Hlen.
    assert (E1 : skipn (i + 1) src = text ++ rest) by apply (skipn_prefix i src [c_hash]), Hsrc.
    assert (E2 : skipn (i + 1 + length text) src = rest) by apply (skipn_prefix _ _ text), E1.
    destruct f as [|f]; [lia|].
    assert (EC : extract (S f) (TOKENS Comment) (mkState src i)
                 = Some (Some (mkToken [inl [c_hash]; inr (mkToken [inl text] (Some CommentChars))]
                                 (Some Comment)),
                         mkState src (i + 1 + length text))).
    { rewrite Comment_step, Hsrc. cbn [app]. rewrite starts_with_cons.
      change (c_hash =? c_hash)%N with true. cbv iota.
      rewrite (CommentChars_runs f src (i + 1) text (length text)); [reflexivity| |lia].
      rewrite E1. apply runs_char_intro; [easy|now apply not_nl_class|].
      now apply line_rest_item. }
    replace (i + length (c_hash :: text)) with (i + 1 + length text) by (simpl; lia).
    eexists. split; [|apply lexes_comment, lexes_nil].
    destruct Htokens as [->| ->]; unfold MAIN_TOKENS; rewrite ?lex_tokens_cons.
    + rewrite EC, lex_tokens_cons.
      rewrite (keyedEntry_fails_at_line_end (S f) src _ rest E2 Hrest) by lia.
      reflexivity.
    + rewrite Whitespace_fails by (rewrite ?Hsrc; easy || lia).
      rewrite lex_tokens_cons, EC, lex_tokens_cons.
      rewrite (keyedEntry_fails_at_line_end (S f) src _ rest E2 Hrest) by lia.
      reflexivity.
  - destruct Hwf as [HK HQ].
    assert (exists t, extract f (TOKENS keyedEntry) (mkState src i)
                      = Some (Some t, mkState src (i + length (K ++ c_eq :: Q)))
                      /\ lexes [t] [EntryLine K Q V]) as (t & E & Ht).
    { destruct Q as [|q Q'].
      - inversion HQ; subst. eexists. split; [|apply lexes_key, lexes_nil].
        apply (keyedEntry_absent f src i K rest); try easy.
        now rewrite Hsrc, <- app_assoc.
      - destruct (keyedEntry_reads f src i K (q :: Q') V rest) as (t & E & Ht); try easy.
        { rewrite Hsrc. now rewrite <- app_assoc. }
        { now apply written_reads. }
        eexists. split; [exact E|]. now apply lexes_entry; [|apply lexes_nil]. }
    assert (Hs : skipn i src = K ++ (c_eq :: Q) ++ rest) by (now rewrite Hsrc, <- app_assoc).
    destruct f as [|f]; [lia|]. exists [t]. split; [|easy].
    destruct Htokens as [->| ->]; unfold MAIN_TOKENS; cbn [lex_tokens].
    + rewrite (Comment_fails_on_key f src i K _ Hs HK). now rewrite E.
    + rewrite (Whitespace_fails_on_key f src i K _ Hs HK).
      rewrite (Comment_fails_on_key f src i K _ Hs HK). now rewrite E.
Qed.

Lemma following_lines_rest lines : line_rest (following_lines lines).
Proof.
  destruct lines as [|l lines]; [now left|right].
  now exists (line_text l ++ following_lines lines).
Qed.

Lemma line_text_first line : well_formed_line line ->
  exists c l, line_text line = c :: l /\ class_matches re_space c = false.
Proof.
  destruct line as [text|K Q V]; simpl.
  - intros _. now exists c_hash, text.
  - intros [(c & r & -> & Hc & _)%valid_key_inv _]. exists c, (r ++ c_eq :: Q).
    split; [easy|]. now apply alphaU_not_space.
Qed.

Lemma lex_following_lines lines : Forall well_formed_line lines ->
  forall n f src i,
    skipn i src = following_lines lines -> length src - i <= n -> length src - i + 6 <= f ->
    exists toks, lex_loop n f (mkState src i) = Some (toks, None) /\ lexes toks lines.
Proof.
  induction 1 as [|line lines Hline _ IH]; intros n f src i Hsrc Hn Hf;
    pose proof (skipn_length_eq _ _ _ Hsrc) as Hlen.
  - exists []. split; [|constructor]. simpl in Hlen. apply lex_loop_end. lia.
  - unfold following_lines in Hsrc, Hlen. cbn [map concat] in Hsrc, Hlen.
    cbn [app] in Hsrc, Hlen. fold (following_lines lines) in Hsrc, Hlen.
    cbn [length] in Hlen. rewrite length_app in Hlen.
    assert (E1 : skipn (i + 1) src = line_text line ++ following_lines lines)
      by apply (skipn_prefix i src [c_nl]), Hsrc.
    destruct n as [|n]; [lia|]. rewrite lex_loop_S.
    destruct (Nat.ltb_spec i (length src)); [|lia].
    unfold MAIN_TOKENS. rewrite lex_tokens_cons.
    rewrite (Whitespace_runs f src i [c_nl] 1); [|rewrite Hsrc|lia].
    2:{ apply runs_last; [reflexivity|]. cbn [skipn].
        destruct (line_text_first line Hline) as (c & l & -> & Hc).
        unfold it_space. simpl. now rewrite Hc. }
    destruct (lex_tokens_line f src (i + 1) line (following_lines lines) E1 Hline
                (following_lines_rest lines)) with
      (tokens := [TOKENS Comment; TOKENS keyedEntry]) as (toks & E & Hr); [lia|now left|].
    rewrite E. cbn [index source].
    destruct (Nat.eqb_spec i (i + 1 + length (line_text line))); [lia|].
    destruct (IH n f src (i + 1 + length (line_text line))) as (more & E2 & Hm).
    + now apply (skipn_prefix _ _ (line_text line)).
    + lia.
    + lia.
    + rewrite E2. eexists. split; [reflexivity|].
      apply (lexes_whitespace [c_nl]). now apply (lexes_app toks more [line] lines).
Qed.

Lemma lex_lines lines : Forall well_formed_line lines ->
  exists toks, lex (join_nl (map line_text lines)) = Some (toks, None) /\ lexes toks lines.
Proof.
  intros Hlines. destruct lines as [|line lines].
  { exists []. split; [reflexivity|constructor]. }
  apply Forall_cons_iff in Hlines as [Hline Hlines].
  unfold lex, extract_fuel. cbn [map]. rewrite join_nl_cons, map_map.
  fold (following_lines lines).
  set (src := line_text line ++ following_lines lines).
  assert (Hsrc : skipn 0 src = line_text line ++ following_lines lines) by reflexivity.
  pose proof (skipn_length_eq _ _ _ Hsrc) as Hl. rewrite length_app in Hl.
  destruct (line_text_first line Hline) as (c & l & Ec & _).
  assert (Hpos : 0 < length (line_text line)) by (rewrite Ec; simpl; lia).
  destruct (length src) as [|n] eqn:En; [lia|]. rewrite lex_loop_S, En.
  cbn [Nat.ltb Nat.leb].
  destruct (lex_tokens_line (S n + 8) src 0 line (following_lines lines) Hsrc Hline
              (following_lines_rest lines)) with
    (tokens := MAIN_TOKENS) as (toks & E & Hr); [lia|now right|].
  rewrite E. cbn [index source].
  destruct (Nat.eqb_spec 0 (0 + length (line_text line))); [lia|].
  destruct (lex_following_lines lines Hlines n (S n + 8) src (0 + length (line_text line)))
    as (more & E2 & Hm).
  - now apply (skipn_prefix _ _ (line_text line)).
  - rewrite En. lia.
  - lia.
  - rewrite E2. eexists. split; [reflexivity|].
    now apply (lexes_app toks more [line] lines).
Qed.

(** A source made of comment lines with some text and of entries, each
    value written in one of the forms of the grammar, is accepted, and the
    object returned is the one the assembler builds line after line. *)
Theorem parse_lines (lines : list Line) (extractDescriptions : bool) :
  Forall well_formed_line lines ->
  parse (join_nl (map line_text lines)) extractDescriptions
  = Some (Return (snd (fold_left (assemble_line extractDescriptions) lines ([], [])))).
Proof.
  intros Hlines. destruct (lex_lines lines Hlines) as (toks & E & Hr).
  unfold parse. now rewrite E, (assemble_lexes toks lines Hr).
Qed.

Lemma parse_lines_witness :
  parse (join_nl (map line_text
                    [CommentLine (js " first"); CommentLine (js " second  ");
                     EntryLine (js "A") (js "x # y ") (js "x # y ");
                     EntryLine (js "B") [] [];
                     EntryLine (js "A") (js "'it" ++ [c_nl] ++ js "is'") (js "it" ++ [c_nl] ++ js "is")]))
        true
  = Some (Return [(js "A", Described None (js "it" ++ [c_nl] ++ js "is"));
                  (js "B", Described None [])]).
Proof.
  apply (parse_lines
           [CommentLine (js " first"); CommentLine (js " second  ");
            EntryLine (js "A") (js "x # y ") (js "x # y ");
            EntryLine (js "B") [] [];
            EntryLine (js "A") (js "'it" ++ [c_nl] ++ js "is'") (js "it" ++ [c_nl] ++ js "is")]
           true).
  repeat constructor; try discriminate.
  - apply (written_single (js "it" ++ [c_nl] ++ js "is")); [discriminate|reflexivity].
Defined.

(** *** The last assignment of a key *)

Lemma lookup_obj_assign m K v key :
  lookup (obj_assign m K v) key = if jstring_eqb K key then Some v else lookup m key.
Proof.
  induction m as [|[k w] m IH]; simpl.
  - reflexivity.
  - destruct (jstring_eqb k K) eqn:E; simpl.
    + apply jstring_eqb_eq in E. subst k. now destruct (jstring_eqb K key).
    + destruct (jstring_eqb k key) eqn:E2; [|exact IH].
      apply jstring_eqb_eq in E2. subst k.
      destruct (jstring_eqb K key) eqn:E3; [|easy].
      apply jstring_eqb_eq in E3. subst K. now rewrite jstring_eqb_refl in E.
Qed.

Lemma lookup_obj_set m K v key : key <> proto ->
  lookup (obj_set m K v) key = if jstring_eqb K key then Some v else lookup m key.
Proof.
  intros Hk. unfold obj_set. fold proto. destruct (jstring_eqb K proto) eqn:E.
  - apply jstring_eqb_eq in E. subst K. now rewrite jstring_eqb_neq by congruence.
  - apply lookup_obj_assign.
Qed.

Lemma lookup_fold extractDescriptions key lines : key <> proto ->
  forall d m,
    option_map entry_value
      (lookup (snd (fold_left (assemble_line extractDescriptions) lines (d, m))) key)
    = match last_value lines key with
      | Some v => Some v
      | None => option_map entry_value (lookup m key)
      end.
Proof.
  intros Hk. induction lines as [|[text|K Q V] lines IH]; intros d m; cbn [fold_left last_value].
  - reflexivity.
  - apply IH.
  - cbn [assemble_line]. rewrite IH. destruct (last_value lines key); [easy|].
    rewrite lookup_obj_set by easy.
    destruct (jstring_eqb K key); [now destruct extractDescriptions|easy].
Qed.

(** In an accepted source of comment and entry lines, the value returned
    for a key other than [__proto__] is the value of the last line that
    assigns it, and the key is absent when no line does. *)
Theorem last_assignment_wins (lines : list Line) (extractDescriptions : bool) (key : jstring) :
  Forall well_formed_line lines -> key <> proto ->
  exists obj,
    parse (join_nl (map line_text lines)) extractDescriptions = Some (Return obj)
    /\ option_map entry_value (lookup obj key) = last_value lines key.
Proof.
  intros Hlines Hk. destruct (lex_lines lines Hlines) as (toks & E & Hr).
  eexists. split; [unfold parse; now rewrite E, (assemble_lexes toks lines Hr)|].
  rewrite lookup_fold by easy. now destruct (last_value lines key).
Qed.

Lemma last_assignment_wins_witness :
  exists obj,
    parse (join_nl (map line_text [EntryLine (js "A") (js "1") (js "1");
                                   EntryLine (js "B") (js "x") (js "x");
                                   EntryLine (js "A") (js "2") (js "2")])) false
    = Some (Return obj)
    /\ option_map entry_value (lookup obj (js "A")) = Some (js "2").
Proof.
  apply (last_assignment_wins [EntryLine (js "A") (js "1") (js "1");
                               EntryLine (js "B") (js "x") (js "x");
                               EntryLine (js "A") (js "2") (js "2")] false (js "A")).
  - repeat constructor.
  - discriminate.
Defined.

(** *** What [serialize] writes, with descriptions, read back *)

Lemma join_nl_snoc ls x :
  join_nl (ls ++ [x]) = concat (map (fun l => l ++ [c_nl]) ls) ++ x.
Proof.
  induction ls as [|l ls IH]; [reflexivity|].
  change ((l :: ls) ++ [x]) with (l :: (ls ++ [x])). rewrite join_nl_cons.
  cbn [map concat]. rewrite <- (app_assoc (l ++ [c_nl])), <- (app_assoc l), <- IH. f_equal.
  destruct (ls ++ [x]) as [|p ps] eqn:E; [now destruct ls|].
  now rewrite join_nl_cons.
Qed.

Lemma serialize_entry_lines kv :
  serialize_entry kv = join_nl (map line_text (lines_of kv)).
Proof.
  destruct kv as [K e]. unfold lines_of. cbn [fst snd].
  rewrite map_app, map_map. cbn [map line_text]. rewrite join_nl_snoc, map_map.
  unfold serialize_entry, description_lines.
  destruct e as [v|[d|] v]; cbn [description entry_value]; try reflexivity.
  destruct (truthy d); reflexivity.
Qed.

Lemma lines_of_nonempty kv : exists l ls, map line_text (lines_of kv) = l :: ls.
Proof.
  unfold lines_of. destruct (description_lines (snd kv)); simpl; eauto.
Qed.

Lemma following_lines_of doc :
  concat (map (cons c_nl) (map serialize_entry doc))
  = concat (map (cons c_nl) (map line_text (flat_map lines_of doc))).
Proof.
  induction doc as [|kv doc IH]; [reflexivity|].
  cbn [map concat flat_map]. rewrite !map_app, concat_app.
  apply f_equal2; [|exact IH]. rewrite serialize_entry_lines.
  destruct (lines_of_nonempty kv) as (l & ls & ->). now rewrite join_nl_cons.
Qed.

Lemma serialize_lines doc :
  serialize doc = join_nl (map line_text (flat_map lines_of doc)).
Proof.
  unfold serialize. destruct doc as [|kv doc]; [reflexivity|].
  cbn [map flat_map]. rewrite join_nl_cons, following_lines_of, map_app.
  rewrite serialize_entry_lines.
  destruct (lines_of_nonempty kv) as (l & ls & ->).
  rewrite join_nl_cons. cbn [app]. rewrite join_nl_cons, map_app, concat_app.
  now rewrite app_assoc.
Qed.

Lemma split_nl_no_nl d : Forall (fun line => includes line c_nl = false) (split_nl d).
Proof.
  induction d as [|c d IH]; cbn [split_nl]; [repeat constructor|].
  destruct (N.eqb_spec c c_nl) as [->|Hc]; [now constructor|].
  assert (Hc' : (c_nl =? c)%N = false) by (apply N.eqb_neq; congruence).
  destruct (split_nl d) as [|line lines].
  - repeat constructor. unfold includes. cbn [existsb]. now rewrite Hc'.
  - apply Forall_cons_iff in IH as [H1 H2]. constructor; [|easy].
    unfold includes in *. cbn [existsb]. now rewrite Hc', H1.
Qed.

Lemma join_split_nl d : join_nl (split_nl d) = d.
Proof.
  induction d as [|c d IH]; [reflexivity|]. simpl.
  destruct (N.eqb_spec c c_nl) as [->|Hc].
  - destruct (split_nl d) as [|line lines] eqn:E; [now destruct d|].
    change (join_nl ([] :: line :: lines)) with ([] ++ c_nl :: join_nl (line :: lines)).
    now rewrite IH.
  - destruct (split_nl d) as [|line lines] eqn:E; [now destruct d|].
    rewrite join_nl_cons in *. simpl. now rewrite IH.
Qed.

Lemma roundtrips_written V : roundtrips V = true -> written (serializeString V) V.
Proof.
  unfold roundtrips, serializeString.
  destruct (includes V c_nl && negb (includes V c_sq)) eqn:E.
  - intros _. apply andb_true_iff in E as [Hnl Hsq]. apply negb_true_iff in Hsq.
    apply written_single; [|easy]. intros ->. discriminate.
  - simpl. intros HV. unfold JSON_stringify. destruct V as [|v V].
    + apply written_empty.
    + now apply written_double.
Qed.

Lemma lines_of_well_formed kv :
  valid_key (fst kv) = true -> roundtrips (entry_value (snd kv)) = true ->
  Forall well_formed_line (lines_of kv).
Proof.
  intros HK HV. unfold lines_of. apply Forall_app. split.
  - apply Forall_map. unfold description_lines.
    destruct (description (snd kv)) as [d|]; [|constructor].
    destruct (truthy d); [|constructor].
    eapply Forall_impl; [|apply split_nl_no_nl]. intros line Hl. simpl.
    split; [discriminate|]. unfold includes in *. simpl. exact Hl.
  - repeat constructor; [easy|]. now apply roundtrips_written.
Qed.

Lemma fold_comments b lines : forall d m,
  fold_left (assemble_line b) (map (fun line => CommentLine (32%N :: line)) lines) (d, m)
  = (accumulate d lines, m).
Proof. induction lines as [|l lines IH]; intros d m; [reflexivity|]. cbn -[trim]. apply IH. Qed.

Lemma trim_space line : trim (32%N :: line) = trim line.
Proof. reflexivity. Qed.

Lemma accumulate_more lines : Forall (fun line => trim line = line) lines ->
  forall d, d <> [] -> accumulate d lines = d ++ concat (map (cons c_nl) lines).
Proof.
  unfold accumulate. induction 1 as [|l lines Hl _ IH]; intros d Hd; cbn -[trim].
  - now rewrite app_nil_r.
  - rewrite trim_space, Hl. destruct d as [|c d]; [easy|]. cbn [truthy length Nat.eqb negb].
    rewrite IH by (destruct d; discriminate). now rewrite <- !app_assoc.
Qed.

Lemma accumulate_clean d : truthy d = true -> clean_description d ->
  accumulate [] (split_nl d) = d.
Proof.
  intros _ [Hhd Hall]. rewrite <- (join_split_nl d) at 2.
  destruct (split_nl d) as [|l lines]; [easy|].
  apply Forall_cons_iff in Hall as [Hl Hall]. simpl in Hhd.
  rewrite join_nl_cons. unfold accumulate. cbn -[trim]. rewrite trim_space, Hl.
  now apply accumulate_more.
Qed.

Lemma fold_lines_of b kv rest m : readable b kv ->
  fold_left (assemble_line b) (lines_of kv ++ rest) ([], m)
  = fold_left (assemble_line b) rest ([], obj_set m (fst kv) (read_back b (snd kv))).
Proof.
  intros (_ & _ & _ & Hd). unfold lines_of. rewrite <- app_assoc, fold_left_app, fold_comments.
  cbn [app fold_left assemble_line]. f_equal. f_equal. f_equal.
  unfold read_back, description_lines. destruct b; [|reflexivity]. f_equal.
  destruct (description (snd kv)) as [d|] eqn:E; [|reflexivity].
  destruct (truthy d) eqn:Ed; [|reflexivity].
  now rewrite (accumulate_clean d Ed (Hd eq_refl d eq_refl Ed)), Ed.
Qed.

Lemma fold_doc b doc : forall m,
  Forall (readable b) doc -> NoDup (map fst m ++ map fst doc) ->
  fold_left (assemble_line b) (flat_map lines_of doc) ([], m)
  = ([], m ++ map (fun kv => (fst kv, read_back b (snd kv))) doc).
Proof.
  induction doc as [|kv doc IH]; intros m Hdoc Hnd; cbn [flat_map map].
  - now rewrite app_nil_r.
  - apply Forall_cons_iff in Hdoc as [Hkv Hdoc]. rewrite (fold_lines_of b kv _ m Hkv).
    destruct Hkv as (_ & Hp & _). cbn [map] in Hnd.
    rewrite obj_set_fresh; [|easy|].
    + rewrite IH; [now rewrite <- app_assoc|easy|].
      rewrite map_app. cbn [map fst]. now rewrite <- app_assoc.
    + apply NoDup_remove_2 in Hnd. intros Hin. apply Hnd, in_or_app. now left.
Qed.

Lemma parse_serialize_read_back (doc : DotEnvObj) (extractDescriptions : bool) :
  NoDup (map fst doc) -> Forall (readable extractDescriptions) doc ->
  parse (serialize doc) extractDescriptions
  = Some (Return (map (fun kv => (fst kv, read_back extractDescriptions (snd kv))) doc)).
Proof.
  intros Hnd Hdoc. rewrite serialize_lines.
  assert (Hlines : Forall well_formed_line (flat_map lines_of doc)).
  { apply Forall_flat_map. eapply Forall_impl; [|exact Hdoc].
    intros kv (HK & _ & HV & _). now apply lines_of_well_formed. }
  destruct (lex_lines _ Hlines) as (toks & E & Hr).
  unfold parse. rewrite E, (assemble_lexes toks _ Hr). do 2 f_equal.
  exact (f_equal snd (fold_doc extractDescriptions doc [] Hdoc Hnd)).
Qed.

(** What [serialize] writes for entries with distinct keys of the grammar
    (none of them [__proto__]), values that survive and, when descriptions
    are extracted, clean descriptions, is accepted by [parse], which
    returns entry for entry what was written: with descriptions
    [{description, value}], the description [null] where there was none or
    an empty one, and without them the values alone. *)
Theorem parse_serialize (doc : DotEnvObj) (extractDescriptions : bool) :
  NoDup (map fst doc) -> Forall (readable extractDescriptions) doc ->
  parse (serialize doc) extractDescriptions
  = Some (Return (map (fun kv => (fst kv, read_back extractDescriptions (snd kv))) doc)).
Proof. apply parse_serialize_read_back. Qed.

(** Decides [readable] on a concrete entry. *)
Ltac readable_entry :=
  split; [reflexivity|]; split; [discriminate|]; split; [reflexivity|];
  let E := fresh in let Ht := fresh in
  intros _ ? E; try discriminate E; injection E as <-; intros Ht;
  first [discriminate Ht | split; [discriminate|repeat constructor]].

Lemma parse_serialize_witness :
  parse (serialize [(js "A", Described (Some (js "line one" ++ [c_nl] ++ js "line two")) (js "x"));
                    (js "B", Plain (js "it's"))]) true
  = Some (Return [(js "A", Described (Some (js "line one" ++ [c_nl] ++ js "line two")) (js "x"));
                  (js "B", Described None (js "it's"))]).
Proof.
  apply (parse_serialize
           [(js "A", Described (Some (js "line one" ++ [c_nl] ++ js "line two")) (js "x"));
            (js "B", Plain (js "it's"))] true).
  - repeat constructor; simpl; intuition discriminate.
  - repeat (apply Forall_cons; [readable_entry|]). constructor.
Defined.

(** With descriptions extracted, entries [{description, value}] whose
    description is [null] or a clean non-empty string come back as they
    were. *)
Theorem parse_serialize_descriptions (doc : DotEnvObj) :
  NoDup (map fst doc) -> Forall (readable true) doc ->
  Forall (fun kv => exists d v, snd kv = Described d v
                                /\ forall d', d = Some d' -> truthy d' = true) doc ->
  parse (serialize doc) true = Some (Return doc).
Proof.
  intros Hnd Hdoc Hdesc. rewrite (parse_serialize_read_back doc true Hnd Hdoc). do 2 f_equal.
  clear Hnd Hdoc. induction Hdesc as [|[K e] doc (d & v & E & Hd) _ IH]; [reflexivity|].
  cbn [map fst snd] in *. rewrite IH. do 2 f_equal. subst e.
  unfold read_back. cbn [description entry_value].
  destruct d as [d'|]; [|reflexivity]. now rewrite (Hd d' eq_refl).
Qed.

Lemma parse_serialize_descriptions_witness :
  parse (serialize [(js "A", Described (Some (js "the key")) (js "x"));
                    (js "B", Described None [])]) true
  = Some (Return [(js "A", Described (Some (js "the key")) (js "x"));
                  (js "B", Described None [])]).
Proof.
  apply (parse_serialize_descriptions
           [(js "A", Described (Some (js "the key")) (js "x")); (js "B", Described None [])]).
  - repeat constructor; simpl; intuition discriminate.
  - repeat (apply Forall_cons; [readable_entry|]). constructor.
  - repeat constructor.
    + exists (Some (js "the key")), (js "x"). split; [reflexivity|]. now intros d' [= <-].
    + exists None, []. split; [reflexivity|]. intros d' [=].
Defined.

Lemma serialize_entry_read_back K e :
  serialize_entry (K, read_back true e) = serialize_entry (K, e).
Proof.
  destruct e as [v|[d|] v]; try reflexivity.
  unfold read_back, serialize_entry. cbn [description entry_value].
  destruct (truthy d) eqn:E; [now rewrite E|reflexivity].
Qed.

(** Serializing what [parse] reads, with descriptions, from a serialized
    document gives the same text again. *)
Theorem serialize_parse_serialize (doc : DotEnvObj) :
  NoDup (map fst doc) -> Forall (readable true) doc ->
  exists obj, parse (serialize doc) true = Some (Return obj)
              /\ serialize obj = serialize doc.
Proof.
  intros Hnd Hdoc. eexists. split; [now apply parse_serialize_read_back|].
  unfold serialize. f_equal. rewrite map_map. apply map_ext. intros [K e].
  apply serialize_entry_read_back.
Qed.

Lemma serialize_parse_serialize_witness :
  exists obj,
    parse (serialize [(js "A", Described (Some []) (js "x" ++ [c_nl])); (js "B", Plain [c_dq])]) true
    = Some (Return obj)
    /\ serialize obj
       = serialize [(js "A", Described (Some []) (js "x" ++ [c_nl])); (js "B", Plain [c_dq])].
Proof.
  apply (serialize_parse_serialize
           [(js "A", Described (Some []) (js "x" ++ [c_nl])); (js "B", Plain [c_dq])]).
  - repeat constructor; simpl; intuition discriminate.
  - repeat (apply Forall_cons; [readable_entry|]). constructor.
Defined.

(** *** Sources of white space *)

Lemma space_class c : class_matches re_space c = is_space c.
Proof. unfold class_matches, re_space. simpl. now rewrite orb_false_r. Qed.

Lemma space_class_all s : forallb (class_matches re_space) s = forallb is_space s.
Proof. induction s as [|c s IH]; [reflexivity|]. cbn [forallb]. now rewrite IH, space_class. Qed.

(** A source of white space only, the empty one included, gives the empty
    object. *)
Theorem parse_whitespace (source : jstring) (extractDescriptions : bool) :
  forallb is_space source = true ->
  parse source extractDescriptions = Some (Return []).
Proof.
  intros Hs. destruct source as [|c s]; [reflexivity|].
  unfold parse, lex, extract_fuel. set (src := c :: s).
  change (length src) with (S (length s)). rewrite lex_loop_S.
  change (length src) with (S (length s)). cbn [Nat.ltb Nat.leb Nat.add].
  unfold MAIN_TOKENS. rewrite lex_tokens_cons.
  rewrite (Whitespace_runs _ src 0 src (length src)); [| |simpl; lia].
  2:{ cbn [skipn]. rewrite <- (app_nil_r src) at 1.
      apply runs_char_intro; [discriminate| |reflexivity].
      now rewrite space_class_all. }
  assert (E : skipn (0 + length src) src = []) by apply skipn_all.
  rewrite lex_tokens_cons, Comment_step, E. cbn [starts_with]. rewrite lex_tokens_cons.
  rewrite keyedEntry_fails_at_line_end with (rest := []) by (easy || (now left) || lia).
  cbn [lex_tokens index source]. change (0 =? 0 + length src) with false. cbv iota.
  rewrite lex_loop_end by (simpl; lia). reflexivity.
Qed.

Lemma parse_whitespace_witness :
  parse ([c_nl; c_tab] ++ js "  " ++ [c_cr; c_nl]) true = Some (Return []).
Proof. apply parse_whitespace. reflexivity. Defined.

(** *** How [parse] ends *)

Lemma runs_positive it l s k : positive it -> runs it l s k -> 1 <= k.
Proof. intros Hp. induction 1 as [l s k H _|l s k s' k' H _ _]; apply Hp in H; lia. Qed.

Lemma hd_skipn {A} (l : list A) i : hd_error (skipn i l) = nth_error l i.
Proof. revert l. induction i as [|i IH]; intros [|a l]; simpl; auto. Qed.

(** Where the source has white space or [#], an iteration of the lexer
    moves the cursor. *)
Lemma lex_tokens_progress f src i c l :
  skipn i src = c :: l -> is_space c = true \/ c = c_hash ->
  length src - i + 6 <= f ->
  forall vals j, lex_tokens f MAIN_TOKENS (mkState src i) = Some (vals, mkState src j) -> i < j.
Proof.
  intros Hsrc Hc Hf vals j. unfold MAIN_TOKENS. rewrite lex_tokens_cons.
  pose proof MAIN_TOKENS_top_level as Htop. unfold MAIN_TOKENS in Htop.
  destruct Hc as [Hc| ->].
  - destruct (runs_total it_space (char_item_positive _) (skipn i src)) as [H|(s & k & H & Hk)].
    { rewrite Hsrc in H. unfold it_space in H. simpl in H.
      now rewrite space_class, Hc in H. }
    pose proof (runs_positive _ _ _ _ (char_item_positive _) H) as Hk1.
    rewrite length_skipn in Hk.
    rewrite (Whitespace_runs f src i s k H) by lia.
    destruct (lex_tokens_cases _ (Forall_inv_tail Htop) f src (i + k)) as (v & j' & E & _ & Hj);
      [lia|].
    rewrite E. intros [= _ <-]. lia.
  - rewrite Whitespace_fails by (rewrite ?Hsrc; easy || lia).
    rewrite lex_tokens_cons. destruct f as [|f]; [lia|]. rewrite Comment_step, Hsrc.
    cbn [starts_with]. change (c_hash =? c_hash)%N with true. cbv iota.
    pose proof (Forall_inv_tail (Forall_inv_tail Htop)) as Hk.
    destruct (run_cases CommentChars it_not_nl 2 CommentChars_fails CommentChars_runs
                (char_item_positive _) f src (i + 1)) as [H|(s & k & _ & H)]; [lia| |];
      rewrite H; cbn [index].
    + destruct (lex_tokens_cases _ Hk (S f) src (i + 1)) as (v & j' & E & _ & Hj); [lia|].
      rewrite E. intros [= _ <-]. lia.
    + destruct (lex_tokens_cases _ Hk (S f) src (i + 1 + k)) as (v & j' & E & _ & Hj); [lia|].
      rewrite E. intros [= _ <-]. lia.
Qed.

(** An error of the lexer names a character of the source that is neither
    white space nor [#], and its offset. *)
Lemma lex_loop_error n : forall f src i toks e,
  length src - i + 6 <= f ->
  lex_loop n f (mkState src i) = Some (toks, Some e) ->
  exists j c, nth_error src j = Some c /\ is_space c = false /\ c <> c_hash
              /\ e = Error (unexpected_token src j j).
Proof.
  induction n as [|n IH]; intros f src i toks e Hf.
  - simpl. now destruct (i <? length src).
  - rewrite lex_loop_S. destruct (Nat.ltb_spec i (length src)) as [Hi|]; [|discriminate].
    destruct (lex_tokens_cases MAIN_TOKENS MAIN_TOKENS_top_level f src i Hf)
      as (vals & j & E & _ & Hj).
    rewrite E. cbn [index source]. destruct (Nat.eqb_spec i j) as [<-|Hne].
    + intros [= _ <-]. destruct (skipn i src) as [|c l] eqn:Hs.
      { pose proof (length_skipn i src) as Hl. rewrite Hs in Hl. simpl in Hl. lia. }
      exists i, c. rewrite <- hd_skipn, Hs. split; [reflexivity|].
      assert (Hp : ~ (is_space c = true \/ c = c_hash)).
      { intros Hc. pose proof (lex_tokens_progress f src i c l Hs Hc Hf vals i E). lia. }
      repeat split; [|tauto]. destruct (is_space c); [tauto|reflexivity].
    + destruct (lex_loop n f (mkState src j)) as [[more c]|] eqn:E2; [|discriminate].
      intros [= _ ->]. apply (IH f src j more e); [lia|easy].
Qed.

Lemma assemble_throw extractDescriptions entries : Forall lexed_token entries ->
  forall lastDescription map e,
    assemble extractDescriptions entries lastDescription map = Throw e ->
    e = TypeError /\ In (mkToken [inl [c_hash]] (Some Comment)) entries.
Proof.
  induction 1 as [|entry entries He _ IH]; intros d m e; [discriminate|].
  destruct He as [s| |s|K HK|K val HK Hval]; cbn -[trim].
  - intros H. apply IH in H. tauto.
  - intros [= <-]. auto.
  - intros H. apply IH in H. tauto.
  - intros H. apply IH in H. tauto.
  - destruct (parseString_String_token val Hval) as (s & E).
    cbn [parseString] in E. rewrite E. intros H. apply IH in H. tauto.
Qed.

Lemma lex_tokens_origin f tokens : forall st vals st',
  lex_tokens f tokens st = Some (vals, st') ->
  source st' = source st
  /\ Forall (fun tok => exists t st0 st1,
                 In t tokens /\ source st0 = source st
                 /\ extract f t st0 = Some (Some tok, st1)) vals.
Proof.
  induction tokens as [|t tokens IH]; intros st vals st'; simpl.
  - intros [= <- <-]. auto.
  - destruct (extract f t st) as [[[v|] s1]|] eqn:E; [| |discriminate].
    + destruct (lex_tokens f tokens s1) as [[vs s2]|] eqn:E2; [|discriminate].
      intros [= <- <-]. apply IH in E2 as [Hs Hall].
      apply extract_success_state in E as E'. destruct E' as [Hs1 _].
      split; [congruence|]. constructor.
      * exists t, st, s1. auto.
      * eapply Forall_impl; [|exact Hall]. intros tok (t0 & a & b & Hin & Ha & Hx).
        exists t0, a, b. repeat split; [now right|congruence|easy].
    + intros H. apply extract_failure_state in E. subst s1. apply IH in H as [Hs Hall].
      split; [easy|]. eapply Forall_impl; [|exact Hall].
      intros tok (t0 & a & b & Hin & Ha & Hx). exists t0, a, b. auto.
Qed.

Lemma lex_loop_origin n : forall f st toks completion,
  lex_loop n f st = Some (toks, completion) ->
  Forall (fun tok => exists t st0 st1,
              In t MAIN_TOKENS /\ source st0 = source st
              /\ extract f t st0 = Some (Some tok, st1)) toks.
Proof.
  induction n as [|n IH]; intros f [src i] toks c.
  - simpl. destruct (i <? length src); [discriminate|]. intros [= <- _]. constructor.
  - rewrite lex_loop_S. destruct (i <? length src); [|intros [= <- _]; constructor].
    destruct (lex_tokens f MAIN_TOKENS (mkState src i)) as [[vals st']|] eqn:E; [|discriminate].
    apply lex_tokens_origin in E as [Hs Hall].
    destruct (i =? index st'); [now intros [= <- _]|].
    destruct (lex_loop n f st') as [[more c']|] eqn:E2; [|discriminate].
    intros [= <- _]. apply Forall_app. split; [easy|].
    apply IH in E2. eapply Forall_impl; [|exact E2].
    intros tok (t0 & a & b & Hin & Ha & Hx). exists t0, a, b. repeat split; [easy|congruence|easy].
Qed.

(** A [Comment] token without [CommentChars] comes from a [#] followed by
    a newline or by the end of the source. *)
Lemma Comment_bare f src i st1 :
  extract f (TOKENS Comment) (mkState src i)
  = Some (Some (mkToken [inl [c_hash]] (Some Comment)), st1) ->
  nth_error src i = Some c_hash
  /\ (nth_error src (S i) = None \/ nth_error src (S i) = Some c_nl).
Proof.
  destruct f as [|f]; [discriminate|]. rewrite Comment_step.
  destruct (skipn i src) as [|c l] eqn:Hs; [discriminate|]. cbn [starts_with].
  destruct (N.eqb_spec c_hash c) as [<-|]; [|discriminate].
  assert (E1 : skipn (i + 1) src = l) by apply (skipn_prefix i src [c_hash]), Hs.
  destruct (extract f (TOKENS CommentChars) (mkState src (i + 1))) as [[[v|] s1]|] eqn:E;
    try discriminate.
  intros _. rewrite <- !hd_skipn, Hs. split; [reflexivity|].
  replace (S i) with (i + 1) by lia. rewrite E1.
  destruct l as [|d l']; [now left|right]. simpl.
  destruct (N.eqb_spec d c_nl) as [->|Hd]; [reflexivity|exfalso].
  destruct (runs_total it_not_nl (char_item_positive _) (skipn (i + 1) src))
    as [H|(s & k & H & _)].
  - rewrite E1 in H. unfold it_not_nl, class_matches in H. simpl in H.
    rewrite orb_false_r in H. destruct (N.eqb_spec d c_nl); [easy|discriminate].
  - pose proof (CommentChars_runs (f + (k + 2)) src (i + 1) s k H (Nat.le_add_l _ _)) as E2.
    rewrite (extract_le f _ _ _ _ (Nat.le_add_r _ _) E) in E2. discriminate.
Qed.

(** [parse] always ends, in one of three ways: it returns an object; or it
    throws a [TypeError], and then the source has a [#] followed by a
    newline or by nothing; or it throws the error of the lexer, whose
    message names an offset of the source and the character there, which is
    neither white space nor [#]. *)
Theorem parse_outcome (source : jstring) (extractDescriptions : bool) :
  (exists obj, parse source extractDescriptions = Some (Return obj))
  \/ (parse source extractDescriptions = Some (Throw TypeError)
      /\ exists i, nth_error source i = Some c_hash
                   /\ (nth_error source (S i) = None \/ nth_error source (S i) = Some c_nl))
  \/ (exists i c, nth_error source i = Some c /\ is_space c = false /\ c <> c_hash
                  /\ parse source extractDescriptions
                     = Some (Throw (Error (unexpected_token source i i)))).
Proof.
  unfold parse. destruct (lex_total source) as (vals & c & E & Hv). rewrite E.
  destruct (assemble extractDescriptions vals [] []) as [m|e|] eqn:Ea.
  - destruct c as [e|]; [|left; eauto]. right. right.
    pose proof E as E'. unfold lex, extract_fuel in E'.
    destruct (lex_loop_error (length source) (length source + 8) source 0 vals e
                ltac:(lia) E') as (j & ch0 & H1 & H2 & H3 & ->).
    exists j, ch0. auto.
  - right. left. apply (assemble_throw _ _ Hv) in Ea as [-> Hin]. split; [reflexivity|].
    unfold lex in E. apply lex_loop_origin in E.
    pose proof (proj1 (Forall_forall _ _) E _ Hin) as (t & st0 & st1 & Ht & Hs & Hx).
    destruct st0 as [src0 i]. simpl in Hs. subst src0.
    destruct Ht as [<-|[<-|[<-|[]]]].
    + apply extract_token_name in Hx. simpl in Hx. now destruct Hx as [[=]|[]].
    + exists i. now apply Comment_bare in Hx.
    + apply extract_token_name in Hx. simpl in Hx. now destruct Hx as [[=]|[]].
  - now apply (assemble_lexed _ _ Hv) in Ea.
Qed.

(** *** The keys and entries [parse] returns *)

Lemma obj_set_returned b m K e :
  NoDup (map fst m) /\ Forall (returned_entry b) m ->
  valid_key K = true ->
  match e with Plain _ => b = false | Described d _ => b = true /\ d <> Some [] end ->
  NoDup (map fst (obj_set m K e)) /\ Forall (returned_entry b) (obj_set m K e).
Proof.
  intros [Hnd Hall] HK He. unfold obj_set. fold proto.
  destruct (jstring_eqb K proto) eqn:E; [now split|].
  assert (K <> proto) by (intros ->; now rewrite jstring_eqb_refl in E).
  split.
  - destruct (obj_assign_cases m K e) as [[_ ->]|[Hin ->]]; [easy|].
    rewrite map_app. simpl. apply NoDup_app; [easy|repeat constructor; easy|].
    intros k Hk [<-|[]]. contradiction.
  - apply obj_assign_Forall; [easy|]. repeat split; easy.
Qed.

Lemma assemble_returned b entries : Forall lexed_token entries ->
  forall lastDescription (m m' : DotEnvObj),
    NoDup (map fst m) /\ Forall (returned_entry b) m ->
    assemble b entries lastDescription m = Return m' ->
    NoDup (map fst m') /\ Forall (returned_entry b) m'.
Proof.
  assert (Hd : forall d : jstring,
             (if truthy d then Some d else None) <> Some []).
  { intros [|c d]; simpl; discriminate. }
  induction 1 as [|entry entries He _ IH]; intros d m m' Hm; [now intros [= <-]|].
  destruct He as [s| |s|K HK|K val HK Hval]; cbn -[trim truthy]; try (now apply IH); try easy.
  - apply IH. destruct b; apply obj_set_returned; auto.
  - destruct (parseString_String_token val Hval) as (s & E).
    cbn [parseString] in E. rewrite E. apply IH. destruct b; apply obj_set_returned; auto.
Qed.

(** The object [parse] returns has distinct keys, each a key of the
    grammar and none [__proto__]; its entries are plain strings without
    descriptions, and with them objects whose description is [null] or a
    non-empty string. *)
Theorem parse_keys (source : jstring) (extractDescriptions : bool) (obj : DotEnvObj) :
  parse source extractDescriptions = Some (Return obj) ->
  NoDup (map fst obj) /\ Forall (returned_entry extractDescriptions) obj.
Proof.
  unfold parse. destruct (lex_total source) as (vals & c & -> & Hv).
  destruct (assemble extractDescriptions vals [] []) as [m| |] eqn:E; try discriminate.
  destruct c; [discriminate|]. intros [= <-].
  apply (assemble_returned extractDescriptions vals Hv [] [] m); [|easy]. split; constructor.
Qed.

Lemma parse_keys_witness :
  NoDup (map fst [(js "A", Described (Some (js "c")) (js "2")); (js "B", Described None [])])
  /\ Forall (returned_entry true)
       [(js "A", Described (Some (js "c")) (js "2")); (js "B", Described None [])].
Proof.
  apply (parse_keys (js "A=1" ++ [c_nl] ++ js "B=" ++ [c_nl] ++ js "#c" ++ [c_nl] ++ js "A=2") true).
  vm_compute. reflexivity.
Defined.

(** *** Coalescing the strings of a capture *)

Lemma push_sanitized_nil e : push_sanitized [] e = [e].
Proof. now destruct e. Qed.

Lemma push_sanitized_snoc acc x e :
  push_sanitized (acc ++ [x]) e
  = match e, x with
    | inl s, inl prev => acc ++ [inl (prev ++ s)]
    | _, _ => acc ++ [x; e]
    end.
Proof.
  unfold push_sanitized. rewrite map_app. cbn [map]. rewrite last_last, removelast_last.
  destruct e as [s|t]; [destruct x as [prev|u]|]; try reflexivity;
    now rewrite <- app_assoc.
Qed.

Lemma no_adjacent_snoc l x y :
  no_adjacent_strings (l ++ [x; y])
  = no_adjacent_strings (l ++ [x]) && negb (is_string x && is_string y).
Proof.
  induction l as [|a l IH].
  - simpl. now rewrite !andb_true_r.
  - change ((a :: l) ++ [x; y]) with (a :: (l ++ [x; y])).
    change ((a :: l) ++ [x]) with (a :: (l ++ [x])).
    cbn [no_adjacent_strings]. rewrite IH.
    destruct l as [|b l]; cbn [app]; now rewrite andb_assoc.
Qed.

Lemma no_adjacent_last l x y :
  is_string x = is_string y ->
  no_adjacent_strings (l ++ [x]) = no_adjacent_strings (l ++ [y]).
Proof.
  intros H. induction l as [|a l IH]; [reflexivity|].
  change ((a :: l) ++ [x]) with (a :: (l ++ [x])).
  change ((a :: l) ++ [y]) with (a :: (l ++ [y])).
  cbn [no_adjacent_strings]. rewrite IH.
  destruct l as [|b l]; cbn [app]; now rewrite ?H.
Qed.

Lemma push_sanitized_invariant acc e :
  no_adjacent_strings acc = true ->
  no_adjacent_strings (push_sanitized acc e) = true
  /\ flatten (push_sanitized acc e) = flatten acc ++ flatten [e].
Proof.
  intros Hacc. induction acc as [|x acc' _] using rev_ind.
  - rewrite push_sanitized_nil. now split.
  - rewrite push_sanitized_snoc. unfold flatten in *.
    destruct e as [s|t]; [destruct x as [prev|u]|].
    + split.
      * rewrite <- Hacc. now apply no_adjacent_last.
      * rewrite !flat_map_app. cbn [flat_map]. rewrite !app_nil_r, map_app.
        now rewrite <- app_assoc.
    + split.
      * rewrite no_adjacent_snoc, Hacc. reflexivity.
      * change [inr u; inl s] with ([inr u] ++ [inl s]).
        now rewrite app_assoc, flat_map_app.
    + split.
      * rewrite no_adjacent_snoc, Hacc. cbn. now rewrite andb_false_r.
      * change [x; inr t] with ([x] ++ [inr t]).
        now rewrite app_assoc, flat_map_app.
Qed.

Lemma sanitize_fold l : forall acc,
  no_adjacent_strings acc = true ->
  no_adjacent_strings (fold_left push_sanitized l acc) = true
  /\ flatten (fold_left push_sanitized l acc) = flatten acc ++ flatten l.
Proof.
  induction l as [|e l IH]; intros acc Hacc; cbn [fold_left].
  - now rewrite app_nil_r.
  - destruct (push_sanitized_invariant acc e Hacc) as [H1 H2].
    destruct (IH _ H1) as [H3 H4]. split; [easy|].
    rewrite H4, H2. unfold flatten. cbn [flat_map]. now rewrite app_nil_r, <- app_assoc.
Qed.

(** The loop that sanitizes a capture keeps its characters and tokens in
    order and leaves no two strings side by side. *)
Theorem sanitize_coalesces (extractedValue : list Elem) :
  no_adjacent_strings (sanitize extractedValue) = true
  /\ flatten (sanitize extractedValue) = flatten extractedValue.
Proof. exact (sanitize_fold extractedValue [] eq_refl). Qed.

(** *** Text the lexer cannot pass *)

(** No top-level rule starts at a character that is neither white space,
    nor [#], nor the first character of a key. *)
Lemma lex_tokens_stuck f src j c rest :
  skipn j src = c :: rest ->
  is_space c = false -> c <> c_hash -> class_matches re_alphaU c = false -> 4 <= f ->
  lex_tokens f MAIN_TOKENS (mkState src j) = Some ([], mkState src j).
Proof.
  intros Hsrc Hsp Hh Hk Hf. destruct f as [|f]; [lia|].
  unfold MAIN_TOKENS. rewrite lex_tokens_cons.
  rewrite Whitespace_fails;
    [|rewrite Hsrc; unfold it_space; simpl; now rewrite space_class, Hsp|lia].
  rewrite lex_tokens_cons, Comment_step, Hsrc, starts_with_cons.
  destruct (N.eqb_spec c_hash c) as [<-|_]; [easy|].
  rewrite lex_tokens_cons, keyedEntry_step, Key_fails; [reflexivity| |lia].
  rewrite Hsrc. unfold it_alphaU. simpl. now rewrite Hk.
Qed.

(** The first iteration of the lexer yields tokens the assembler accepts,
    and the second one is stuck. *)
Lemma parse_stuck_after src toks j c rest extractDescriptions m :
  lex_tokens (length src + 8) MAIN_TOKENS (mkState src 0) = Some (toks, mkState src j) ->
  0 < j -> skipn j src = c :: rest ->
  is_space c = false -> c <> c_hash -> class_matches re_alphaU c = false ->
  assemble extractDescriptions toks [] [] = Return m ->
  parse src extractDescriptions = Some (Throw (Error (unexpected_token src j j))).
Proof.
  intros E Hj Hsrc Hsp Hh Hk Ha. pose proof (skipn_length_eq _ _ _ Hsrc) as Hlen.
  cbn [length] in Hlen. unfold parse, lex, extract_fuel.
  set (f := length src + 8) in *. assert (Hf : 4 <= f) by lia. clearbody f.
  destruct (length src) as [|[|n]] eqn:En; try lia.
  rewrite lex_loop_S, En. cbn [Nat.ltb Nat.leb]. rewrite E. cbn [index source].
  destruct (Nat.eqb_spec 0 j); [lia|].
  rewrite lex_loop_S, En.
  destruct (Nat.ltb_spec j (S (S n))); [|lia].
  rewrite (lex_tokens_stuck f src j c rest Hsrc Hsp Hh Hk Hf).
  cbn [index source]. rewrite Nat.eqb_refl, app_nil_r. now rewrite Ha.
Qed.

Lemma String_unquoted_until f src i c r rest :
  skipn i src = (c :: r) ++ rest ->
  class_matches re_safe c = true -> forallb (class_matches re_unquoted) r = true ->
  it_unquoted rest = None -> length src - i + 5 <= f ->
  extract f (TOKENS String) (mkState src i)
  = Some (Some (mkToken [inl (c :: r)] (Some UnquotedString)), mkState src (i + length (c :: r))).
Proof.
  intros Hsrc Hc Hr Hrest Hf. pose proof (skipn_length_eq _ _ _ Hsrc) as Hlen.
  rewrite length_app in Hlen.
  destruct f as [|f]; [lia|]. rewrite String_step.
  rewrite (UnquotedString_runs f src i (c :: r) (length (c :: r))); [reflexivity| |lia].
  rewrite Hsrc. now apply head_runs_char_intro.
Qed.

(** An unquoted value ends at a backslash, and no rule starts there:
    [K=V] followed by a backslash is rejected at the offset of the
    backslash.  (A backslash may only be the first character of an
    unquoted value.) *)
Theorem backslash_ends_unquoted_value (K : jstring) (c : N) (r rest : jstring)
    (extractDescriptions : bool) :
  valid_key K = true ->
  class_matches re_safe c = true -> forallb (class_matches re_unquoted) r = true ->
  parse (K ++ c_eq :: (c :: r) ++ c_bsl :: rest) extractDescriptions
  = Some (Throw (Error (unexpected_token (K ++ c_eq :: (c :: r) ++ c_bsl :: rest)
                          (length K + 1 + length (c :: r))
                          (length K + 1 + length (c :: r))))).
Proof.
  intros HK Hc Hr. set (src := K ++ c_eq :: (c :: r) ++ c_bsl :: rest).
  assert (HQ : string_reads (c :: r) (c_bsl :: rest) (c :: r)).
  { intros f s i Hs Hf.
    rewrite (String_unquoted_until f s i c r (c_bsl :: rest) Hs Hc Hr eq_refl Hf).
    eexists. split; reflexivity. }
  destruct (lex_tokens_entry (length src + 8) src 0 K (c :: r) (c :: r) (c_bsl :: rest)
              eq_refl HK HQ ltac:(lia) MAIN_TOKENS (or_intror eq_refl)) as (toks & E & Hreads).
  replace (length K + 1 + length (c :: r)) with (0 + length (K ++ c_eq :: c :: r))
    by (rewrite length_app; simpl; lia).
  apply (parse_stuck_after src toks _ c_bsl rest extractDescriptions
           (fold_left (assign extractDescriptions) [(K, Plain (c :: r))] []));
    try easy.
  - rewrite length_app. simpl. lia.
  - apply (skipn_prefix 0 src (K ++ c_eq :: c :: r)). unfold src.
    rewrite <- app_assoc. reflexivity.
  - now apply assemble_reads.
Qed.

Lemma backslash_ends_unquoted_value_witness :
  parse (js "DIR=C:\tmp") false
  = Some (Throw (Error (js "Unexpected token \, at char 6 (line: \tmp)"))).
Proof. exact (backslash_ends_unquoted_value (js "DIR") (ch "C") (js ":") (js "tmp") false
                eq_refl eq_refl eq_refl). Defined.

Lemma unescaped_runs body :
  body <> [] -> forallb (class_matches re_unescaped_dq) body = true ->
  runs dq_item body body (length body).
Proof.
  induction body as [|c body IH]; [easy|]. intros _ Hp. simpl in Hp.
  apply andb_true_iff in Hp as [Hc Hs].
  destruct body as [|d body'].
  - apply runs_last; simpl; now rewrite ?Hc.
  - apply (runs_more dq_item (c :: d :: body') [c] 1); [simpl; now rewrite Hc|].
    exact (IH ltac:(easy) Hs).
Qed.

(** [String] matches nothing at a quote that is not closed before the end
    of the source. *)
Lemma String_unclosed f src i q body :
  skipn i src = q :: body -> unclosed q body -> length src - i + 5 <= f ->
  extract f (TOKENS String) (mkState src i) = Some (None, mkState src i).
Proof.
  intros Hsrc (Hne & Hq) Hf. pose proof (skipn_length_eq _ _ _ Hsrc) as Hlen.
  cbn [length] in Hlen. destruct f as [|[|f]]; try lia. rewrite String_step.
  assert (E1 : skipn (i + 1) src = body) by apply (skipn_prefix i src [q]), Hsrc.
  assert (E2 : skipn (i + 1 + length body) src = []).
  { apply (skipn_prefix _ _ body). now rewrite app_nil_r. }
  destruct body as [|b body']; [easy|].
  rewrite UnquotedString_fails;
    [|rewrite Hsrc; now destruct Hq as [(-> & _)|(-> & _)]|lia].
  rewrite EmptyString_step.
  destruct (jstring_eqb _ _) eqn:E.
  { exfalso. apply jstring_eqb_eq in E. unfold substr in E. rewrite Hsrc in E.
    cbn in E. injection E as <- <-.
    destruct Hq as [(_ & H)|(H & _)]; [simpl in H|]; discriminate H. }
  rewrite (quoted_step QuotedString QuotedStringChars c_dq eq_refl eq_refl), Hsrc.
  rewrite (quoted_step SingleQuotedString SingleQuotedStringChars c_sq eq_refl eq_refl), Hsrc.
  rewrite !starts_with_cons.
  destruct Hq as [(-> & Hb)|(-> & Hb)].
  - change (c_dq =? c_dq)%N with true. change (c_sq =? c_dq)%N with false. cbv iota.
    rewrite (QuotedStringChars_runs f src (i + 1) (b :: body') (length (b :: body')));
      [|rewrite E1; now apply unescaped_runs|lia].
    cbn [index]. now rewrite E2.
  - change (c_dq =? c_sq)%N with false. change (c_sq =? c_sq)%N with true. cbv iota.
    rewrite (SingleQuotedStringChars_runs f src (i + 1) (b :: body') (length (b :: body')));
      [|rewrite E1; rewrite <- (app_nil_r (b :: body')) at 1;
        now apply runs_char_intro|lia].
    cbn [index]. now rewrite E2.
Qed.

(** A value that opens a quote and never closes it is rejected at the
    offset of the quote: the text after the quote runs to the end of the
    source, is not empty and holds no such quote, nor, after a double
    quote, a backslash. *)
Theorem unclosed_quote_rejected (K : jstring) (q : N) (body : jstring)
    (extractDescriptions : bool) :
  valid_key K = true -> unclosed q body ->
  parse (K ++ c_eq :: q :: body) extractDescriptions
  = Some (Throw (Error (unexpected_token (K ++ c_eq :: q :: body)
                          (length K + 1) (length K + 1)))).
Proof.
  intros HK Hu. set (src := K ++ c_eq :: q :: body).
  assert (Hlen : length src = length K + 2 + length body).
  { unfold src. rewrite length_app. simpl. lia. }
  assert (E1 : skipn (0 + length K) src = c_eq :: q :: body)
    by now apply (skipn_prefix 0 src K).
  assert (E2 : skipn (0 + length K + 1) src = q :: body)
    by apply (skipn_prefix _ _ [c_eq]), E1.
  assert (Hq : q = c_dq \/ q = c_sq) by (destruct Hu as (_ & [(-> & _)|(-> & _)]); auto).
  apply (parse_stuck_after src
           [mkToken [inr (mkToken [inl K] (Some Key)); inl [c_eq]] (Some keyedEntry)]
           (length K + 1) q body extractDescriptions
           (assign extractDescriptions [] (K, Plain []))).
  - unfold MAIN_TOKENS. replace (length src + 8) with (S (length src + 7)) by lia.
    rewrite lex_tokens_cons.
    rewrite (Whitespace_fails_on_key _ src 0 K (c_eq :: q :: body) eq_refl HK).
    rewrite lex_tokens_cons.
    rewrite (Comment_fails_on_key _ src 0 K (c_eq :: q :: body) eq_refl HK).
    rewrite lex_tokens_cons, keyedEntry_step.
    rewrite (Key_serialized _ src 0 K _ eq_refl HK) by lia. cbn [index].
    rewrite E1, starts_with_cons. change (c_eq =? c_eq)%N with true. cbv iota.
    rewrite (String_unclosed _ src (0 + length K + 1) q body E2 Hu) by lia.
    reflexivity.
  - lia.
  - exact E2.
  - now destruct Hq as [-> | ->].
  - now destruct Hq as [-> | ->].
  - now destruct Hq as [-> | ->].
  - now destruct extractDescriptions.
Qed.

Lemma unclosed_quote_rejected_witness :
  parse (js "A='it is") true
  = Some (Throw (Error (js "Unexpected token ', at char 2 (line: 'it is)"))).
Proof.
  apply (unclosed_quote_rejected (js "A") c_sq (js "it is") true eq_refl).
  split; [discriminate|right; split; reflexivity].
Defined.
